(** * Translation validator ([scripts/validate.ts]): embedding and properties

    The validator compares every target locale of a directory of JSON message
    catalogs against the source locale [en-US].  This file embeds the script
    function by function and proves properties of the embedding.

    Conventions of the embedding.
    - A JavaScript string is a [string] holding its UTF-8 bytes.  The path
      separator [.] and the decimal digits are single bytes that never occur
      inside a multi-byte sequence, so splitting and joining key paths on
      bytes agrees with doing so on characters.
    - A JavaScript [Map<string, V>] or [Set<string>] is an association list,
      respectively a list, kept in insertion order: the script iterates over
      both and pushes Issues in iteration order.
    - [main] threads its variables and the console through a small state
      monad in which [process.exit] short-circuits.
    - The ICU MessageFormat parser is an npm package, not part of the
      script: it is a variable of the sections that use it. *)

From Stdlib Require Import List String Ascii Bool Arith ZArith Lia.
From Stdlib Require Import Sorting.Permutation Sorting.Sorted.
From Stdlib Require Import DecimalString DecimalNat Decimal.
From Stdlib Require Import Floats.SpecFloat.
Import ListNotations.

Local Open Scope string_scope.
Local Open Scope list_scope.
Local Open Scope nat_scope.

(** String concatenation, written apart from list concatenation. *)
Infix "+++" := String.append (right associativity, at level 60).

(** ** JavaScript strings *)

Module Js.

(** Truthiness of a string used as a condition: only the empty string is
    falsy. *)
Definition truthy (s : string) : bool :=
  match s with
  | EmptyString => false
  | String _ _ => true
  end.

(** [`${n}`] for a non-negative integer. *)
Definition ofNat (n : nat) : string :=
  NilZero.string_of_uint (Nat.to_uint n).

(** [`${z}`] for an integer below 1e21 in absolute value. *)
Definition ofZ (z : Z) : string :=
  match z with
  | Z0 => "0"
  | Zpos p => ofNat (Pos.to_nat p)
  | Zneg p => "-" +++ ofNat (Pos.to_nat p)
  end.

(** [s.length]: the number of UTF-16 code units of the text whose UTF-8
    bytes are [s].  A continuation byte adds nothing, the lead byte of a
    four-byte sequence stands for a surrogate pair. *)
Fixpoint length (s : string) : nat :=
  match s with
  | EmptyString => 0
  | String c rest =>
      let n := nat_of_ascii c in
      (if (128 <=? n) && (n <? 192) then 0
       else if 240 <=? n then 2 else 1) + length rest
  end.

(** [s.repeat(n)].  JavaScript raises a RangeError for a negative count;
    the script only calls it with counts between 0 and 22. *)
Fixpoint repeat (s : string) (n : nat) : string :=
  match n with
  | O => ""
  | S k => s +++ repeat s k
  end.

(** [s.padEnd(n)] and [s.padStart(n)] with the default filler, a space. *)
Definition padEnd (s : string) (n : nat) : string :=
  s +++ repeat " " (n - length s).

Definition padStart (s : string) (n : nat) : string :=
  repeat " " (n - length s) +++ s.

(** White space and line terminators of ECMAScript that are a single byte
    in UTF-8: TAB, LF, VT, FF, CR and SP. *)
Definition isSpaceByte (c : ascii) : bool :=
  let n := nat_of_ascii c in
  ((9 <=? n) && (n <=? 13)) || (n =? 32).

Definition byte (n : nat) : ascii := ascii_of_nat n.

(** The remaining ones, as UTF-8 byte triples or pairs: U+00A0, U+1680,
    U+2000 to U+200A, U+2028, U+2029, U+202F, U+205F, U+3000, U+FEFF. *)
Definition isSpace2 (a b : ascii) : bool :=
  (nat_of_ascii a =? 194) && (nat_of_ascii b =? 160).

Definition isSpace3 (a b c : ascii) : bool :=
  let x := nat_of_ascii a in
  let y := nat_of_ascii b in
  let z := nat_of_ascii c in
  ((x =? 225) && (y =? 154) && (z =? 128))
  || ((x =? 226) && (y =? 128)
      && (((128 <=? z) && (z <=? 138)) || (z =? 168) || (z =? 169) || (z =? 175)))
  || ((x =? 226) && (y =? 129) && (z =? 159))
  || ((x =? 227) && (y =? 128) && (z =? 128))
  || ((x =? 239) && (y =? 187) && (z =? 191)).

(** [s.trimStart()]. *)
Fixpoint trimStart (s : string) : string :=
  match s with
  | EmptyString => s
  | String a r1 =>
      if isSpaceByte a then trimStart r1
      else
        match r1 with
        | EmptyString => s
        | String b r2 =>
            if isSpace2 a b then trimStart r2
            else
              match r2 with
              | EmptyString => s
              | String c r3 =>
                  if isSpace3 a b c then trimStart r3 else s
              end
        end
  end.

Fixpoint rev (s : string) : string :=
  match s with
  | EmptyString => EmptyString
  | String c rest => rev rest +++ String c EmptyString
  end.

(** [s.trimEnd()]: the same scan from the last byte backwards, where the
    bytes of a sequence arrive in reverse. *)
Fixpoint trimStartRev (s : string) : string :=
  match s with
  | EmptyString => s
  | String a r1 =>
      if isSpaceByte a then trimStartRev r1
      else
        match r1 with
        | EmptyString => s
        | String b r2 =>
            if isSpace2 b a then trimStartRev r2
            else
              match r2 with
              | EmptyString => s
              | String c r3 =>
                  if isSpace3 c b a then trimStartRev r3 else s
              end
        end
  end.

Definition trimEnd (s : string) : string := rev (trimStartRev (rev s)).

(** [s.trim()]. *)
Definition trim (s : string) : string := trimEnd (trimStart s).

(** [a === b] on strings. *)
Definition eqb (a b : string) : bool := String.eqb a b.

End Js.

(** ** Insertion-ordered maps and sets with string keys *)

Module StrMap.

Definition t (V : Type) : Type := list (string * V).

Definition empty {V} : t V := [].

(** [m.get(k)], with [None] for [undefined]. *)
Fixpoint get {V} (k : string) (m : t V) : option V :=
  match m with
  | [] => None
  | (k', v) :: rest => if String.eqb k k' then Some v else get k rest
  end.

Definition has {V} (k : string) (m : t V) : bool :=
  match get k m with
  | Some _ => true
  | None => false
  end.

(** [m.set(k, v)]: an existing key keeps its place and takes the new value,
    a new key goes last. *)
Fixpoint set {V} (k : string) (v : V) (m : t V) : t V :=
  match m with
  | [] => [(k, v)]
  | (k', v') :: rest =>
      if String.eqb k k' then (k', v) :: rest else (k', v') :: set k v rest
  end.

Definition size {V} (m : t V) : nat := List.length m.

Definition keys {V} (m : t V) : list string := map fst m.

(** [for (const [k, v] of src) dst.set(k, v)]. *)
Definition setAll {V} (src dst : t V) : t V :=
  fold_left (fun acc kv => set (fst kv) (snd kv) acc) src dst.

End StrMap.

Module StrSet.

Definition t : Type := list string.

Definition empty : t := [].

Definition has (x : string) (s : t) : bool :=
  existsb (String.eqb x) s.

(** [s.add(x)]. *)
Definition add (x : string) (s : t) : t :=
  if has x s then s else s ++ [x].

End StrSet.

(** ** JSON documents *)

(** A value returned by [JSON.parse].  A number is the IEEE 754 double it
    denotes.  The fields of an object are listed in the order in which
    [Object.entries] enumerates them; a JavaScript object has each key once
    ([wellFormed] below). *)
#[warnings="-register-all"]
Inductive json : Type :=
| JNull
| JBool (b : bool)
| JNumber (x : spec_float)
| JString (s : string)
| JArray (items : list json)
| JObject (fields : list (string * json)).

(** Truthiness of a parsed value, as tested by [!data]. *)
Definition truthy (v : json) : bool :=
  match v with
  | JNull => false
  | JBool b => b
  | JNumber (S754_zero _) => false
  | JNumber S754_nan => false
  | JNumber _ => true
  | JString s => Js.truthy s
  | JArray _ => true
  | JObject _ => true
  end.

(** ** Helpers of the script *)

(** The path of a child: [prefix ? `${prefix}.${key}` : key]. *)
Definition childPath (prefix seg : string) : string :=
  if Js.truthy prefix then prefix +++ "." +++ seg else seg.

(** [flatten(obj, prefix)]. *)
Fixpoint flatten (obj : json) (prefix : string) : StrMap.t string :=
  match obj with
  | JArray items =>
      (fix loop (items : list json) (i : nat) (result : StrMap.t string)
         : StrMap.t string :=
         match items with
         | [] => result
         | x :: rest =>
             let path := childPath prefix (Js.ofNat i) in
             loop rest (S i)
               match x with
               | JString s => StrMap.set path s result
               | JArray _ | JObject _ => StrMap.setAll (flatten x path) result
               | _ => result
               end
         end) items 0 StrMap.empty
  | JObject fields =>
      (fix loop (fields : list (string * json)) (result : StrMap.t string)
         : StrMap.t string :=
         match fields with
         | [] => result
         | (key, value) :: rest =>
             let path := childPath prefix key in
             loop rest
               match value with
               | JString s => StrMap.set path s result
               | JArray _ | JObject _ => StrMap.setAll (flatten value path) result
               | _ => result
               end
         end) fields StrMap.empty
  | _ => StrMap.empty
  end.

(** ** The message parser and its syntax trees *)

(** [MessageFormatElement] of [@formatjs/icu-messageformat-parser], with the
    fields the script reads: [type], [value], [options] and [children].  The
    options of a select or plural are listed in the order of
    [Object.values]; each carries the sub-message of its case. *)
#[warnings="-register-all"]
Inductive MessageFormatElement : Type :=
| Literal (value : string)
| Argument (value : string)
| Number (value : string)
| Date (value : string)
| Time (value : string)
| Select (value : string) (options : list (string * list MessageFormatElement))
| Plural (value : string) (options : list (string * list MessageFormatElement))
| Pound
| Tag (value : string) (children : list MessageFormatElement).

Record ParserOptions : Type := { ignoreTag : bool }.

(** [parse(message, opts)] either throws an [Error] with a message ([inl])
    or returns the elements of the message ([inr]). *)
Definition Parser : Type :=
  string -> ParserOptions -> string + list MessageFormatElement.

(** The body of the [switch] of [collectPlaceholders], for one node; the
    inner loops are those of the recursive calls. *)
Fixpoint collectNode (node : MessageFormatElement) (out : StrSet.t) : StrSet.t :=
  match node with
  | Argument value | Number value | Date value | Time value =>
      StrSet.add value out
  | Select value options | Plural value options =>
      (fix eachOption (opts : list (string * list MessageFormatElement))
           (out : StrSet.t) : StrSet.t :=
         match opts with
         | [] => out
         | (_, sub) :: rest =>
             eachOption rest
               ((fix eachNode (nodes : list MessageFormatElement)
                     (out : StrSet.t) : StrSet.t :=
                   match nodes with
                   | [] => out
                   | n :: more => eachNode more (collectNode n out)
                   end) sub out)
         end) options (StrSet.add value out)
  | Tag value children =>
      (fix eachNode (nodes : list MessageFormatElement)
           (out : StrSet.t) : StrSet.t :=
         match nodes with
         | [] => out
         | n :: more => eachNode more (collectNode n out)
         end) children (StrSet.add ("<" +++ value +++ ">") out)
  | Literal _ | Pound => out
  end.

(** [collectPlaceholders(nodes, out)]; the set [out] is updated in place by
    the script and returned here. *)
Definition collectPlaceholders (nodes : list MessageFormatElement)
    (out : StrSet.t) : StrSet.t :=
  fold_left (fun acc node => collectNode node acc) nodes out.

Section WithParser.

Variable parse : Parser.

(** [extractPlaceholders(message)]. *)
Definition extractPlaceholders (message : string) : StrSet.t :=
  match parse message {| ignoreTag := true |} with
  | inr nodes => collectPlaceholders nodes StrSet.empty
  | inl _ => StrSet.empty
  end.

(** [validateICU(message)]: the text of the error, or [None] for [null]. *)
Definition validateICU (message : string) : option string :=
  match parse message {| ignoreTag := true |} with
  | inr _ => None
  | inl e => Some e
  end.

End WithParser.

(** [if (err)] on the result of [validateICU]: [null] and the empty string
    are falsy. *)
Definition isError (err : option string) : bool :=
  match err with
  | Some e => Js.truthy e
  | None => false
  end.

(** ** Numbers *)

(** JavaScript numbers are IEEE 754 binary64 values: [spec_float] with the
    operations of [SpecFloat] at precision 53. *)
Module Num.

Definition prec : Z := 53.
Definition emax : Z := 1024.

(** The double of an integer; exact below 2^53 in absolute value. *)
Definition ofZ (z : Z) : spec_float := binary_normalize prec emax z 0 false.
Definition ofNat (n : nat) : spec_float := ofZ (Z.of_nat n).

Definition div : spec_float -> spec_float -> spec_float := SFdiv prec emax.
Definition mul : spec_float -> spec_float -> spec_float := SFmul prec emax.
Definition sub : spec_float -> spec_float -> spec_float := SFsub prec emax.

(** [a === b] and [a >= b] on numbers. *)
Definition eqb : spec_float -> spec_float -> bool := SFeqb.
Definition geb (a b : spec_float) : bool := SFleb b a.

(** [Math.round(x)]: the integer nearest to [x], the larger one at a tie;
    that is the floor of [x + 1/2], computed exactly on the mantissa.  An
    integral, infinite or NaN argument is returned as it is, and a result
    of zero keeps the sign of [x]. *)
Definition round (x : spec_float) : spec_float :=
  match x with
  | S754_finite s m e =>
      if (0 <=? e)%Z then x
      else
        let v := if s then Z.neg m else Z.pos m in
        let n := ((2 * v + 2 ^ (- e)) / 2 ^ (1 - e))%Z in
        if (n =? 0)%Z then S754_zero s else ofZ n
  | _ => x
  end.

(** The integer part of a finite number (ToIntegerOrInfinity), and 0 for
    NaN and the infinities, which the script never converts. *)
Definition toZ (x : spec_float) : Z :=
  match x with
  | S754_finite s m e =>
      let v := if s then Z.neg m else Z.pos m in
      if (0 <=? e)%Z then (v * 2 ^ e)%Z else Z.quot v (2 ^ (- e))
  | _ => 0%Z
  end.

(** [`${x}`] for an integral [x] below 1e21, the only numbers the script
    prints. *)
Definition toString (x : spec_float) : string := Js.ofZ (toZ x).

(** The count of [String.prototype.repeat]; a negative count, for which
    JavaScript raises a RangeError, is not produced by the script and is
    read as 0. *)
Definition toCount (x : spec_float) : nat := Z.to_nat (toZ x).

End Num.

(** ** Constants and issues *)

Definition SOURCE_LOCALE : string := "en-US".
Definition NAMESPACES : list string := ["game"; "site"; "pages"; "error"; "faq"].

Inductive IssueType : Type := Error | Warning.

Definition IssueType_eqb (a b : IssueType) : bool :=
  match a, b with
  | Error, Error | Warning, Warning => true
  | _, _ => false
  end.

(** [`${level}`] for the two levels. *)
Definition levelName (t : IssueType) : string :=
  match t with
  | Error => "error"
  | Warning => "warning"
  end.

Module Issue.
Record t : Type := make {
  type : IssueType;
  locale : string;
  namespace : string;
  key : string;
  message : string
}.
End Issue.

(** The counters of one target locale, the values of the [coverage] map. *)
Record Coverage : Type := { total : nat; translated : nat }.

(** ** The file system *)

(** What [Bun.file(path).text()] followed by [JSON.parse] gives for one
    catalog file: an exception (the file is missing or is not JSON) or the
    parsed value. *)
Inductive FileContent : Type :=
| Unreadable
| Parsed (value : json).

Record Dirent : Type := { name : string; isDirectory : bool }.

(** The locales directory: the catalog of each locale and namespace, and the
    entries [readdir] lists. *)
Record FileSystem : Type := {
  file : string -> string -> FileContent;
  entries : list Dirent
}.

(** [loadJSON(locale, ns)].  The [null] of the [catch] and a file holding
    the JSON text [null] are the same value. *)
Definition loadJSON (fs : FileSystem) (locale ns : string) : json :=
  match file fs locale ns with
  | Parsed value => value
  | Unreadable => JNull
  end.

(** [Array.prototype.sort] without a comparator on strings: a stable sort
    in the order of the code units (of the bytes, in this embedding). *)
Fixpoint insertSorted (x : string) (l : list string) : list string :=
  match l with
  | [] => [x]
  | y :: rest => if String.ltb x y then x :: l else y :: insertSorted x rest
  end.

Definition sort (l : list string) : list string :=
  fold_left (fun acc x => insertSorted x acc) l [].

(** [discoverLocales()]. *)
Definition discoverLocales (fs : FileSystem) : list string :=
  sort (map name
          (filter (fun e => isDirectory e && negb (Js.eqb (name e) SOURCE_LOCALE))
                  (entries fs))).

(** ** The process: console, issue list and exit *)

(** The array [issues] of [main] and the two console streams, each only
    ever appended to. *)
Record Log : Type := {
  issues : list Issue.t;
  stdout : list string;
  stderr : list string
}.

Definition emptyLog : Log := {| issues := []; stdout := []; stderr := [] |}.

(** A computation either returns a value or ends the process with an exit
    code. *)
Inductive Result (A : Type) : Type :=
| Return (a : A) (log : Log)
| Exited (code : Z) (log : Log).

Arguments Return {A} a log.
Arguments Exited {A} code log.

Definition M (A : Type) : Type := Log -> Result A.

Definition ret {A} (a : A) : M A := fun log => Return a log.

Definition bind {A B} (c : M A) (f : A -> M B) : M B :=
  fun log =>
    match c log with
    | Return a log' => f a log'
    | Exited code log' => Exited code log'
    end.

Notation "x <- c ;; k" := (bind c (fun x => k))
  (at level 61, c at next level, right associativity).
Notation "c ;; k" := (bind c (fun _ => k))
  (at level 61, right associativity).

(** [issues.push(i)]. *)
Definition push (i : Issue.t) : M unit :=
  fun log => Return tt {| issues := issues log ++ [i];
                          stdout := stdout log;
                          stderr := stderr log |}.

(** [console.log(s)] and [console.error(s)]. *)
Definition consoleLog (s : string) : M unit :=
  fun log => Return tt {| issues := issues log;
                          stdout := stdout log ++ [s];
                          stderr := stderr log |}.

Definition consoleError (s : string) : M unit :=
  fun log => Return tt {| issues := issues log;
                          stdout := stdout log;
                          stderr := stderr log ++ [s] |}.

(** [process.exit(code)]. *)
Definition processExit {A} (code : Z) : M A :=
  fun log => Exited code log.

(** Reading the array [issues]. *)
Definition getIssues : M (list Issue.t) :=
  fun log => Return (issues log) log.

(** [if (b) { c }]. *)
Definition when (b : bool) (c : M unit) : M unit :=
  if b then c else ret tt.

(** [for (const x of xs) { body }]. *)
Fixpoint forEach {A} (xs : list A) (body : A -> M unit) : M unit :=
  match xs with
  | [] => ret tt
  | x :: rest => body x ;; forEach rest body
  end.

(** A [for ... of] loop that updates local variables, here [acc]. *)
Fixpoint foldM {A B} (body : B -> A -> M B) (acc : B) (xs : list A) : M B :=
  match xs with
  | [] => ret acc
  | x :: rest => acc' <- body acc x ;; foldM body acc' rest
  end.

(** ** The script *)


Definition ESC : string := String (Js.byte 27) "".
Definition NL : string := String (Js.byte 10) "".
(** U+2588 and U+2591, the two blocks of the coverage bar. *)
Definition FULL_BLOCK : string :=
  String (Js.byte 226) (String (Js.byte 150) (String (Js.byte 136) "")).
Definition LIGHT_SHADE : string :=
  String (Js.byte 226) (String (Js.byte 150) (String (Js.byte 145) "")).

Section Script.

Variable parse : Parser.
Variable isCI : bool.
Variable fs : FileSystem.

(** *** Terminal colors *)

Definition paint (code s : string) : string :=
  if isCI then s else ESC +++ "[" +++ code +++ "m" +++ s +++ ESC +++ "[0m".

Definition red : string -> string := paint "31".
Definition yellow : string -> string := paint "33".
Definition green : string -> string := paint "32".
Definition cyan : string -> string := paint "36".
Definition bold : string -> string := paint "1".
Definition dim : string -> string := paint "2".

(** [ghAnnotate(level, file, message)]. *)
Definition ghAnnotate (level : IssueType) (path message : string) : M unit :=
  when isCI
    (consoleLog ("::" +++ levelName level +++ " file=" +++ path +++ "::" +++ message)).

Definition catalogPath (locale ns : string) : string :=
  "locales/" +++ locale +++ "/" +++ ns +++ ".json".

(** *** Loading and checking the source locale (lines 161 to 182) *)

(** One turn of the loop over [NAMESPACES]; [sourceData] is the map being
    filled. *)
Definition loadSource (sourceData : StrMap.t (StrMap.t string)) (ns : string)
    : M (StrMap.t (StrMap.t string)) :=
  let data := loadJSON fs SOURCE_LOCALE ns in
  if negb (truthy data) then
    consoleError (red ("FATAL: cannot load " +++ SOURCE_LOCALE +++ "/" +++ ns +++ ".json")) ;;
    processExit 1
  else
    let flat := flatten data "" in
    let sourceData := StrMap.set ns flat sourceData in
    forEach flat (fun kv =>
      match validateICU parse (snd kv) with
      | Some err =>
          when (Js.truthy err)
            (push (Issue.make Error SOURCE_LOCALE ns (fst kv)
                     ("Invalid ICU in source: " +++ err)))
      | None => ret tt
      end) ;;
    ret sourceData.

(** *** Checking one target locale (lines 192 to 303) *)

(** The two placeholder loops of lines 275 to 298. *)
Definition comparePlaceholders (locale ns key : string) (srcPH tgtPH : StrSet.t)
    : M unit :=
  forEach srcPH (fun ph =>
    when (negb (StrSet.has ph tgtPH))
      (push (Issue.make Error locale ns key ("Missing placeholder: " +++ ph)) ;;
       ghAnnotate Error (catalogPath locale ns)
         (key +++ ": missing placeholder " +++ ph))) ;;
  forEach tgtPH (fun ph =>
    when (negb (StrSet.has ph srcPH))
      (push (Issue.make Error locale ns key ("Unknown placeholder: " +++ ph)) ;;
       ghAnnotate Error (catalogPath locale ns)
         (key +++ ": unknown placeholder " +++ ph))).

(** One turn of the loop over the source keys (lines 230 to 299); it
    returns the new value of [translated].  Each [continue] is a branch
    that ends here. *)
Definition checkKey (locale ns : string) (targetKeys : StrMap.t string)
    (translated : nat) (entry : string * string) : M nat :=
  let key := fst entry in
  let sourceValue := snd entry in
  match StrMap.get key targetKeys with
  | None =>
      push (Issue.make Warning locale ns key "Missing translation") ;;
      ret translated
  | Some targetValue =>
      let translated := S translated in
      if Js.eqb (Js.trim targetValue) "" then
        push (Issue.make Warning locale ns key "Empty value") ;;
        ret translated
      else
        match validateICU parse targetValue with
        | Some icuErr =>
            if Js.truthy icuErr then
              push (Issue.make Error locale ns key ("Invalid ICU: " +++ icuErr)) ;;
              ghAnnotate Error (catalogPath locale ns)
                (key +++ ": invalid ICU syntax") ;;
              ret translated
            else
              comparePlaceholders locale ns key
                (extractPlaceholders parse sourceValue)
                (extractPlaceholders parse targetValue) ;;
              ret translated
        | None =>
            comparePlaceholders locale ns key
              (extractPlaceholders parse sourceValue)
              (extractPlaceholders parse targetValue) ;;
            ret translated
        end
  end.

(** [sourceData.get(ns)!]: every namespace was stored by [loadSource]
    before the first use, so the default is never taken. *)
Definition sourceKeysOf (sourceData : StrMap.t (StrMap.t string)) (ns : string)
    : StrMap.t string :=
  match StrMap.get ns sourceData with
  | Some m => m
  | None => StrMap.empty
  end.

(** One turn of the loop over [NAMESPACES] for a target locale (lines 196
    to 300), on the counters [total] and [translated]. *)
Definition checkNamespace (sourceData : StrMap.t (StrMap.t string))
    (locale : string) (counters : Coverage) (ns : string) : M Coverage :=
  let sourceKeys := sourceKeysOf sourceData ns in
  let total := total counters + StrMap.size sourceKeys in
  let data := loadJSON fs locale ns in
  if negb (truthy data) then
    push (Issue.make Error locale ns "*" "File missing or invalid JSON") ;;
    ghAnnotate Error (catalogPath locale ns) "File missing or invalid JSON" ;;
    ret {| total := total; translated := translated counters |}
  else
    let targetKeys := flatten data "" in
    forEach (StrMap.keys targetKeys) (fun key =>
      when (negb (StrMap.has key sourceKeys))
        (push (Issue.make Error locale ns key "Extra key not in source (en-US)") ;;
         ghAnnotate Error (catalogPath locale ns) ("Extra key: " +++ key))) ;;
    translated <- foldM (checkKey locale ns targetKeys)
                        (translated counters) sourceKeys ;;
    ret {| total := total; translated := translated |}.

(** One turn of the loop over the locales: the counters start at 0 and
    the result is what [coverage.set] stores. *)
Definition checkLocale (sourceData : StrMap.t (StrMap.t string))
    (locale : string) : M Coverage :=
  foldM (checkNamespace sourceData locale)
        {| total := 0; translated := 0 |} NAMESPACES.

Definition checkLocales (sourceData : StrMap.t (StrMap.t string))
    (locales : list string) : M (StrMap.t Coverage) :=
  foldM (fun coverage locale =>
           counters <- checkLocale sourceData locale ;;
           ret (StrMap.set locale counters coverage))
        StrMap.empty locales.

(** *** The report (lines 306 to 353) *)

(** [total > 0 ? Math.round((translated / total) * 100) : 0]. *)
Definition coveragePct (c : Coverage) : spec_float :=
  if 0 <? total c then
    Num.round (Num.mul (Num.div (Num.ofNat (translated c)) (Num.ofNat (total c)))
                       (Num.ofNat 100))
  else Num.ofNat 0.

Definition coverageRow (locale : string) (c : Coverage) : string :=
  let pct := coveragePct c in
  let filled := Num.round (Num.div pct (Num.ofNat 5)) in
  let bar := Js.repeat FULL_BLOCK (Num.toCount filled)
             +++ Js.repeat LIGHT_SHADE (Num.toCount (Num.sub (Num.ofNat 20) filled)) in
  let color := if Num.eqb pct (Num.ofNat 100) then green
               else if Num.geb pct (Num.ofNat 80) then yellow else red in
  "  " +++ cyan (Js.padEnd locale 10) +++ " "
       +++ color (Js.padStart (Num.toString pct +++ "%") 5) +++ "   "
       +++ dim bar +++ " "
       +++ dim (Js.ofNat (translated c) +++ "/" +++ Js.ofNat (total c)).

Definition isType (t : IssueType) (i : Issue.t) : bool :=
  IssueType_eqb (Issue.type i) t.

Definition hasMessage (m : string) (i : Issue.t) : bool :=
  Js.eqb (Issue.message i) m.

Definition issueLine (i : Issue.t) : string :=
  Issue.locale i +++ "/" +++ Issue.namespace i +++ ".json : " +++ Issue.key i.

Definition report (coverage : StrMap.t Coverage) (all : list Issue.t) : M unit :=
  let errors := filter (isType Error) all in
  let warnings := filter (isType Warning) all in
  consoleLog (bold (NL +++ "  Translation Coverage" +++ NL)) ;;
  consoleLog ("  " +++ Js.padEnd "Locale" 10 +++ " " +++ Js.padEnd "Progress" 8
                   +++ " " +++ Js.padEnd "Bar" 22 +++ " " +++ "Keys") ;;
  consoleLog ("  " +++ Js.repeat "-" 10 +++ " " +++ Js.repeat "-" 8
                   +++ " " +++ Js.repeat "-" 22 +++ " " +++ Js.repeat "-" 12) ;;
  forEach coverage (fun row => consoleLog (coverageRow (fst row) (snd row))) ;;
  when (0 <? List.length errors)
    (consoleLog (bold (red (NL +++ "  " +++ Js.ofNat (List.length errors)
                               +++ " error(s):" +++ NL))) ;;
     forEach errors (fun issue =>
       consoleLog (red ("  x " +++ issueLine issue)) ;;
       consoleLog ("    " +++ Issue.message issue +++ NL))) ;;
  when (0 <? List.length warnings)
    (let missing := filter (hasMessage "Missing translation") warnings in
     let empty := filter (hasMessage "Empty value") warnings in
     consoleLog (bold (yellow (NL +++ "  " +++ Js.ofNat (List.length warnings)
                                  +++ " warning(s):" +++ NL))) ;;
     when (0 <? List.length missing)
       (consoleLog (yellow ("  " +++ Js.ofNat (List.length missing)
                                 +++ " missing translation(s)")) ;;
        forEach (firstn 10 missing) (fun w =>
          consoleLog (dim ("    " +++ issueLine w))) ;;
        when (10 <? List.length missing)
          (consoleLog (dim ("    ... and " +++ Js.ofNat (List.length missing - 10)
                                 +++ " more")))) ;;
     when (0 <? List.length empty)
       (consoleLog (yellow ("  " +++ Js.ofNat (List.length empty) +++ " empty value(s)")))) ;;
  when (List.length errors =? 0)
    (consoleLog (green (bold (NL +++ "  All checks passed." +++ NL)))).

(** *** [main] *)

(** Lines 155 to 303: everything before the report.  The result is the
    map [coverage]. *)
Definition validate : M (StrMap.t Coverage) :=
  sourceData <- foldM loadSource StrMap.empty NAMESPACES ;;
  let locales := discoverLocales fs in
  when (List.length locales =? 0)
    (consoleLog (yellow "No target locales found.") ;;
     processExit 0) ;;
  checkLocales sourceData locales.

Definition main : M unit :=
  coverage <- validate ;;
  all <- getIssues ;;
  report coverage all ;;
  processExit (if 0 <? List.length (filter (isType Error) all) then 1%Z else 0%Z).

End Script.


(** ** Inputs for examples *)

(** A parser that reads every message as plain text. *)
Definition literalParser : Parser := fun message _ => inr [Literal message].

(** A locales directory given by its catalogs and its directory names; a
    catalog that is not listed does not load. *)
Definition mkFs (files : list (string * string * json)) (dirs : list string)
    : FileSystem :=
  {| file := fun locale ns =>
       match find (fun e => String.eqb (fst (fst e)) locale
                            && String.eqb (snd (fst e)) ns) files with
       | Some e => Parsed (snd e)
       | None => Unreadable
       end;
     entries := map (fun d => {| name := d; isDirectory := true |}) dirs |}.

(** A source locale with two keys in [game], and a Korean locale whose
    [game] has one of them, blank; whose [site] is missing; and whose
    [pages] holds the JSON text [null]. *)
Definition sampleFs : FileSystem :=
  mkFs [ ("en-US", "game", JObject [("hero", JString "Hero"); ("title", JString "Title")]);
         ("en-US", "site", JObject [("nav", JString "Home")]);
         ("en-US", "pages", JObject []);
         ("en-US", "error", JObject []);
         ("en-US", "faq", JObject []);
         ("ko-KR", "game", JObject [("hero", JString "  ")]);
         ("ko-KR", "pages", JNull);
         ("ko-KR", "error", JObject []);
         ("ko-KR", "faq", JObject []) ]
       ["en-US"; "ko-KR"].

(** A directory in which the source locale has no catalog at all. *)
Definition noSourceFs : FileSystem := mkFs [] ["ko-KR"].




Definition distinctb (l : list string) : bool :=
  (fix go (l : list string) : bool :=
     match l with
     | [] => true
     | x :: rest => negb (existsb (String.eqb x) rest) && go rest
     end) l.
(** * Notions for the statements and the proofs *)

(** ** Results and logs *)

Definition logOf {A} (r : Result A) : Log :=
  match r with
  | Return _ log => log
  | Exited _ log => log
  end.

Definition exitCode {A} (r : Result A) : option Z :=
  match r with
  | Return _ _ => None
  | Exited code _ => Some code
  end.


Definition appendLog (a b : Log) : Log :=
  {| issues := issues a ++ issues b;
     stdout := stdout a ++ stdout b;
     stderr := stderr a ++ stderr b |}.

(** [Emits c a d]: from any log, [c] returns [a] and appends [d]. *)
Definition Emits {A} (c : M A) (a : A) (d : Log) : Prop :=
  forall log, c log = Return a (appendLog log d).

(** [Runs c Q R]: [c] does not exit, what it appends satisfies [Q] and what
    it returns satisfies [R]. *)
Definition Runs {A} (c : M A) (Q : Log -> Prop) (R : A -> Prop) : Prop :=
  exists a d, Emits c a d /\ Q d /\ R a.

(** Properties of what is appended that pass to sequences. *)
Record Closed (Q : Log -> Prop) : Prop := {
  closed_empty : Q emptyLog;
  closed_append : forall a b, Q a -> Q b -> Q (appendLog a b)
}.

(** Every issue appended satisfies [P]. *)
Definition AllIssues (P : Issue.t -> Prop) (d : Log) : Prop :=
  Forall P (issues d).

(** No issue is appended. *)
Definition Silent (d : Log) : Prop := issues d = [].

(** An issue about the key [k] of the namespace [ns] of the locale [l]. *)
Definition About (l ns k : string) (i : Issue.t) : Prop :=
  Issue.locale i = l /\ Issue.namespace i = ns /\ Issue.key i = k.

Definition aboutb (l ns k : string) (i : Issue.t) : bool :=
  String.eqb (Issue.locale i) l && String.eqb (Issue.namespace i) ns
  && String.eqb (Issue.key i) k.

(** An issue of the namespace [ns] of the locale [l], whatever its key. *)
Definition inCatalogb (l ns : string) (i : Issue.t) : bool :=
  String.eqb (Issue.locale i) l && String.eqb (Issue.namespace i) ns.

(** The loops of [flatten], named: over the items of an array from index
    [i], and over the fields of an object. *)
Definition flattenItems (prefix : string)
    : list json -> nat -> StrMap.t string -> StrMap.t string :=
  fix loop (items : list json) (i : nat) (result : StrMap.t string) :=
    match items with
    | [] => result
    | x :: rest =>
        let path := childPath prefix (Js.ofNat i) in
        loop rest (S i)
          match x with
          | JString s => StrMap.set path s result
          | JArray _ | JObject _ => StrMap.setAll (flatten x path) result
          | _ => result
          end
    end.

Definition flattenFields (prefix : string)
    : list (string * json) -> StrMap.t string -> StrMap.t string :=
  fix loop (fields : list (string * json)) (result : StrMap.t string) :=
    match fields with
    | [] => result
    | (key, value) :: rest =>
        let path := childPath prefix key in
        loop rest
          match value with
          | JString s => StrMap.set path s result
          | JArray _ | JObject _ => StrMap.setAll (flatten value path) result
          | _ => result
          end
    end.

(** The number of keys of [sourceKeys] that [targetKeys] has. *)
Definition present (sourceKeys targetKeys : StrMap.t string) : nat :=
  List.length (filter (fun kv => StrMap.has (fst kv) targetKeys) sourceKeys).

(** What the counters of a target locale come to: every source key counts
    in [total]; a key counts in [translated] when the catalog of its
    namespace loads and has the key. *)
Definition translatedIn (fs : FileSystem) (sourceData : StrMap.t (StrMap.t string))
    (locale ns : string) : nat :=
  if truthy (loadJSON fs locale ns) then
    present (sourceKeysOf sourceData ns) (flatten (loadJSON fs locale ns) "")
  else 0.

Definition countersOf (fs : FileSystem) (sourceData : StrMap.t (StrMap.t string))
    (locale : string) (nss : list string) : Coverage :=
  {| total := list_sum (map (fun ns => StrMap.size (sourceKeysOf sourceData ns)) nss);
     translated := list_sum (map (translatedIn fs sourceData locale) nss) |}.

(** The issue pushed for a catalog that does not load, and the annotation
    printed with it in CI. *)
Definition fileIssue (locale ns : string) : Issue.t :=
  Issue.make Error locale ns "*" "File missing or invalid JSON".

Definition fileAnnotation (locale ns : string) : string :=
  "::error file=" +++ catalogPath locale ns +++ "::File missing or invalid JSON".

Definition missingIssue (locale ns key : string) : Issue.t :=
  Issue.make Warning locale ns key "Missing translation".

(** Nothing is printed. *)
Definition Quiet (d : Log) : Prop := stdout d = [] /\ stderr d = [].

(** What the source phase may append: errors about the source locale, and
    nothing on the console. *)
Definition SourceOnly (d : Log) : Prop :=
  AllIssues (fun i => Issue.locale i = SOURCE_LOCALE /\ Issue.type i = Error) d
  /\ Quiet d.

(** Every catalog of the source locale loads. *)
Definition sourceLoads (fs : FileSystem) (nss : list string) : Prop :=
  forall ns, In ns nss -> truthy (loadJSON fs SOURCE_LOCALE ns) = true.

(** The text printed before the fatal exit. *)
Definition fatalText (ns : string) : string :=
  "FATAL: cannot load " +++ SOURCE_LOCALE +++ "/" +++ ns +++ ".json".

(** The exit code at the end of [main]. *)
Definition finalCode (all : list Issue.t) : Z :=
  if 0 <? List.length (filter (isType Error) all) then 1%Z else 0%Z.

(** After the source phase, [sourceData] holds the flattened source catalog
    of every namespace. *)
Definition holdsSource (fs : FileSystem)
    (sourceData : StrMap.t (StrMap.t string)) : Prop :=
  forall ns, In ns NAMESPACES ->
    sourceKeysOf sourceData ns = flatten (loadJSON fs SOURCE_LOCALE ns) "".

(** ** Comparing two runs *)

(** Two directories that the script cannot tell apart: the same entries, and
    catalogs that are both falsy or else equal. *)
Definition sameView (fs fs' : FileSystem) : Prop :=
  entries fs = entries fs'
  /\ forall l ns,
       truthy (loadJSON fs l ns) = truthy (loadJSON fs' l ns)
       /\ (truthy (loadJSON fs l ns) = true -> loadJSON fs l ns = loadJSON fs' l ns).

(** The directory [fs] with one catalog replaced. *)
Definition withFile (fs : FileSystem) (l ns : string) (content : FileContent)
    : FileSystem :=
  {| file := fun l' ns' =>
       if String.eqb l' l && String.eqb ns' ns then content else file fs l' ns';
     entries := entries fs |}.




(** ** Counters, as the code computes them and as the specification words
    them *)

(** The keys of a namespace that a target locale has: none when its catalog
    does not load, else the source keys found in its flattening, blank or
    not. *)
Definition translatedKeys (fs : FileSystem) (l ns : string) : nat :=
  if truthy (loadJSON fs l ns) then
    present (flatten (loadJSON fs SOURCE_LOCALE ns) "") (flatten (loadJSON fs l ns) "")
  else 0.

Definition sourceKeyCount (fs : FileSystem) (ns : string) : nat :=
  StrMap.size (flatten (loadJSON fs SOURCE_LOCALE ns) "").

(** In the words of the specification: the source keys whose target value
    is present and not empty once trimmed. *)
Definition nonBlankKeys (fs : FileSystem) (l ns : string) : nat :=
  if truthy (loadJSON fs l ns) then
    List.length
      (filter (fun kv =>
                 match StrMap.get (fst kv) (flatten (loadJSON fs l ns) "") with
                 | Some v => negb (Js.eqb (Js.trim v) "")
                 | None => false
                 end)
              (flatten (loadJSON fs SOURCE_LOCALE ns) ""))
  else 0.

Definition emptyIssue (locale ns key : string) : Issue.t :=
  Issue.make Warning locale ns key "Empty value".

(** ** Positions in a document *)

(** A step from a node to a child: an index of an array or a key of an
    object. *)
Inductive Step : Type :=
| Index (i : nat)
| Field (k : string).

(** The path segment that [flatten] writes for a step. *)
Definition segment (st : Step) : string :=
  match st with
  | Index i => Js.ofNat i
  | Field k => k
  end.

(** The key path [flatten] builds along a position, from [prefix]. *)
Definition pathFrom (prefix : string) (pos : list Step) : string :=
  fold_left (fun p st => childPath p (segment st)) pos prefix.

Definition pathOf (pos : list Step) : string := pathFrom "" pos.

Definition below (st : Step) (leaf : list Step * string) : list Step * string :=
  (st :: fst leaf, snd leaf).

(** The string leaves of a document, each with its position: the steps
    from the root. *)
Fixpoint leaves (obj : json) : list (list Step * string) :=
  match obj with
  | JString s => [([], s)]
  | JArray items =>
      (fix go (items : list json) (i : nat) : list (list Step * string) :=
         match items with
         | [] => []
         | x :: rest => map (below (Index i)) (leaves x) ++ go rest (S i)
         end) items 0
  | JObject fields =>
      (fix go (fields : list (string * json)) : list (list Step * string) :=
         match fields with
         | [] => []
         | (k, x) :: rest => map (below (Field k)) (leaves x) ++ go rest
         end) fields
  | _ => []
  end.

Definition leavesItems : list json -> nat -> list (list Step * string) :=
  fix go (items : list json) (i : nat) : list (list Step * string) :=
    match items with
    | [] => []
    | x :: rest => map (below (Index i)) (leaves x) ++ go rest (S i)
    end.

Definition leavesFields : list (string * json) -> list (list Step * string) :=
  fix go (fields : list (string * json)) : list (list Step * string) :=
    match fields with
    | [] => []
    | (k, x) :: rest => map (below (Field k)) (leaves x) ++ go rest
    end.

(** The entry [flatten] is to write for a leaf. *)
Definition entryOf (prefix : string) (leaf : list Step * string) : string * string :=
  (pathFrom prefix (fst leaf), snd leaf).

(** A JavaScript object has each key once. *)
Fixpoint wellFormed (obj : json) : Prop :=
  match obj with
  | JArray items =>
      (fix all (items : list json) : Prop :=
         match items with
         | [] => True
         | x :: rest => wellFormed x /\ all rest
         end) items
  | JObject fields =>
      NoDup (map fst fields)
      /\ (fix all (fields : list (string * json)) : Prop :=
            match fields with
            | [] => True
            | (_, x) :: rest => wellFormed x /\ all rest
            end) fields
  | _ => True
  end.

Fixpoint hasDot (s : string) : bool :=
  match s with
  | EmptyString => false
  | String c rest => Ascii.eqb c "." || hasDot rest
  end.

(** A key that is not empty and has no dot. *)
Definition plain (k : string) : Prop :=
  Js.truthy k = true /\ hasDot k = false.

(** Every key of every object of the document is plain. *)
Fixpoint plainKeys (obj : json) : Prop :=
  match obj with
  | JArray items =>
      (fix all (items : list json) : Prop :=
         match items with
         | [] => True
         | x :: rest => plainKeys x /\ all rest
         end) items
  | JObject fields =>
      (fix all (fields : list (string * json)) : Prop :=
         match fields with
         | [] => True
         | (k, x) :: rest => plain k /\ plainKeys x /\ all rest
         end) fields
  | _ => True
  end.

Definition isContainer (obj : json) : bool :=
  match obj with
  | JArray _ | JObject _ => true
  | _ => false
  end.

(** A key path at or below the child [seg] of the node at [prefix]. *)
Definition Under (prefix seg k : string) : Prop :=
  exists t, k = childPath prefix seg +++ t
            /\ (t = "" \/ exists r, t = "." +++ r).

(** What the loops of [flatten] are to add for a list of children, each
    given with its segment. *)
Definition entriesOf (prefix : string) (obj : json) : list (string * string) :=
  map (entryOf prefix) (leaves obj).

Fixpoint entriesFields (prefix : string) (fields : list (string * json))
    : list (string * string) :=
  match fields with
  | [] => []
  | (k, x) :: rest => entriesOf (childPath prefix k) x ++ entriesFields prefix rest
  end.

(** The items of an array from index [i], each with its segment. *)
Fixpoint indexed (i : nat) (items : list json) : list (string * json) :=
  match items with
  | [] => []
  | x :: rest => (Js.ofNat i, x) :: indexed (S i) rest
  end.

(** An array or object is flattened to the entries of its leaves. *)
Definition ChildOK (x : json) : Prop :=
  forall path, isContainer x = true -> flatten x path = entriesOf path x.

(** Documents for examples: one with plain keys, and one in which a key
    with a dot meets a nested key. *)
Definition plainDoc : json :=
  JObject [("a", JString "x");
           ("b", JObject [("c", JString "y"); ("n", JNumber (Num.ofNat 3))]);
           ("l", JArray [JString "p"; JNull; JArray [JString "q"]])].

Definition dottedDoc : json :=
  JObject [("a.b", JString "x"); ("a", JObject [("b", JString "y")])].

(** A document in which an object is stored under the empty key. *)
Definition emptyKeyDoc : json :=
  JObject [("", JObject [("a", JString "x")]); ("a", JString "y")].

(** ** Placeholders and tags *)

(** The identifier [collectPlaceholders] records for a tag. *)
Definition tagId (name : string) : string := "<" +++ name +++ ">".

(** No tag node at any depth. *)
Fixpoint tagFree (node : MessageFormatElement) : bool :=
  match node with
  | Tag _ _ => false
  | Select _ options | Plural _ options =>
      (fix eachOption (opts : list (string * list MessageFormatElement)) : bool :=
         match opts with
         | [] => true
         | (_, sub) :: rest =>
             (fix eachNode (nodes : list MessageFormatElement) : bool :=
                match nodes with
                | [] => true
                | n :: more => tagFree n && eachNode more
                end) sub
             && eachOption rest
         end) options
  | _ => true
  end.

(** The names of the argument, number, date, time, select and plural nodes
    of a tree, at any depth. *)
Fixpoint argNames (node : MessageFormatElement) : list string :=
  match node with
  | Argument value | Number value | Date value | Time value => [value]
  | Select value options | Plural value options =>
      value ::
      (fix eachOption (opts : list (string * list MessageFormatElement))
           : list string :=
         match opts with
         | [] => []
         | (_, sub) :: rest =>
             (fix eachNode (nodes : list MessageFormatElement) : list string :=
                match nodes with
                | [] => []
                | n :: more => argNames n ++ eachNode more
                end) sub
             ++ eachOption rest
         end) options
  | Tag _ children =>
      (fix eachNode (nodes : list MessageFormatElement) : list string :=
         match nodes with
         | [] => []
         | n :: more => argNames n ++ eachNode more
         end) children
  | Literal _ | Pound => []
  end.

(** What the documentation of the parser says of [ignoreTag]: with the
    option set, tags are read as literal text, so that no tag node is
    returned. *)
Definition IgnoresTags (parse : Parser) : Prop :=
  forall message nodes,
    parse message {| ignoreTag := true |} = inr nodes ->
    forallb tagFree nodes = true.

(** A parser for examples that knows one message with a tag, the one of the
    contribution guide, and reads every other message as plain text. *)
Definition brandMessage : string := "Meet the people who manage <brand/> esports data".

Definition brandParser : Parser :=
  fun message opts =>
    if String.eqb message brandMessage then
      if ignoreTag opts then inr [Literal brandMessage]
      else inr [Literal "Meet the people who manage "; Tag "brand" [];
                Literal " esports data"]
    else inr [Literal message].

(** A source locale whose [site] has the message with the tag, and a target
    locale that dropped the tag. *)
Definition brandFs : FileSystem :=
  mkFs [ ("en-US", "game", JObject []);
         ("en-US", "site", JObject [("subtitle", JString brandMessage)]);
         ("en-US", "pages", JObject []);
         ("en-US", "error", JObject []);
         ("en-US", "faq", JObject []);
         ("de-DE", "game", JObject []);
         ("de-DE", "site", JObject [("subtitle", JString "Das Team hinter den Daten")]);
         ("de-DE", "pages", JObject []);
         ("de-DE", "error", JObject []);
         ("de-DE", "faq", JObject []) ]
       ["de-DE"; "en-US"].

(** ** The percentage, checked on small counters *)

(** [pct] is an integer nearest to [100 * translated / total]. *)
Definition nearestOK (c : Coverage) : bool :=
  let p := Num.toZ (coveragePct c) in
  (Z.abs (2 * Z.of_nat (total c) * p - 200 * Z.of_nat (translated c))
   <=? Z.of_nat (total c))%Z.

Definition countersUpTo (n : nat) : list Coverage :=
  flat_map (fun t => map (fun r => {| total := t; translated := r |}) (seq 0 (S t)))
           (seq 1 n).

(** ** Further notions *)

(** The identifiers a syntax tree refers to: the names of its argument,
    number, date, time, select and plural nodes and the identifiers of its
    tags, at any depth. *)
Fixpoint placeholderNames (node : MessageFormatElement) : list string :=
  match node with
  | Argument value | Number value | Date value | Time value => [value]
  | Select value options | Plural value options =>
      value ::
      (fix eachOption (opts : list (string * list MessageFormatElement))
           : list string :=
         match opts with
         | [] => []
         | (_, sub) :: rest =>
             (fix eachNode (nodes : list MessageFormatElement) : list string :=
                match nodes with
                | [] => []
                | n :: more => placeholderNames n ++ eachNode more
                end) sub
             ++ eachOption rest
         end) options
  | Tag value children =>
      tagId value ::
      (fix eachNode (nodes : list MessageFormatElement) : list string :=
         match nodes with
         | [] => []
         | n :: more => placeholderNames n ++ eachNode more
         end) children
  | Literal _ | Pound => []
  end.

(** ** The issues of one key *)

Definition missingPlaceholderIssue (l ns k ph : string) : Issue.t :=
  Issue.make Error l ns k ("Missing placeholder: " +++ ph).

Definition unknownPlaceholderIssue (l ns k ph : string) : Issue.t :=
  Issue.make Error l ns k ("Unknown placeholder: " +++ ph).

Definition invalidIssue (l ns k err : string) : Issue.t :=
  Issue.make Error l ns k ("Invalid ICU: " +++ err).

Definition extraIssue (l ns k : string) : Issue.t :=
  Issue.make Error l ns k "Extra key not in source (en-US)".

(** The placeholders of the source that the target lacks, then those of the
    target that the source lacks. *)
Definition placeholderIssues (l ns k : string) (srcPH tgtPH : StrSet.t)
    : list Issue.t :=
  map (missingPlaceholderIssue l ns k)
      (filter (fun ph => negb (StrSet.has ph tgtPH)) srcPH)
  ++ map (unknownPlaceholderIssue l ns k)
         (filter (fun ph => negb (StrSet.has ph srcPH)) tgtPH).

(** The issues of a source key, by the case its target value falls in. *)
Definition keyIssues (parse : Parser) (l ns : string) (targetKeys : StrMap.t string)
    (entry : string * string) : list Issue.t :=
  let k := fst entry in
  match StrMap.get k targetKeys with
  | None => [missingIssue l ns k]
  | Some targetValue =>
      if Js.eqb (Js.trim targetValue) "" then [emptyIssue l ns k]
      else
        match validateICU parse targetValue with
        | Some icuErr =>
            if Js.truthy icuErr then [invalidIssue l ns k icuErr]
            else placeholderIssues l ns k (extractPlaceholders parse (snd entry))
                                   (extractPlaceholders parse targetValue)
        | None => placeholderIssues l ns k (extractPlaceholders parse (snd entry))
                                    (extractPlaceholders parse targetValue)
        end
  end.

Definition entryEqb (a b : string * string) : bool :=
  String.eqb (fst a) (fst b) && String.eqb (snd a) (snd b).

(** A parser for examples that knows the arguments of two messages. *)
Definition heroParser : Parser :=
  fun message _ =>
    if String.eqb message "{hero} wins" then inr [Argument "hero"; Literal " wins"]
    else if String.eqb message "{{hero}}" then inl "MALFORMED_ARGUMENT"
    else inr [Literal message].

(** A source with three keys; the target dropped the placeholder of the
    first, left the second blank, wrote the third with double braces, and
    added a key of its own. *)
Definition heroFs : FileSystem :=
  mkFs [ ("en-US", "game", JObject [("win", JString "{hero} wins");
                                    ("lose", JString "lost");
                                    ("pick", JString "{hero} wins")]);
         ("en-US", "site", JObject []);
         ("en-US", "pages", JObject []);
         ("en-US", "error", JObject []);
         ("en-US", "faq", JObject []);
         ("fr-FR", "game", JObject [("win", JString "victoire");
                                    ("lose", JString " ");
                                    ("pick", JString "{{hero}}");
                                    ("bonus", JString "extra")]);
         ("fr-FR", "site", JObject []);
         ("fr-FR", "pages", JObject []);
         ("fr-FR", "error", JObject []);
         ("fr-FR", "faq", JObject []) ]
       ["en-US"; "fr-FR"].

(** ** Annotations *)

(** The line [ghAnnotate] prints for an error of the catalog of an issue,
    whatever its text. *)
Definition annotates (line : string) (i : Issue.t) : Prop :=
  exists message,
    line = "::" +++ levelName Error +++ " file="
           +++ catalogPath (Issue.locale i) (Issue.namespace i)
           +++ "::" +++ message.

(** What the target phase appends: nothing on the error stream, and on the
    output stream one annotation for each error in CI, nothing otherwise. *)
Definition Annotated (isCI : bool) (d : Log) : Prop :=
  stderr d = []
  /\ if isCI then Forall2 annotates (stdout d) (filter (isType Error) (issues d))
     else stdout d = [].

Definition isTargetError (i : Issue.t) : bool :=
  isType Error i && negb (String.eqb (Issue.locale i) SOURCE_LOCALE).

(** ** The issue list of a run *)

Definition sourceIssue (ns k err : string) : Issue.t :=
  Issue.make Error SOURCE_LOCALE ns k ("Invalid ICU in source: " +++ err).

(** The issue of a source message: none unless the parser rejects it with a
    non-empty text. *)
Definition sourceIssuesOf (parse : Parser) (ns : string) (entry : string * string)
    : list Issue.t :=
  match validateICU parse (snd entry) with
  | Some err => if Js.truthy err then [sourceIssue ns (fst entry) err] else []
  | None => []
  end.

Definition sourceIssues (parse : Parser) (fs : FileSystem) : list Issue.t :=
  List.concat
    (map (fun ns => List.concat
                      (map (sourceIssuesOf parse ns)
                           (flatten (loadJSON fs SOURCE_LOCALE ns) "")))
         NAMESPACES).

Definition extraIssues (l ns : string) (sourceKeys targetKeys : StrMap.t string)
    : list Issue.t :=
  map (extraIssue l ns)
      (filter (fun k => negb (StrMap.has k sourceKeys)) (StrMap.keys targetKeys)).



(** A directory with the source locale only, one of whose messages the
    parser rejects. *)
Definition lonelyFs : FileSystem :=
  mkFs [ ("en-US", "game", JObject [("pick", JString "{{hero}}")]);
         ("en-US", "site", JObject []);
         ("en-US", "pages", JObject []);
         ("en-US", "error", JObject []);
         ("en-US", "faq", JObject []) ]
       ["en-US"].

(** A German locale whose [game] catalog holds a JSON string. *)
Definition scalarFs : FileSystem :=
  mkFs [ ("en-US", "game", JObject [("win", JString "won"); ("lose", JString "lost")]);
         ("en-US", "site", JObject []);
         ("en-US", "pages", JObject []);
         ("en-US", "error", JObject []);
         ("en-US", "faq", JObject []);
         ("de-DE", "game", JString "todo");
         ("de-DE", "site", JObject []);
         ("de-DE", "pages", JObject []);
         ("de-DE", "error", JObject []);
         ("de-DE", "faq", JObject []) ]
       ["en-US"; "de-DE"].

(** ** The report *)

(** The closing line of a report without errors. *)
Definition passedLine (isCI : bool) : string :=
  green isCI (bold isCI (NL +++ "  All checks passed." +++ NL)).

(** What is printed before the closing line: lines other than it.  [Ends t]
    adds the lines [t] at the end. *)
Definition NotPassed (isCI : bool) (d : Log) : Prop :=
  Forall (fun s => s <> passedLine isCI) (stdout d).

Definition Ends (isCI : bool) (t : list string) (d : Log) : Prop :=
  exists pre, stdout d = pre ++ t /\ Forall (fun s => s <> passedLine isCI) pre.


(** * The embedding at work *)

(** Numbers, booleans and [null] are dropped; arrays use their indices. *)
Example flatten_ignores_other_leaves :
  flatten (JObject [("a", JNumber (Num.ofNat 1)); ("b", JString "x")]) ""
  = [("b", "x")].
Proof. reflexivity. Qed.

Example flatten_plainDoc :
  flatten plainDoc "" = [("a", "x"); ("b.c", "y"); ("l.0", "p"); ("l.2.0", "q")].
Proof. reflexivity. Qed.

(** [trim] removes the white space of ECMAScript at both ends: here a tab,
    a no-break space (C2 A0) and an ideographic space (E3 80 80). *)
Example trim_spaces :
  Js.trim (String (Js.byte 9) (String (Js.byte 194) (String (Js.byte 160) " a b "))
           +++ String (Js.byte 227) (String (Js.byte 128) (String (Js.byte 128) "")))
  = "a b".
Proof. reflexivity. Qed.

Example trim_blank : Js.trim "  " = "".
Proof. reflexivity. Qed.

(** The controlling name of a plural is recorded once, with the names in
    its cases. *)
Example collect_plural :
  collectPlaceholders
    [Plural "count" [("one", [Pound; Literal " team by "; Argument "owner"]);
                     ("other", [Pound; Literal " teams by "; Argument "owner"])]]
    StrSet.empty
  = ["count"; "owner"].
Proof. reflexivity. Qed.

Example locales_sorted :
  discoverLocales
    {| file := fun _ _ => Unreadable;
       entries := [ {| name := "ko-KR"; isDirectory := true |};
                    {| name := "README.md"; isDirectory := false |};
                    {| name := "en-US"; isDirectory := true |};
                    {| name := "ja-JP"; isDirectory := true |} ] |}
  = ["ja-JP"; "ko-KR"].
Proof. reflexivity. Qed.

(** The report of a CI run on [sampleFs]. *)
Example sample_run :
  exitCode (main literalParser true sampleFs emptyLog) = Some 1%Z
  /\ map Issue.message (issues (logOf (main literalParser true sampleFs emptyLog)))
     = ["Empty value"; "Missing translation"; "File missing or invalid JSON";
        "File missing or invalid JSON"]
  /\ nth_error (stdout (logOf (main literalParser true sampleFs emptyLog))) 5
     = Some ("  ko-KR        33%   " +++ Js.repeat FULL_BLOCK 7
               +++ Js.repeat LIGHT_SHADE 13 +++ " 1/3").
Proof. repeat split; vm_compute; reflexivity. Qed.

(** * Reasoning about computations *)

Lemma appendLog_empty_r (a : Log) : appendLog a emptyLog = a.
Proof.
  destruct a; unfold appendLog; simpl; now rewrite !app_nil_r.
Qed.

Lemma appendLog_empty_l (a : Log) : appendLog emptyLog a = a.
Proof. now destruct a. Qed.

Lemma appendLog_assoc (a b c : Log) :
  appendLog a (appendLog b c) = appendLog (appendLog a b) c.
Proof.
  unfold appendLog; simpl; now rewrite !app_assoc.
Qed.

Lemma Emits_run {A} (c : M A) a d : Emits c a d -> c emptyLog = Return a d.
Proof.
  intros H; rewrite (H emptyLog); now rewrite appendLog_empty_l.
Qed.

Lemma Emits_ret {A} (a : A) : Emits (ret a) a emptyLog.
Proof. intros log; unfold ret; now rewrite appendLog_empty_r. Qed.

Lemma Emits_bind {A B} (c : M A) (f : A -> M B) a d b d' :
  Emits c a d -> Emits (f a) b d' -> Emits (bind c f) b (appendLog d d').
Proof.
  intros Hc Hf log; unfold bind; rewrite Hc, Hf; now rewrite appendLog_assoc.
Qed.

Lemma Emits_push i :
  Emits (push i) tt {| issues := [i]; stdout := []; stderr := [] |}.
Proof.
  intros log; unfold push, appendLog; simpl; now rewrite !app_nil_r.
Qed.

Lemma Emits_consoleLog s :
  Emits (consoleLog s) tt {| issues := []; stdout := [s]; stderr := [] |}.
Proof.
  intros log; unfold consoleLog, appendLog; simpl; now rewrite !app_nil_r.
Qed.

Lemma Runs_ret {A} (a : A) (Q : Log -> Prop) (R : A -> Prop) :
  Closed Q -> R a -> Runs (ret a) Q R.
Proof.
  intros HQ HR; exists a, emptyLog; split; [apply Emits_ret | split; auto].
  apply HQ.
Qed.

Lemma Runs_bind {A B} (c : M A) (f : A -> M B) Q (R1 : A -> Prop) (R2 : B -> Prop) :
  Closed Q -> Runs c Q R1 -> (forall a, R1 a -> Runs (f a) Q R2) ->
  Runs (bind c f) Q R2.
Proof.
  intros HQ (a & d & Hc & Hd & Ha) Hf.
  destruct (Hf a Ha) as (b & d' & Hfa & Hd' & Hb).
  exists b, (appendLog d d'); split; [now apply Emits_bind with a | split; auto].
  now apply HQ.
Qed.

Lemma Runs_weaken {A} (c : M A) (Q Q' : Log -> Prop) (R R' : A -> Prop) :
  Runs c Q R -> (forall d, Q d -> Q' d) -> (forall a, R a -> R' a) -> Runs c Q' R'.
Proof.
  intros (a & d & H & Hd & Ha) HQ HR; exists a, d; auto.
Qed.

Lemma Runs_push i (Q : Log -> Prop) :
  Q {| issues := [i]; stdout := []; stderr := [] |} -> Runs (push i) Q (fun _ => True).
Proof.
  intros H; exists tt; eexists; split; [apply Emits_push | auto].
Qed.

Lemma Runs_consoleLog s (Q : Log -> Prop) :
  Q {| issues := []; stdout := [s]; stderr := [] |} ->
  Runs (consoleLog s) Q (fun _ => True).
Proof.
  intros H; exists tt; eexists; split; [apply Emits_consoleLog | auto].
Qed.

Lemma Runs_when b (c : M unit) Q :
  Closed Q -> (b = true -> Runs c Q (fun _ => True)) ->
  Runs (when b c) Q (fun _ => True).
Proof.
  intros HQ Hc; destruct b; simpl; [now apply Hc | now apply Runs_ret].
Qed.

Lemma Runs_forEach {A} (xs : list A) (body : A -> M unit) Q :
  Closed Q -> (forall x, In x xs -> Runs (body x) Q (fun _ => True)) ->
  Runs (forEach xs body) Q (fun _ => True).
Proof.
  intros HQ; induction xs as [|x xs IH]; intros Hb; simpl.
  - now apply Runs_ret.
  - apply Runs_bind with (R1 := fun _ => True); auto.
    + apply Hb; now left.
    + intros _ _; apply IH; intros y Hy; apply Hb; now right.
Qed.

(** A loop with local variables keeps an invariant [I] of them. *)
Lemma Runs_foldM {A B} (body : B -> A -> M B) (xs : list A) Q (I : B -> Prop) :
  Closed Q ->
  (forall acc x, In x xs -> I acc -> Runs (body acc x) Q I) ->
  forall acc, I acc -> Runs (foldM body acc xs) Q I.
Proof.
  intros HQ; induction xs as [|x xs IH]; intros Hb acc Hacc; simpl.
  - now apply Runs_ret.
  - apply Runs_bind with (R1 := I); auto.
    + apply Hb; auto; now left.
    + intros acc' Hacc'; apply IH; auto.
      intros acc'' y Hy; apply Hb; now right.
Qed.



Lemma Emits_unique {A} (c : M A) a d a' d' :
  Emits c a d -> Emits c a' d' -> a = a' /\ d = d'.
Proof.
  intros H H'; apply Emits_run in H; apply Emits_run in H'.
  rewrite H in H'; now inversion H'.
Qed.

Lemma Closed_AllIssues P : Closed (AllIssues P).
Proof.
  split; [constructor |].
  intros a b Ha Hb; unfold AllIssues, appendLog; simpl.
  apply Forall_app; now split.
Qed.

Lemma Closed_Silent : Closed Silent.
Proof.
  split; [reflexivity |].
  unfold Silent, appendLog; simpl; intros a b -> ->; reflexivity.
Qed.

Lemma Silent_AllIssues P d : Silent d -> AllIssues P d.
Proof. unfold Silent, AllIssues; intros ->; constructor. Qed.

Create HintDb runs.

#[local] Hint Resolve Closed_AllIssues Closed_Silent : runs.

(** The issues selected by [p] among those a loop appends are those its
    turns append, in order. *)
Lemma Runs_foldM_filter {A B} (body : B -> A -> M B) (p : Issue.t -> bool)
    (f : A -> list Issue.t) (I : B -> Prop) (xs : list A) :
  (forall acc x, In x xs -> I acc ->
     Runs (body acc x) (fun d => filter p (issues d) = f x) I) ->
  forall acc, I acc ->
    Runs (foldM body acc xs) (fun d => filter p (issues d) = List.concat (map f xs)) I.
Proof.
  induction xs as [|x xs IH]; intros Hb acc Hacc; simpl.
  - exists acc, emptyLog; split; [apply Emits_ret | auto].
  - destruct (Hb acc x) as (a & d & Ha & Hd & HI); auto; [now left |].
    destruct (IH (fun acc y Hy => Hb acc y (or_intror Hy)) a HI)
      as (b & d' & Hb' & Hd' & HI').
    exists b, (appendLog d d'); split; [now apply Emits_bind with a |].
    split; auto; simpl; now rewrite filter_app, Hd, Hd'.
Qed.

Lemma concat_map_single {A B} (eqb : A -> A -> bool) (x0 : A) (L : list B)
    (xs : list A) :
  (forall x y, eqb x y = true <-> x = y) ->
  NoDup xs -> In x0 xs ->
  List.concat (map (fun x => if eqb x x0 then L else []) xs) = L.
Proof.
  intros Heq; induction xs as [|x xs IH]; intros Hnd Hin; [easy |].
  inversion Hnd as [|? ? Hx Hnd']; subst; simpl.
  destruct (eqb x x0) eqn:E.
  - apply Heq in E; subst x.
    assert (H0 : List.concat (map (fun x => if eqb x x0 then L else []) xs) = []).
    { clear IH Hin Hnd Hnd'. induction xs as [|y ys IHy]; simpl; auto.
      destruct (eqb y x0) eqn:E'.
      - apply Heq in E'; subst; exfalso; apply Hx; now left.
      - apply IHy; intros H; apply Hx; now right. }
    rewrite H0; apply app_nil_r.
  - destruct Hin as [->|Hin].
    + assert (eqb x0 x0 = true) by now apply Heq.
      congruence.
    + now apply IH.
Qed.

Lemma filter_none {A} (p : A -> bool) (l : list A) :
  Forall (fun x => p x = false) l -> filter p l = [].
Proof.
  induction 1 as [|x l Hx _ IH]; simpl; auto; now rewrite Hx.
Qed.

(** * Maps in insertion order *)

Lemma get_set_same {V} k (v : V) m : StrMap.get k (StrMap.set k v m) = Some v.
Proof.
  induction m as [|[k' v'] m IH]; simpl.
  - now rewrite String.eqb_refl.
  - destruct (String.eqb k k') eqn:E; simpl; rewrite E; auto.
Qed.

Lemma get_set_other {V} k k' (v : V) m :
  k <> k' -> StrMap.get k (StrMap.set k' v m) = StrMap.get k m.
Proof.
  intros Hne; induction m as [|[k'' v''] m IH]; simpl.
  - apply String.eqb_neq in Hne; now rewrite Hne.
  - destruct (String.eqb k' k'') eqn:E; simpl.
    + apply String.eqb_eq in E; subst k''.
      apply String.eqb_neq in Hne; now rewrite Hne.
    + now rewrite IH.
Qed.

Lemma get_none_iff {V} k (m : StrMap.t V) :
  StrMap.get k m = None <-> ~ In k (StrMap.keys m).
Proof.
  induction m as [|[k' v'] m IH]; simpl; [tauto |].
  destruct (String.eqb k k') eqn:E.
  - apply String.eqb_eq in E; subst; split; [discriminate | intros H; exfalso; auto].
  - apply String.eqb_neq in E; rewrite IH; split.
    + intros H [H'|H']; [congruence | auto].
    + intros H H'; apply H; now right.
Qed.

Lemma has_true_iff {V} k (m : StrMap.t V) :
  StrMap.has k m = true <-> In k (StrMap.keys m).
Proof.
  unfold StrMap.has; destruct (StrMap.get k m) eqn:E.
  - split; auto; intros _.
    destruct (in_dec string_dec k (StrMap.keys m)) as [H|H]; auto.
    apply get_none_iff in H; congruence.
  - apply get_none_iff in E; split; [discriminate | tauto].
Qed.

Lemma get_in {V} k (v : V) m : StrMap.get k m = Some v -> In (k, v) m.
Proof.
  induction m as [|[k' v'] m IH]; simpl; [discriminate |].
  destruct (String.eqb k k') eqn:E.
  - apply String.eqb_eq in E; subst; intros [= ->]; now left.
  - intros H; right; auto.
Qed.

Lemma in_get {V} k (v : V) m :
  NoDup (StrMap.keys m) -> In (k, v) m -> StrMap.get k m = Some v.
Proof.
  induction m as [|[k' v'] m IH]; simpl; [easy |].
  intros Hnd [H|H]; inversion Hnd as [|? ? Hk Hnd']; subst.
  - inversion H; subst; now rewrite String.eqb_refl.
  - destruct (String.eqb k k') eqn:E; auto.
    apply String.eqb_eq in E; subst k'.
    exfalso; apply Hk; change k with (fst (k, v)); now apply in_map.
Qed.

(** A new key goes last. *)
Lemma set_new {V} k (v : V) m :
  ~ In k (StrMap.keys m) -> StrMap.set k v m = m ++ [(k, v)].
Proof.
  induction m as [|[k' v'] m IH]; simpl; auto.
  intros H; destruct (String.eqb k k') eqn:E.
  - apply String.eqb_eq in E; subst; exfalso; auto.
  - rewrite IH; auto.
Qed.

Lemma keys_set {V} k (v : V) m :
  StrMap.keys (StrMap.set k v m)
  = if StrMap.has k m then StrMap.keys m else StrMap.keys m ++ [k].
Proof.
  unfold StrMap.has.
  induction m as [|[k' v'] m IH]; simpl; auto.
  destruct (String.eqb k k') eqn:E; simpl; auto.
  rewrite IH; now destruct (StrMap.get k m).
Qed.

(** The keys of a map stay distinct. *)
Lemma NoDup_keys_set {V} k (v : V) m :
  NoDup (StrMap.keys m) -> NoDup (StrMap.keys (StrMap.set k v m)).
Proof.
  intros H; rewrite keys_set.
  destruct (StrMap.has k m) eqn:E; auto.
  assert (Hk : ~ In k (StrMap.keys m)).
  { intros Hin; apply has_true_iff in Hin; congruence. }
  apply NoDup_app; repeat split; auto.
  - repeat constructor; simpl; tauto.
  - intros x Hx [<-|[]]; auto.
Qed.

Lemma NoDup_keys_setAll {V} (src dst : StrMap.t V) :
  NoDup (StrMap.keys dst) -> NoDup (StrMap.keys (StrMap.setAll src dst)).
Proof.
  unfold StrMap.setAll; revert dst.
  induction src as [|[k v] src IH]; simpl; auto.
  intros dst H; apply IH; now apply NoDup_keys_set.
Qed.

(** New keys, distinct from each other, are appended in order. *)
Lemma setAll_new {V} (src dst : StrMap.t V) :
  NoDup (StrMap.keys (dst ++ src)) -> StrMap.setAll src dst = dst ++ src.
Proof.
  unfold StrMap.setAll; revert dst.
  induction src as [|[k v] src IH]; simpl; intros dst H.
  - now rewrite app_nil_r.
  - unfold StrMap.keys in H; rewrite map_app in H; simpl in H.
    assert (Hk : ~ In k (StrMap.keys dst)).
    { apply NoDup_remove_2 in H; intros Hin; apply H, in_or_app; now left. }
    rewrite set_new by exact Hk.
    rewrite IH; [now rewrite <- app_assoc |].
    unfold StrMap.keys; rewrite !map_app; simpl.
    rewrite <- app_assoc; exact H.
Qed.

Lemma flatten_array items prefix :
  flatten (JArray items) prefix = flattenItems prefix items 0 StrMap.empty.
Proof. reflexivity. Qed.

Lemma flatten_object fields prefix :
  flatten (JObject fields) prefix = flattenFields prefix fields StrMap.empty.
Proof. reflexivity. Qed.

(** A flattened catalog has each key path once. *)
Lemma NoDup_keys_flatten obj prefix : NoDup (StrMap.keys (flatten obj prefix)).
Proof.
  assert (HA : forall items i result,
             NoDup (StrMap.keys result) ->
             NoDup (StrMap.keys (flattenItems prefix items i result))).
  { induction items as [|x items IH]; intros i result H; simpl; auto.
    apply IH; destruct x; auto using NoDup_keys_set, NoDup_keys_setAll. }
  assert (HO : forall fields result,
             NoDup (StrMap.keys result) ->
             NoDup (StrMap.keys (flattenFields prefix fields result))).
  { induction fields as [|[k x] fields IH]; intros result H; simpl; auto.
    apply IH; destruct x; auto using NoDup_keys_set, NoDup_keys_setAll. }
  destruct obj; try (simpl; constructor).
  - rewrite flatten_array; apply HA; constructor.
  - rewrite flatten_object; apply HO; constructor.
Qed.

(** * Facts about the functions of the script *)

Section ScriptFacts.

Variable parse : Parser.
Variable isCI : bool.
Variable fs : FileSystem.

Lemma ghAnnotate_runs level path message (P : Issue.t -> Prop) :
  Runs (ghAnnotate isCI level path message) (AllIssues P) (fun _ => True).
Proof.
  unfold ghAnnotate; apply Runs_when; auto with runs.
  intros _; apply Runs_consoleLog; constructor.
Qed.

Ltac runs :=
  repeat first
    [ apply ghAnnotate_runs
    | apply Runs_push; repeat constructor
    | apply Runs_ret; [auto with runs | ]
    | apply Runs_when; [auto with runs | intros ? ]
    | apply Runs_bind with (R1 := fun _ => True); [auto with runs | | intros _ _ ] ].

Lemma comparePlaceholders_runs l ns k srcPH tgtPH :
  Runs (comparePlaceholders isCI l ns k srcPH tgtPH)
       (AllIssues (fun i => About l ns k i /\ Issue.type i = Error))
       (fun _ => True).
Proof.
  unfold comparePlaceholders.
  apply Runs_bind with (R1 := fun _ => True); auto with runs.
  - apply Runs_forEach; auto with runs; intros ph _; runs.
  - intros _ _; apply Runs_forEach; auto with runs; intros ph _; runs.
Qed.

(** A turn of the key loop only appends issues about its key, and counts
    the key when the target has it. *)
Lemma checkKey_runs l ns targetKeys n k v :
  Runs (checkKey parse isCI l ns targetKeys n (k, v))
       (AllIssues (About l ns k))
       (fun n' => n' = n + (if StrMap.has k targetKeys then 1 else 0)).
Proof.
  unfold checkKey, StrMap.has; simpl.
  destruct (StrMap.get k targetKeys) as [tv|].
  - assert (Hc : Runs (comparePlaceholders isCI l ns k
                         (extractPlaceholders parse v)
                         (extractPlaceholders parse tv))
                      (AllIssues (About l ns k)) (fun _ => True)).
    { eapply Runs_weaken; [apply comparePlaceholders_runs | | auto].
      intros d Hd; unfold AllIssues in *.
      eapply Forall_impl; [|exact Hd]; now intros i [Hi _]. }
    destruct (Js.eqb (Js.trim tv) "").
    + apply Runs_bind with (R1 := fun _ => True); auto with runs.
      * apply Runs_push; repeat constructor.
      * intros _ _; apply Runs_ret; auto with runs; lia.
    + destruct (validateICU parse tv) as [e|].
      * destruct (Js.truthy e).
        -- apply Runs_bind with (R1 := fun _ => True); auto with runs.
           ++ apply Runs_push; repeat constructor.
           ++ intros _ _.
              apply Runs_bind with (R1 := fun _ => True); auto with runs.
              ** apply ghAnnotate_runs.
              ** intros _ _; apply Runs_ret; auto with runs; lia.
        -- apply Runs_bind with (R1 := fun _ => True); auto with runs.
           intros _ _; apply Runs_ret; auto with runs; lia.
      * apply Runs_bind with (R1 := fun _ => True); auto with runs.
        intros _ _; apply Runs_ret; auto with runs; lia.
  - apply Runs_bind with (R1 := fun _ => True); auto with runs.
    + apply Runs_push; repeat constructor.
    + intros _ _; apply Runs_ret; auto with runs; lia.
Qed.

(** A key the target lacks: one warning, nothing printed, the counter
    unchanged. *)
Lemma checkKey_missing l ns targetKeys n k v :
  StrMap.get k targetKeys = None ->
  Emits (checkKey parse isCI l ns targetKeys n (k, v)) n
        {| issues := [missingIssue l ns k]; stdout := []; stderr := [] |}.
Proof.
  intros H log; unfold checkKey; simpl; rewrite H.
  unfold bind; rewrite Emits_push; reflexivity.
Qed.

Lemma AllIssues_catalog l ns k d :
  AllIssues (About l ns k) d ->
  AllIssues (fun i => Issue.locale i = l /\ Issue.namespace i = ns) d.
Proof.
  unfold AllIssues; intros H; eapply Forall_impl; [|exact H].
  intros i (H1 & H2 & _); now split.
Qed.

(** The loop over the source keys counts those the target has. *)
Lemma keyLoop_runs l ns targetKeys sourceKeys :
  forall n,
    Runs (foldM (checkKey parse isCI l ns targetKeys) n sourceKeys)
         (AllIssues (fun i => Issue.locale i = l /\ Issue.namespace i = ns))
         (fun n' => n' = n + present sourceKeys targetKeys).
Proof.
  unfold present.
  induction sourceKeys as [|[k v] sk IH]; intros n; simpl.
  - apply Runs_ret; auto with runs.
  - eapply Runs_bind; auto with runs.
    + eapply Runs_weaken;
        [apply checkKey_runs | apply AllIssues_catalog | intros a Ha; exact Ha].
    + intros n' ->; eapply Runs_weaken; [apply IH | auto |].
      intros a ->; destruct (StrMap.has k targetKeys); simpl; lia.
Qed.

(** A catalog that does not load adds its file issue and the source keys
    of the namespace to [total], and nothing else. *)
Lemma checkNamespace_unloadable sourceData l c ns :
  truthy (loadJSON fs l ns) = false ->
  Emits (checkNamespace parse isCI fs sourceData l c ns)
        {| total := total c + StrMap.size (sourceKeysOf sourceData ns);
           translated := translated c |}
        {| issues := [fileIssue l ns];
           stdout := if isCI then [fileAnnotation l ns] else [];
           stderr := [] |}.
Proof.
  intros H log; unfold checkNamespace; rewrite H; simpl.
  unfold bind; rewrite Emits_push.
  unfold ghAnnotate, when; destruct isCI.
  - rewrite Emits_consoleLog; unfold ret, appendLog; simpl.
    rewrite !app_nil_r; reflexivity.
  - unfold ret, appendLog; simpl; rewrite !app_nil_r; reflexivity.
Qed.

Lemma checkNamespace_runs sourceData l c ns :
  Runs (checkNamespace parse isCI fs sourceData l c ns)
       (AllIssues (fun i => Issue.locale i = l /\ Issue.namespace i = ns))
       (fun c' =>
          total c' = total c + StrMap.size (sourceKeysOf sourceData ns)
          /\ translated c' = translated c + translatedIn fs sourceData l ns).
Proof.
  unfold translatedIn.
  destruct (truthy (loadJSON fs l ns)) eqn:E.
  - unfold checkNamespace; rewrite E; simpl.
    apply Runs_bind with (R1 := fun _ => True); auto with runs.
    + apply Runs_forEach; auto with runs; intros k _; runs.
    + intros _ _; eapply Runs_bind; auto with runs.
      * apply keyLoop_runs.
      * intros n ->; apply Runs_ret; auto with runs.
  - exists {| total := total c + StrMap.size (sourceKeysOf sourceData ns);
              translated := translated c |}; eexists.
    split; [now apply checkNamespace_unloadable |].
    split; [repeat constructor | simpl; lia].
Qed.

Lemma namespaceLoop_runs sourceData l nss :
  forall c,
    Runs (foldM (checkNamespace parse isCI fs sourceData l) c nss)
         (AllIssues (fun i => Issue.locale i = l))
         (fun c' =>
            total c' = total c + total (countersOf fs sourceData l nss)
            /\ translated c'
               = translated c + translated (countersOf fs sourceData l nss)).
Proof.
  induction nss as [|ns nss IH]; intros c; simpl.
  - apply Runs_ret; auto with runs.
  - eapply Runs_bind; auto with runs.
    + eapply Runs_weaken;
        [apply checkNamespace_runs | | intros a Ha; exact Ha].
      unfold AllIssues; intros d Hd; eapply Forall_impl; [|exact Hd].
      now intros i [Hi _].
    + intros c' [Ht Hr]; eapply Runs_weaken; [apply IH | auto |].
      simpl; intros a [Ha Hb]; lia.
Qed.

(** The counters of a locale. *)
Lemma checkLocale_runs sourceData l :
  Runs (checkLocale parse isCI fs sourceData l)
       (AllIssues (fun i => Issue.locale i = l))
       (fun c => c = countersOf fs sourceData l NAMESPACES).
Proof.
  unfold checkLocale.
  eapply Runs_weaken; [apply namespaceLoop_runs | auto |].
  intros [t r] [Ht Hr]; simpl in *.
  unfold countersOf; simpl; f_equal; assumption.
Qed.

Lemma checkLocales_runs sourceData locales :
  forall coverage,
    Runs (foldM (fun coverage locale =>
                   counters <- checkLocale parse isCI fs sourceData locale ;;
                   ret (StrMap.set locale counters coverage))
                coverage locales)
         (AllIssues (fun i => In (Issue.locale i) locales))
         (fun coverage' =>
            forall l,
              (In l locales ->
               StrMap.get l coverage'
               = Some (countersOf fs sourceData l NAMESPACES))
              /\ (~ In l locales ->
                  StrMap.get l coverage' = StrMap.get l coverage)).
Proof.
  induction locales as [|x locales IH]; intros coverage; simpl.
  - apply Runs_ret; auto with runs; intros l; split; tauto.
  - eapply Runs_bind with
      (R1 := fun cov => cov = StrMap.set x (countersOf fs sourceData x NAMESPACES)
                                         coverage);
      auto with runs.
    + eapply Runs_bind; auto with runs.
      * eapply Runs_weaken;
          [apply checkLocale_runs | | intros a Ha; exact Ha].
        unfold AllIssues; intros d Hd; eapply Forall_impl; [|exact Hd].
        intros i <-; now left.
      * intros c ->; apply Runs_ret; auto with runs.
    + intros cov ->; eapply Runs_weaken; [apply IH | |].
      * unfold AllIssues; intros d Hd; eapply Forall_impl; [|exact Hd].
        intros i Hi; now right.
      * intros cov' H l; destruct (H l) as [H1 H2]; split.
        -- intros [->|Hl].
           ++ destruct (in_dec string_dec l locales) as [Hin|Hin]; auto.
              rewrite H2; auto; apply get_set_same.
           ++ auto.
        -- intros Hn; rewrite H2 by tauto.
           apply get_set_other; intros ->; apply Hn; now left.
Qed.

End ScriptFacts.

Lemma Closed_Quiet : Closed Quiet.
Proof.
  split; [now split |].
  unfold Quiet, appendLog; simpl; intros a b [-> ->] [-> ->]; now split.
Qed.

Lemma Closed_and (Q1 Q2 : Log -> Prop) :
  Closed Q1 -> Closed Q2 -> Closed (fun d => Q1 d /\ Q2 d).
Proof.
  intros H1 H2; split; [split; [apply H1 | apply H2] |].
  intros a b [Ha1 Ha2] [Hb1 Hb2]; split; [now apply H1 | now apply H2].
Qed.

Lemma Closed_SourceOnly : Closed SourceOnly.
Proof. apply Closed_and; [apply Closed_AllIssues | apply Closed_Quiet]. Qed.

#[local] Hint Resolve Closed_Quiet Closed_SourceOnly : runs.

Lemma bind_exited {A B} (c : M A) (f : A -> M B) log code log' :
  c log = Exited code log' -> bind c f log = Exited code log'.
Proof. unfold bind; now intros ->. Qed.

Lemma bind_emits {A B} (c : M A) (f : A -> M B) a d log :
  Emits c a d -> bind c f log = f a (appendLog log d).
Proof. unfold bind; now intros ->. Qed.

Section MainFacts.

Variable parse : Parser.
Variable isCI : bool.
Variable fs : FileSystem.

(** *** The source phase *)

Lemma loadSource_ok sourceData ns :
  truthy (loadJSON fs SOURCE_LOCALE ns) = true ->
  Runs (loadSource parse isCI fs sourceData ns) SourceOnly
       (fun sd => sd = StrMap.set ns (flatten (loadJSON fs SOURCE_LOCALE ns) "")
                                  sourceData).
Proof.
  intros H; unfold loadSource; rewrite H; simpl.
  apply Runs_bind with (R1 := fun _ => True); auto with runs.
  - apply Runs_forEach; auto with runs; intros [k v] _; simpl.
    destruct (validateICU parse v) as [e|].
    + apply Runs_when; auto with runs; intros _.
      apply Runs_push; repeat constructor.
    + apply Runs_ret; auto with runs.
  - intros _ _; apply Runs_ret; auto with runs.
Qed.

Lemma loadSource_fatal sourceData ns log :
  truthy (loadJSON fs SOURCE_LOCALE ns) = false ->
  loadSource parse isCI fs sourceData ns log
  = Exited 1 (appendLog log {| issues := []; stdout := [];
                               stderr := [red isCI (fatalText ns)] |}).
Proof.
  intros H; unfold loadSource; rewrite H; simpl.
  unfold bind, consoleError, processExit, appendLog; simpl.
  now rewrite !app_nil_r.
Qed.

Lemma sourceLoop_ok nss :
  sourceLoads fs nss ->
  forall sourceData,
    Runs (foldM (loadSource parse isCI fs) sourceData nss) SourceOnly
         (fun sd =>
            forall ns,
              (In ns nss ->
               StrMap.get ns sd = Some (flatten (loadJSON fs SOURCE_LOCALE ns) ""))
              /\ (~ In ns nss -> StrMap.get ns sd = StrMap.get ns sourceData)).
Proof.
  induction nss as [|x nss IH]; intros Hok sourceData; simpl.
  - apply Runs_ret; auto with runs; intros ns; tauto.
  - eapply Runs_bind; auto with runs.
    + apply loadSource_ok; apply Hok; now left.
    + intros sd ->; eapply Runs_weaken;
        [apply IH; intros ns Hns; apply Hok; now right | auto |].
      intros sd' H ns; destruct (H ns) as [H1 H2]; split.
      * intros [->|Hin]; auto.
        destruct (in_dec string_dec ns nss) as [Hin|Hin]; auto.
        rewrite H2; auto; apply get_set_same.
      * intros Hn; rewrite H2 by tauto.
        apply get_set_other; intros ->; apply Hn; now left.
Qed.

(** The first catalog of the source locale that does not load ends the
    process with code 1; until then only the source locale was looked
    at. *)
Lemma sourceLoop_fatal nss :
  ~ sourceLoads fs nss ->
  forall sourceData log,
    exists d ns,
      foldM (loadSource parse isCI fs) sourceData nss log
      = Exited 1 (appendLog log d)
      /\ AllIssues (fun i => Issue.locale i = SOURCE_LOCALE
                             /\ Issue.type i = Error) d
      /\ stdout d = []
      /\ stderr d = [red isCI (fatalText ns)]
      /\ In ns nss /\ truthy (loadJSON fs SOURCE_LOCALE ns) = false.
Proof.
  induction nss as [|x nss IH]; intros Hbad sourceData log.
  - exfalso; apply Hbad; intros ns [].
  - simpl; destruct (truthy (loadJSON fs SOURCE_LOCALE x)) eqn:E.
    + destruct (loadSource_ok sourceData x E) as (sd & d & Hd & [HA [Ho He]] & _).
      assert (Hbad' : ~ sourceLoads fs nss).
      { intros H; apply Hbad; intros ns [<-|Hin]; auto. }
      destruct (IH Hbad' sd (appendLog log d))
        as (d' & ns & Hrun & HA' & Ho' & He' & Hin & Hns).
      exists (appendLog d d'), ns.
      rewrite bind_emits with (1 := Hd); rewrite Hrun, appendLog_assoc.
      split; [reflexivity |].
      split; [now apply Closed_AllIssues |].
      unfold appendLog; simpl; rewrite Ho, Ho', He, He'.
      repeat split; auto.
    + eexists; exists x.
      rewrite bind_exited with (1 := loadSource_fatal sourceData x log E).
      split; [reflexivity |].
      repeat split; simpl; auto; constructor.
Qed.

(** *** The report *)

Lemma report_runs coverage all :
  Runs (report isCI coverage all) (fun d => Silent d /\ stderr d = [])
       (fun _ => True).
Proof.
  assert (HC : Closed (fun d => Silent d /\ stderr d = [])).
  { split; [now split |].
    unfold Silent, appendLog; simpl; intros a b [-> ->] [-> ->]; now split. }
  assert (HL : forall s, Runs (consoleLog s) (fun d => Silent d /\ stderr d = [])
                              (fun _ => True)).
  { intros s; apply Runs_consoleLog; now split. }
  unfold report.
  repeat first
    [ apply HL
    | apply Runs_when; [exact HC | intros ?]
    | apply Runs_forEach; [exact HC | intros ? _]
    | apply Runs_bind with (R1 := fun _ => True); [exact HC | | intros _ _] ].
Qed.

(** *** The three ways [main] ends *)

Lemma validate_fatal code d :
  foldM (loadSource parse isCI fs) StrMap.empty NAMESPACES emptyLog
  = Exited code d ->
  validate parse isCI fs emptyLog = Exited code d.
Proof.
  intros Hrun; unfold validate; now rewrite bind_exited with (1 := Hrun).
Qed.

Lemma validate_no_targets sourceData d :
  Emits (foldM (loadSource parse isCI fs) StrMap.empty NAMESPACES) sourceData d ->
  discoverLocales fs = [] ->
  validate parse isCI fs emptyLog
  = Exited 0 (appendLog d {| issues := []; stderr := [];
                             stdout := [yellow isCI "No target locales found."] |}).
Proof.
  intros Hsrc Hnone; unfold validate.
  rewrite bind_emits with (1 := Hsrc); rewrite Hnone; simpl.
  unfold bind, consoleLog, processExit, appendLog; simpl.
  now rewrite !app_nil_r.
Qed.

Lemma validate_targets sourceData d coverage d' :
  Emits (foldM (loadSource parse isCI fs) StrMap.empty NAMESPACES) sourceData d ->
  discoverLocales fs <> [] ->
  Emits (checkLocales parse isCI fs sourceData (discoverLocales fs)) coverage d' ->
  validate parse isCI fs emptyLog = Return coverage (appendLog d d').
Proof.
  intros Hsrc Hsome Htgt; unfold validate.
  rewrite bind_emits with (1 := Hsrc); rewrite appendLog_empty_l.
  destruct (discoverLocales fs) as [|l ls] eqn:El; [congruence |].
  unfold when at 1; simpl List.length; simpl Nat.eqb.
  unfold bind at 1; unfold ret at 1.
  apply Htgt.
Qed.

Lemma main_exited code d :
  validate parse isCI fs emptyLog = Exited code d ->
  main parse isCI fs emptyLog = Exited code d.
Proof.
  intros Hrun; unfold main; now rewrite bind_exited with (1 := Hrun).
Qed.

Lemma main_reports coverage d :
  validate parse isCI fs emptyLog = Return coverage d ->
  exists d',
    main parse isCI fs emptyLog
    = Exited (finalCode (issues d)) (appendLog d d')
    /\ Silent d' /\ stderr d' = [].
Proof.
  intros Hval.
  destruct (report_runs coverage (issues d))
    as ([] & d' & Hrep & [Hsil Herr] & _).
  exists d'; split; [| now split].
  unfold main; unfold bind at 1; rewrite Hval.
  unfold bind at 1; unfold getIssues at 1.
  rewrite bind_emits with (1 := Hrep).
  reflexivity.
Qed.

End MainFacts.

(** * Selecting the issues of one catalog or one key *)

Lemma Runs_bind_filter {A B} (c : M A) (f : A -> M B) (p : Issue.t -> bool)
    (L1 L2 : list Issue.t) (R1 : A -> Prop) (R2 : B -> Prop) :
  Runs c (fun d => filter p (issues d) = L1) R1 ->
  (forall a, R1 a -> Runs (f a) (fun d => filter p (issues d) = L2) R2) ->
  Runs (bind c f) (fun d => filter p (issues d) = L1 ++ L2) R2.
Proof.
  intros (a & d & Hc & Hd & Ha) Hf.
  destruct (Hf a Ha) as (b & d' & Hfa & Hd' & Hb).
  exists b, (appendLog d d'); split; [now apply Emits_bind with a |].
  split; auto; simpl; now rewrite filter_app, Hd, Hd'.
Qed.

Lemma Runs_filter_none {A} (c : M A) (P : Issue.t -> Prop) (p : Issue.t -> bool)
    (R : A -> Prop) :
  Runs c (AllIssues P) R -> (forall i, P i -> p i = false) ->
  Runs c (fun d => filter p (issues d) = []) R.
Proof.
  intros H Hp; eapply Runs_weaken; [exact H | | auto].
  intros d Hd; apply filter_none.
  unfold AllIssues in Hd; eapply Forall_impl; [|exact Hd]; auto.
Qed.

Lemma Runs_select_none {A} (c : M A) (P : Issue.t -> Prop) (p : Issue.t -> bool)
    (R : A -> Prop) :
  Runs c (AllIssues P) R -> (forall i, P i -> p i = false) ->
  Runs c (fun d => filter p (issues d) = []) (fun _ => True).
Proof.
  intros H Hp; eapply Runs_weaken;
    [apply (Runs_filter_none c P p R H Hp) | auto | auto].
Qed.

Lemma aboutb_true l ns k i : aboutb l ns k i = true <-> About l ns k i.
Proof.
  unfold aboutb, About; rewrite !andb_true_iff, !String.eqb_eq; tauto.
Qed.

Lemma inCatalogb_true l ns i :
  inCatalogb l ns i = true
  <-> Issue.locale i = l /\ Issue.namespace i = ns.
Proof.
  unfold inCatalogb; rewrite andb_true_iff, !String.eqb_eq; tauto.
Qed.

Lemma aboutb_false l ns k i : ~ About l ns k i -> aboutb l ns k i = false.
Proof.
  intros H; destruct (aboutb l ns k i) eqn:E; auto.
  apply aboutb_true in E; tauto.
Qed.

Lemma inCatalogb_false l ns i :
  ~ (Issue.locale i = l /\ Issue.namespace i = ns) -> inCatalogb l ns i = false.
Proof.
  intros H; destruct (inCatalogb l ns i) eqn:E; auto.
  apply inCatalogb_true in E; tauto.
Qed.

Lemma NoDup_NAMESPACES : NoDup NAMESPACES.
Proof.
  unfold NAMESPACES; repeat constructor; simpl;
    intros H; repeat destruct H as [H|H]; try discriminate; auto.
Qed.

(** *** The locales found *)

Lemma NoDup_app_inv {A} (l1 l2 : list A) :
  NoDup (l1 ++ l2) ->
  NoDup l1 /\ NoDup l2 /\ (forall a, In a l1 -> ~ In a l2).
Proof.
  intros H; split; [now apply NoDup_app_remove_r in H |].
  split; [now apply NoDup_app_remove_l in H |].
  induction l1 as [|x l1 IH]; simpl in *; [tauto |].
  inversion H as [|? ? Hx Hnd]; subst.
  intros a [->|Ha] Hin; [apply Hx, in_or_app; now right | now apply (IH Hnd a)].
Qed.

Lemma insertSorted_in x y l : In x (insertSorted y l) <-> x = y \/ In x l.
Proof.
  induction l as [|z l IH]; simpl; [intuition |].
  destruct (String.ltb y z); simpl; rewrite ?IH; intuition.
Qed.

Lemma insertSorted_NoDup y l :
  ~ In y l -> NoDup l -> NoDup (insertSorted y l).
Proof.
  induction l as [|z l IH]; simpl; intros Hy Hnd.
  - repeat constructor; auto.
  - destruct (String.ltb y z).
    + constructor; auto.
    + inversion Hnd as [|? ? Hz Hnd']; subst.
      constructor; [rewrite insertSorted_in | apply IH; tauto].
      intros [->|H]; tauto.
Qed.

Lemma sort_in x l : In x (sort l) <-> In x l.
Proof.
  unfold sort.
  assert (H : forall acc, In x (fold_left (fun acc y => insertSorted y acc) l acc)
                          <-> In x l \/ In x acc).
  { induction l as [|y l IH]; intros acc; simpl; [tauto |].
    rewrite IH, insertSorted_in; intuition. }
  rewrite H; simpl; tauto.
Qed.

Lemma sort_NoDup l : NoDup l -> NoDup (sort l).
Proof.
  unfold sort.
  assert (H : forall acc, NoDup (l ++ acc) ->
                          NoDup (fold_left (fun acc y => insertSorted y acc) l acc)).
  { induction l as [|y l IH]; intros acc Hnd; simpl in *; auto.
    inversion Hnd as [|? ? Hy Hnd']; subst.
    apply IH.
    apply NoDup_app_inv in Hnd' as (Hl & Hacc & Hdis).
    apply NoDup_app; repeat split; auto.
    - apply insertSorted_NoDup; auto.
      intros H; apply Hy, in_or_app; now right.
    - intros z Hz Hin; apply insertSorted_in in Hin as [->|Hin].
      + apply Hy, in_or_app; now left.
      + now apply (Hdis z). }
  intros Hnd; apply H; now rewrite app_nil_r.
Qed.

Lemma discoverLocales_in fs l :
  In l (discoverLocales fs) ->
  l <> SOURCE_LOCALE
  /\ exists e, In e (entries fs) /\ name e = l /\ isDirectory e = true.
Proof.
  unfold discoverLocales; rewrite sort_in, in_map_iff.
  intros (e & <- & He); apply filter_In in He as [He Hc].
  apply andb_true_iff in Hc as [Hd Hn]; split; [| now exists e].
  apply negb_true_iff in Hn; unfold Js.eqb in Hn; now apply String.eqb_neq in Hn.
Qed.

(** [readdir] lists each name once, and so does [discoverLocales]. *)
Lemma discoverLocales_NoDup fs :
  NoDup (map name (entries fs)) -> NoDup (discoverLocales fs).
Proof.
  intros H; unfold discoverLocales; apply sort_NoDup.
  induction (entries fs) as [|e es IH]; simpl in *; [constructor |].
  inversion H as [|? ? He Hes]; subst.
  destruct (isDirectory e && negb (Js.eqb (name e) SOURCE_LOCALE)); simpl; auto.
  constructor; auto.
  intros Hin; apply He; apply in_map_iff in Hin as (e' & He' & Hf).
  apply filter_In in Hf as [Hf _]; rewrite <- He'; now apply in_map.
Qed.

Section Selection.

Variable parse : Parser.
Variable isCI : bool.
Variable fs : FileSystem.

Lemma source_phase :
  sourceLoads fs NAMESPACES ->
  exists sourceData d,
    Emits (foldM (loadSource parse isCI fs) StrMap.empty NAMESPACES) sourceData d
    /\ SourceOnly d /\ holdsSource fs sourceData.
Proof.
  intros Hok.
  destruct (sourceLoop_ok parse isCI fs NAMESPACES Hok StrMap.empty) as (sd & d & Hd & HS & Hsd).
  exists sd, d; repeat split; try apply HS; auto.
  intros ns Hns; unfold sourceKeysOf; destruct (Hsd ns) as [H _].
  now rewrite H.
Qed.

Lemma checkLocale_select sourceData x p (g : string -> list Issue.t) :
  (forall y c, In y NAMESPACES ->
     Runs (checkNamespace parse isCI fs sourceData x c y)
          (fun d => filter p (issues d) = g y) (fun _ => True)) ->
  Runs (checkLocale parse isCI fs sourceData x)
       (fun d => filter p (issues d) = List.concat (map g NAMESPACES))
       (fun _ => True).
Proof.
  intros H; unfold checkLocale.
  apply Runs_foldM_filter with (I := fun _ => True); auto.
Qed.

Lemma checkLocales_select sourceData locales p (f : string -> list Issue.t) :
  (forall x, In x locales ->
     Runs (checkLocale parse isCI fs sourceData x)
          (fun d => filter p (issues d) = f x) (fun _ => True)) ->
  Runs (checkLocales parse isCI fs sourceData locales)
       (fun d => filter p (issues d) = List.concat (map f locales))
       (fun _ => True).
Proof.
  intros H; unfold checkLocales.
  apply Runs_foldM_filter with (I := fun _ => True); auto.
  intros acc x Hx _.
  rewrite <- (app_nil_r (f x)).
  apply Runs_bind_filter with (R1 := fun _ => True); auto.
  intros c _; exists (StrMap.set x c acc), emptyLog.
  split; [apply Emits_ret | split; auto].
Qed.

(** The issues selected by [p] in a whole run, when [p] selects none of
    the source locale: those of the target locales, in order. *)
Lemma main_select (p : Issue.t -> bool) (f : string -> list Issue.t) :
  sourceLoads fs NAMESPACES ->
  discoverLocales fs <> [] ->
  (forall i, Issue.locale i = SOURCE_LOCALE -> p i = false) ->
  (forall sourceData x,
     holdsSource fs sourceData -> In x (discoverLocales fs) ->
     Runs (checkLocale parse isCI fs sourceData x)
          (fun d => filter p (issues d) = f x) (fun _ => True)) ->
  exists code log,
    main parse isCI fs emptyLog = Exited code log
    /\ filter p (issues log) = List.concat (map f (discoverLocales fs)).
Proof.
  intros Hok Hsome Hp Hf.
  destruct (source_phase Hok) as (sd & d & Hd & [HA _] & Hsd).
  destruct (checkLocales_select sd (discoverLocales fs) p f
              (fun x Hx => Hf sd x Hsd Hx)) as (cov & d' & Hd' & Hsel & _).
  destruct (main_reports parse isCI fs cov (appendLog d d')
              (validate_targets parse isCI fs sd d cov d' Hd Hsome Hd'))
    as (d'' & Hmain & Hsil & _).
  eexists; eexists; split; [exact Hmain |].
  simpl; rewrite Hsil, app_nil_r, filter_app, Hsel.
  rewrite filter_none; auto.
  unfold AllIssues in HA; eapply Forall_impl; [|exact HA].
  intros i [Hi _]; auto.
Qed.

(** With the source locale loaded and a target locale found, the run
    reaches the report; [total] counts every source key of every
    namespace for each locale. *)
Lemma validate_when_targets :
  sourceLoads fs NAMESPACES -> discoverLocales fs <> [] ->
  exists coverage log,
    validate parse isCI fs emptyLog = Return coverage log
    /\ forall l, In l (discoverLocales fs) ->
         exists c, StrMap.get l coverage = Some c
                   /\ total c
                      = list_sum (map (fun ns => StrMap.size
                                         (flatten (loadJSON fs SOURCE_LOCALE ns) ""))
                                      NAMESPACES).
Proof.
  intros Hok Hsome.
  destruct (source_phase Hok) as (sd & d & Hd & _ & Hsd).
  destruct (checkLocales_runs parse isCI fs sd (discoverLocales fs) StrMap.empty)
    as (cov & d' & Hd' & _ & Hcov).
  exists cov, (appendLog d d'); split.
  - now apply validate_targets with sd.
  - intros l Hl; destruct (Hcov l) as [H _].
    eexists; split; [apply H; exact Hl |].
    change (total (countersOf fs sd l NAMESPACES))
      with (list_sum (map (fun ns => StrMap.size (sourceKeysOf sd ns)) NAMESPACES)).
    f_equal; apply map_ext_in; intros ns Hns; now rewrite (Hsd ns Hns).
Qed.

End Selection.

(** * Target catalogs *)

Lemma distinctb_NoDup l : distinctb l = true -> NoDup l.
Proof.
  induction l as [|x l IH]; simpl; [constructor |].
  intros H; apply andb_true_iff in H as [Hx Hl].
  constructor; auto.
  intros Hin; apply negb_true_iff in Hx.
  assert (existsb (String.eqb x) l = true); [| congruence].
  apply existsb_exists; exists x; split; auto; apply String.eqb_refl.
Qed.

Lemma sampleFs_sourceLoads : sourceLoads sampleFs NAMESPACES.
Proof.
  intros ns H; simpl in H.
  repeat (destruct H as [<-|H]; [reflexivity |]); destruct H.
Qed.

Section TargetCatalogs.

Variable parse : Parser.
Variable isCI : bool.
Variable fs : FileSystem.

(** The issues of one catalog that [p] selects in a whole run are those
    its turn of the namespace loop appends. *)
Lemma main_catalog_issues (p : Issue.t -> bool) l ns (L : list Issue.t) :
  (forall i, p i = true -> Issue.locale i = l /\ Issue.namespace i = ns) ->
  sourceLoads fs NAMESPACES ->
  NoDup (map name (entries fs)) ->
  In l (discoverLocales fs) -> In ns NAMESPACES ->
  (forall sourceData c,
     holdsSource fs sourceData ->
     Runs (checkNamespace parse isCI fs sourceData l c ns)
          (fun d => filter p (issues d) = L) (fun _ => True)) ->
  exists code log,
    main parse isCI fs emptyLog = Exited code log
    /\ filter p (issues log) = L.
Proof.
  intros Hp Hok Hnd Hl Hns HL.
  assert (Hp' : forall i, ~ (Issue.locale i = l /\ Issue.namespace i = ns) ->
                          p i = false).
  { intros i Hi; destruct (p i) eqn:E; auto; apply Hp in E; tauto. }
  destruct (discoverLocales_in fs l Hl) as [Hsrc _].
  destruct (main_select parse isCI fs p
              (fun x => if String.eqb x l then L else []))
    as (code & log & Hmain & Hsel); auto.
  - intros H; rewrite H in Hl; destruct Hl.
  - intros i Hi; apply Hp'; intros [H _]; congruence.
  - intros sd x Hsd Hx; cbv beta.
    destruct (String.eqb x l) eqn:E.
    + apply String.eqb_eq in E; subst x.
      rewrite <- (concat_map_single String.eqb ns L NAMESPACES
                    String.eqb_eq NoDup_NAMESPACES Hns).
      apply checkLocale_select; intros y c Hy; cbv beta.
      destruct (String.eqb y ns) eqn:E'.
      * apply String.eqb_eq in E'; subst y; auto.
      * apply String.eqb_neq in E'.
        eapply Runs_select_none; [apply checkNamespace_runs |].
        intros i [_ Hi]; apply Hp'; intros [_ H]; congruence.
    + apply String.eqb_neq in E.
      eapply Runs_select_none; [apply checkLocale_runs |].
      intros i Hi; apply Hp'; intros [H _]; congruence.
  - exists code, log; split; auto.
    rewrite Hsel.
    apply (concat_map_single String.eqb l L (discoverLocales fs)
             String.eqb_eq (discoverLocales_NoDup fs Hnd) Hl).
Qed.

Lemma main_unloadable_catalog l ns :
  truthy (loadJSON fs l ns) = false ->
  sourceLoads fs NAMESPACES ->
  NoDup (map name (entries fs)) ->
  In l (discoverLocales fs) -> In ns NAMESPACES ->
  exists code log,
    main parse isCI fs emptyLog = Exited code log
    /\ filter (inCatalogb l ns) (issues log) = [fileIssue l ns].
Proof.
  intros Hbad Hok Hnd Hl Hns.
  apply main_catalog_issues with (l := l) (ns := ns); auto;
    [apply inCatalogb_true |].
  intros sd c _.
  eexists; eexists; split;
    [apply checkNamespace_unloadable; exact Hbad | split; auto].
  simpl; unfold inCatalogb; simpl; now rewrite !String.eqb_refl.
Qed.

(** In a catalog that loads, a source key the target lacks gets its
    warning and no other issue. *)
Lemma checkNamespace_missing_key sourceData l c ns k :
  truthy (loadJSON fs l ns) = true ->
  In k (StrMap.keys (sourceKeysOf sourceData ns)) ->
  NoDup (StrMap.keys (sourceKeysOf sourceData ns)) ->
  StrMap.get k (flatten (loadJSON fs l ns) "") = None ->
  Runs (checkNamespace parse isCI fs sourceData l c ns)
       (fun d => filter (aboutb l ns k) (issues d) = [missingIssue l ns k])
       (fun _ => True).
Proof.
  intros Hload Hin Hnd Hmiss.
  unfold checkNamespace; rewrite Hload; simpl negb; cbv iota.
  cbv zeta.
  change [missingIssue l ns k] with ([] ++ [missingIssue l ns k]).
  apply Runs_bind_filter with (R1 := fun _ => True).
  - (* the extra keys are not source keys *)
    eapply Runs_select_none
      with (P := fun i => ~ In (Issue.key i) (StrMap.keys (sourceKeysOf sourceData ns))).
    + apply Runs_forEach; auto with runs; intros x _.
      apply Runs_when; auto with runs; intros Hx.
      apply negb_true_iff in Hx.
      apply Runs_bind with (R1 := fun _ => True); auto with runs.
      * apply Runs_push; repeat constructor; simpl.
        intros H; apply has_true_iff in H; congruence.
      * intros _ _; apply ghAnnotate_runs.
    + intros i Hi; apply aboutb_false; intros (_ & _ & Hk); congruence.
  - intros _ _.
    rewrite <- (app_nil_r [missingIssue l ns k]).
    apply Runs_bind_filter with (R1 := fun _ => True).
    + rewrite <- (concat_map_single String.eqb k [missingIssue l ns k]
                    (StrMap.keys (sourceKeysOf sourceData ns))
                    String.eqb_eq Hnd Hin).
      unfold StrMap.keys; rewrite map_map.
      apply Runs_foldM_filter with (I := fun _ => True); auto.
      intros n [k' v'] _ _; simpl.
      destruct (String.eqb k' k) eqn:E.
      * apply String.eqb_eq in E; subst k'.
        exists n; eexists; split; [now apply checkKey_missing |].
        split; auto; simpl.
        unfold aboutb; simpl; now rewrite !String.eqb_refl.
      * apply String.eqb_neq in E.
        eapply Runs_select_none; [apply checkKey_runs |].
        intros i (_ & _ & Hi); apply aboutb_false; intros (_ & _ & H).
        congruence.
    + intros n _; eexists; exists emptyLog; split; [apply Emits_ret | auto].
Qed.

End TargetCatalogs.

(** C6. For a target locale and a namespace whose catalog cannot be loaded (the
    file is missing or is not JSON): the turn of the namespace loop pushes
    exactly the file-level error, prints at most its annotation, adds every
    source key of the namespace to [total] and leaves [translated] as it
    was.  In a whole run the issues of that locale and namespace are that
    one issue, whose key is the sentinel [*], and the [total] of the locale
    counts the source keys of every namespace, this one included. *)
Theorem unloadable_catalog_one_file_issue
    (parse : Parser) (isCI : bool) (fs : FileSystem) (l ns : string) :
  file fs l ns = Unreadable ->
  (forall sourceData c,
     Emits (checkNamespace parse isCI fs sourceData l c ns)
           {| total := total c + StrMap.size (sourceKeysOf sourceData ns);
              translated := translated c |}
           {| issues := [fileIssue l ns];
              stdout := if isCI then [fileAnnotation l ns] else [];
              stderr := [] |})
  /\ (sourceLoads fs NAMESPACES ->
      NoDup (map name (entries fs)) ->
      In l (discoverLocales fs) -> In ns NAMESPACES ->
      (exists code log,
         main parse isCI fs emptyLog = Exited code log
         /\ filter (inCatalogb l ns) (issues log) = [fileIssue l ns]
         /\ Issue.key (fileIssue l ns) = "*"
         /\ Issue.type (fileIssue l ns) = Error)
      /\ (exists coverage log c,
            validate parse isCI fs emptyLog = Return coverage log
            /\ StrMap.get l coverage = Some c
            /\ total c
               = list_sum (map (fun ns' => StrMap.size
                                  (flatten (loadJSON fs SOURCE_LOCALE ns') ""))
                               NAMESPACES))).
Proof.
  intros Hfile.
  assert (Hbad : truthy (loadJSON fs l ns) = false).
  { unfold loadJSON; now rewrite Hfile. }
  split.
  - intros sd c; now apply checkNamespace_unloadable.
  - intros Hok Hnd Hl Hns; split.
    + destruct (main_unloadable_catalog parse isCI fs l ns Hbad Hok Hnd Hl Hns)
        as (code & log & Hmain & Hsel).
      exists code, log; auto.
    + assert (Hsome : discoverLocales fs <> []).
      { intros H; rewrite H in Hl; destruct Hl. }
      destruct (validate_when_targets parse isCI fs Hok Hsome)
        as (cov & log & Hval & Hcov).
      destruct (Hcov l Hl) as (c & Hget & Htotal).
      exists cov, log, c; auto.
Qed.

Lemma unloadable_catalog_one_file_issue_witness :
  file sampleFs "ko-KR" "site" = Unreadable
  /\ (exists code log,
        main literalParser true sampleFs emptyLog = Exited code log
        /\ filter (inCatalogb "ko-KR" "site") (issues log)
           = [fileIssue "ko-KR" "site"]
        /\ Issue.key (fileIssue "ko-KR" "site") = "*"
        /\ Issue.type (fileIssue "ko-KR" "site") = Error)
  /\ (exists coverage log c,
        validate literalParser true sampleFs emptyLog = Return coverage log
        /\ StrMap.get "ko-KR" coverage = Some c
        /\ total c
           = list_sum (map (fun ns' => StrMap.size
                              (flatten (loadJSON sampleFs SOURCE_LOCALE ns') ""))
                           NAMESPACES)).
Proof.
  split; [reflexivity |].
  apply (unloadable_catalog_one_file_issue literalParser true sampleFs
           "ko-KR" "site" eq_refl).
  - exact sampleFs_sourceLoads.
  - apply distinctb_NoDup; reflexivity.
  - vm_compute; auto.
  - vm_compute; auto.
Defined.

(** C7. A source key that the flattened target catalog lacks: its turn of the
    key loop pushes exactly the warning [Missing translation], prints
    nothing, returns [translated] unchanged and does not depend on the
    parser; and in a whole run that warning is the only issue about the
    key in that locale and namespace. *)
Theorem missing_key_one_warning
    (parse : Parser) (isCI : bool) (fs : FileSystem) (l ns k : string) :
  StrMap.get k (flatten (loadJSON fs l ns) "") = None ->
  (forall translated sourceValue,
     Emits (checkKey parse isCI l ns (flatten (loadJSON fs l ns) "") translated
                     (k, sourceValue))
           translated
           {| issues := [missingIssue l ns k]; stdout := []; stderr := [] |})
  /\ (truthy (loadJSON fs l ns) = true ->
      sourceLoads fs NAMESPACES ->
      NoDup (map name (entries fs)) ->
      In l (discoverLocales fs) -> In ns NAMESPACES ->
      In k (StrMap.keys (flatten (loadJSON fs SOURCE_LOCALE ns) "")) ->
      exists code log,
        main parse isCI fs emptyLog = Exited code log
        /\ filter (aboutb l ns k) (issues log) = [missingIssue l ns k]
        /\ Issue.type (missingIssue l ns k) = Warning
        /\ Issue.message (missingIssue l ns k) = "Missing translation").
Proof.
  intros Hmiss; split.
  - intros n v; now apply checkKey_missing.
  - intros Hload Hok Hnd Hl Hns Hk.
    destruct (main_catalog_issues parse isCI fs (aboutb l ns k) l ns
                [missingIssue l ns k]) as (code & log & Hmain & Hsel); auto.
    + intros i Hi; apply aboutb_true in Hi as (H1 & H2 & _); now split.
    + intros sd c Hsd.
      apply checkNamespace_missing_key; auto; rewrite (Hsd ns Hns); auto.
      apply NoDup_keys_flatten.
    + exists code, log; auto.
Qed.

Lemma missing_key_one_warning_witness :
  StrMap.get "title" (flatten (loadJSON sampleFs "ko-KR" "game") "") = None
  /\ exists code log,
       main literalParser false sampleFs emptyLog = Exited code log
       /\ filter (aboutb "ko-KR" "game" "title") (issues log)
          = [missingIssue "ko-KR" "game" "title"]
       /\ Issue.type (missingIssue "ko-KR" "game" "title") = Warning
       /\ Issue.message (missingIssue "ko-KR" "game" "title")
          = "Missing translation".
Proof.
  split; [reflexivity |].
  apply (missing_key_one_warning literalParser false sampleFs
           "ko-KR" "game" "title" eq_refl).
  - reflexivity.
  - exact sampleFs_sourceLoads.
  - apply distinctb_NoDup; reflexivity.
  - vm_compute; auto.
  - vm_compute; auto.
  - vm_compute; auto.
Defined.

(** * Two runs compared *)

Lemma bind_ext {A B} (c c' : M A) (f f' : A -> M B) :
  (forall log, c log = c' log) -> (forall a log, f a log = f' a log) ->
  forall log, bind c f log = bind c' f' log.
Proof.
  intros Hc Hf log; unfold bind; rewrite Hc.
  destruct (c' log); auto.
Qed.

Lemma foldM_ext {A B} (f g : B -> A -> M B) :
  (forall acc x log, f acc x log = g acc x log) ->
  forall xs acc log, foldM f acc xs log = foldM g acc xs log.
Proof.
  intros H; induction xs as [|x xs IH]; intros acc log; simpl; auto.
  apply bind_ext; auto.
Qed.

Lemma checkNamespace_ext parse isCI fs fs' :
  sameView fs fs' ->
  forall sourceData l c ns log,
    checkNamespace parse isCI fs sourceData l c ns log
    = checkNamespace parse isCI fs' sourceData l c ns log.
Proof.
  intros [_ H] sd l c ns log; destruct (H l ns) as [Ht Hv].
  unfold checkNamespace; rewrite <- Ht.
  destruct (truthy (loadJSON fs l ns)); simpl; auto.
  now rewrite <- Hv.
Qed.

Lemma loadSource_ext parse isCI fs fs' :
  (forall ns,
     truthy (loadJSON fs SOURCE_LOCALE ns) = truthy (loadJSON fs' SOURCE_LOCALE ns)
     /\ (truthy (loadJSON fs SOURCE_LOCALE ns) = true ->
         loadJSON fs SOURCE_LOCALE ns = loadJSON fs' SOURCE_LOCALE ns)) ->
  forall sourceData ns log,
    loadSource parse isCI fs sourceData ns log
    = loadSource parse isCI fs' sourceData ns log.
Proof.
  intros H sd ns log; destruct (H ns) as [Ht Hv].
  unfold loadSource; rewrite <- Ht.
  destruct (truthy (loadJSON fs SOURCE_LOCALE ns)); simpl; auto.
  now rewrite <- Hv.
Qed.

Lemma validate_ext parse isCI fs fs' :
  sameView fs fs' ->
  forall log, validate parse isCI fs log = validate parse isCI fs' log.
Proof.
  intros Hv log; unfold validate.
  assert (Hd : discoverLocales fs = discoverLocales fs').
  { unfold discoverLocales; now rewrite (proj1 Hv). }
  rewrite Hd.
  apply bind_ext.
  - intros log'; apply foldM_ext; intros acc x log''.
    apply loadSource_ext; intros ns; apply (proj2 Hv).
  - intros sd log'; apply bind_ext; auto.
    intros _ log''; unfold checkLocales.
    apply foldM_ext; intros acc x log3.
    apply bind_ext; auto.
    intros log4; unfold checkLocale.
    apply foldM_ext; intros c ns log5.
    now apply checkNamespace_ext.
Qed.

Lemma main_ext parse isCI fs fs' :
  sameView fs fs' ->
  forall log, main parse isCI fs log = main parse isCI fs' log.
Proof.
  intros Hv log; unfold main.
  apply bind_ext; auto.
  intros log'; now apply validate_ext.
Qed.

(** A catalog whose value is falsy may be taken away. *)
Lemma sameView_withFile fs l ns :
  truthy (loadJSON fs l ns) = false ->
  sameView fs (withFile fs l ns Unreadable).
Proof.
  intros H; split; [reflexivity |].
  intros l' ns'.
  assert (E' : loadJSON (withFile fs l ns Unreadable) l' ns'
               = if String.eqb l' l && String.eqb ns' ns then JNull
                 else loadJSON fs l' ns').
  { unfold loadJSON, withFile; simpl.
    now destruct (String.eqb l' l && String.eqb ns' ns). }
  rewrite E'.
  destruct (String.eqb l' l && String.eqb ns' ns) eqn:E.
  - apply andb_true_iff in E as [E1 E2].
    apply String.eqb_eq in E1, E2; subst; rewrite H; split; auto; discriminate.
  - split; reflexivity.
Qed.

(** *** Runs that differ in the CI signal *)














Section CiSignal.

Variable parse : Parser.
Variable fs : FileSystem.
Variables ci1 ci2 : bool.








End CiSignal.

(** * The outcome of a run *)


Lemma finalCode_error all :
  finalCode all = 1%Z <-> exists i, In i all /\ Issue.type i = Error.
Proof.
  unfold finalCode.
  induction all as [|i all IH]; simpl.
  - split; [discriminate | intros (i & [] & _)].
  - unfold isType at 1 3; destruct (Issue.type i) eqn:E; simpl.
    + split; auto; intros _; exists i; auto.
    + rewrite IH; split; intros (j & Hj & Hjt); exists j; split; auto.
      destruct Hj as [<-|Hj]; auto; congruence.
Qed.



Lemma sourceLoads_dec fs nss : {sourceLoads fs nss} + {~ sourceLoads fs nss}.
Proof.
  induction nss as [|ns nss IH].
  - left; intros ns [].
  - destruct (truthy (loadJSON fs SOURCE_LOCALE ns)) eqn:E.
    + destruct IH as [IH|IH].
      * left; intros x [<-|Hx]; auto.
      * right; intros H; apply IH; intros x Hx; apply H; now right.
    + right; intros H; rewrite (H ns) in E; [discriminate | now left].
Qed.

Lemma countersOf_holdsSource fs sourceData l :
  holdsSource fs sourceData ->
  countersOf fs sourceData l NAMESPACES
  = {| total := list_sum (map (sourceKeyCount fs) NAMESPACES);
       translated := list_sum (map (translatedKeys fs l) NAMESPACES) |}.
Proof.
  intros H; unfold countersOf, holdsSource in *.
  assert (H1 : forall nss, incl nss NAMESPACES ->
             map (fun ns => StrMap.size (sourceKeysOf sourceData ns)) nss
             = map (sourceKeyCount fs) nss).
  { intros nss Hi; apply map_ext_in; intros ns Hns.
    unfold sourceKeyCount; rewrite H; auto. }
  assert (H2 : forall nss, incl nss NAMESPACES ->
             map (translatedIn fs sourceData l) nss
             = map (translatedKeys fs l) nss).
  { intros nss Hi; apply map_ext_in; intros ns Hns.
    unfold translatedIn, translatedKeys; rewrite H; auto. }
  rewrite H1, H2; auto using incl_refl.
Qed.

Section Outcome.

Variable parse : Parser.
Variable isCI : bool.
Variable fs : FileSystem.

(** The run reaches the report exactly when the source locale loads and
    a target locale is found; [coverage] then holds the counters of every
    target locale. *)
Lemma validate_returns coverage log :
  validate parse isCI fs emptyLog = Return coverage log ->
  sourceLoads fs NAMESPACES /\ discoverLocales fs <> []
  /\ forall l, In l (discoverLocales fs) ->
       StrMap.get l coverage
       = Some {| total := list_sum (map (sourceKeyCount fs) NAMESPACES);
                 translated := list_sum (map (translatedKeys fs l) NAMESPACES) |}.
Proof.
  intros Hval.
  destruct (sourceLoads_dec fs NAMESPACES) as [Hok|Hbad].
  - destruct (source_phase parse isCI fs Hok) as (sd & d & Hd & _ & Hsd).
    destruct (discoverLocales fs) as [|x ls] eqn:El.
    + rewrite (validate_no_targets parse isCI fs sd d Hd El) in Hval.
      discriminate.
    + split; auto; split; [discriminate |].
      destruct (checkLocales_runs parse isCI fs sd (x :: ls) StrMap.empty)
        as (cov & d' & Hd' & _ & Hcov).
      assert (Hne : discoverLocales fs <> []) by (rewrite El; discriminate).
      rewrite <- El in Hd'.
      rewrite (validate_targets parse isCI fs sd d cov d' Hd Hne Hd') in Hval.
      inversion Hval; subst.
      intros l Hl; destruct (Hcov l) as [H _].
      rewrite H; auto; now rewrite countersOf_holdsSource.
  - destruct (sourceLoop_fatal parse isCI fs NAMESPACES Hbad StrMap.empty emptyLog)
      as (d & ns & Hrun & _).
    rewrite (validate_fatal parse isCI fs 1 _ Hrun) in Hval; discriminate.
Qed.

Lemma main_when_targets :
  sourceLoads fs NAMESPACES -> discoverLocales fs <> [] ->
  exists log, main parse isCI fs emptyLog = Exited (finalCode (issues log)) log.
Proof.
  intros Hok Hsome.
  destruct (source_phase parse isCI fs Hok) as (sd & d & Hd & _ & _).
  destruct (checkLocales_runs parse isCI fs sd (discoverLocales fs) StrMap.empty)
    as (cov & d' & Hd' & _).
  destruct (main_reports parse isCI fs cov (appendLog d d')
              (validate_targets parse isCI fs sd d cov d' Hd Hsome Hd'))
    as (d'' & Hmain & Hsil & _).
  eexists; rewrite Hmain; f_equal.
  simpl; now rewrite Hsil, app_nil_r.
Qed.

Lemma main_when_fatal :
  ~ sourceLoads fs NAMESPACES ->
  exists log ns,
    main parse isCI fs emptyLog = Exited 1 log
    /\ foldM (loadSource parse isCI fs) StrMap.empty NAMESPACES emptyLog
       = Exited 1 log
    /\ Forall (fun i => Issue.locale i = SOURCE_LOCALE) (issues log)
    /\ stdout log = []
    /\ stderr log = [red isCI (fatalText ns)]
    /\ In ns NAMESPACES.
Proof.
  intros Hbad.
  destruct (sourceLoop_fatal parse isCI fs NAMESPACES Hbad StrMap.empty emptyLog)
    as (d & ns & Hrun & HA & Ho & He & Hin & _).
  rewrite appendLog_empty_l in Hrun.
  exists d, ns; split.
  - now apply main_exited, validate_fatal.
  - repeat split; auto.
    unfold AllIssues in HA; eapply Forall_impl; [|exact HA]; now intros i [].
Qed.

End Outcome.




(** C3. When a catalog of the source locale is missing or is not JSON, the
    process exits with code 1, the code it also uses when errors were
    found: nothing but the fatal message was printed, every issue pushed
    until then is about the source locale, and the outcome is the same for
    every directory with the same source catalogs, whatever its target
    locales. *)
Theorem unloadable_source_is_fatal
    (parse : Parser) (isCI : bool) (fs : FileSystem) (ns : string) :
  In ns NAMESPACES ->
  file fs SOURCE_LOCALE ns = Unreadable ->
  exists log bad,
    main parse isCI fs emptyLog = Exited 1 log
    /\ stdout log = []
    /\ stderr log = [red isCI (fatalText bad)]
    /\ Forall (fun i => Issue.locale i = SOURCE_LOCALE) (issues log)
    /\ forall fs',
         (forall ns', file fs' SOURCE_LOCALE ns' = file fs SOURCE_LOCALE ns') ->
         main parse isCI fs' emptyLog = Exited 1 log.
Proof.
  intros Hns Hfile.
  assert (Hbad : ~ sourceLoads fs NAMESPACES).
  { intros H; specialize (H ns Hns); unfold loadJSON in H.
    rewrite Hfile in H; discriminate. }
  destruct (main_when_fatal parse isCI fs Hbad)
    as (log & bad & Hmain & Hloop & HA & Ho & He & _).
  exists log, bad; repeat split; auto.
  intros fs' Hsame.
  apply main_exited, validate_fatal.
  rewrite <- Hloop; apply foldM_ext; intros acc x l.
  apply loadSource_ext; intros n; unfold loadJSON; rewrite Hsame; auto.
Qed.

Lemma unloadable_source_is_fatal_witness :
  In "game" NAMESPACES /\ file noSourceFs SOURCE_LOCALE "game" = Unreadable
  /\ exists log bad,
       main literalParser true noSourceFs emptyLog = Exited 1 log
       /\ stdout log = []
       /\ stderr log = [red true (fatalText bad)]
       /\ Forall (fun i => Issue.locale i = SOURCE_LOCALE) (issues log)
       /\ forall fs',
            (forall ns', file fs' SOURCE_LOCALE ns' = file noSourceFs SOURCE_LOCALE ns') ->
            main literalParser true fs' emptyLog = Exited 1 log.
Proof.
  split; [vm_compute; auto |].
  split; [reflexivity |].
  apply (unloadable_source_is_fatal literalParser true noSourceFs "game").
  - vm_compute; auto.
  - reflexivity.
Defined.

(** C3 as the specification words it fails: the exit code of the fatal
    path is 1, not a code apart from 0 and 1. *)
Lemma fatal_exit_code_is_one :
  file noSourceFs SOURCE_LOCALE "game" = Unreadable
  /\ exitCode (main literalParser false noSourceFs emptyLog) = Some 1%Z
  /\ ~ (forall code,
          exitCode (main literalParser false noSourceFs emptyLog) = Some code ->
          code <> 0%Z /\ code <> 1%Z).
Proof.
  split; [reflexivity |].
  split; [reflexivity |].
  intros H; destruct (H 1%Z eq_refl) as [_ H1]; now apply H1.
Qed.

(** * Coverage counters *)

Lemma checkKey_blank parse isCI l ns targetKeys n k v sourceValue :
  StrMap.get k targetKeys = Some v -> Js.trim v = "" ->
  Emits (checkKey parse isCI l ns targetKeys n (k, sourceValue)) (S n)
        {| issues := [emptyIssue l ns k]; stdout := []; stderr := [] |}.
Proof.
  intros Hget Hblank log; unfold checkKey; simpl; rewrite Hget, Hblank.
  unfold Js.eqb; simpl.
  unfold bind; rewrite Emits_push; reflexivity.
Qed.

(** C2. For every target locale, [translated] is the number of source keys
    that the flattened target catalogs have, over the namespaces whose
    catalog loads, whatever the values are: a key whose value is blank gets
    the warning [Empty value] and is counted all the same. *)
Theorem translated_counts_present_keys
    (parse : Parser) (isCI : bool) (fs : FileSystem)
    (coverage : StrMap.t Coverage) (log : Log) (l : string) :
  validate parse isCI fs emptyLog = Return coverage log ->
  In l (discoverLocales fs) ->
  (exists c,
     StrMap.get l coverage = Some c
     /\ translated c = list_sum (map (translatedKeys fs l) NAMESPACES)
     /\ total c = list_sum (map (sourceKeyCount fs) NAMESPACES))
  /\ (forall ns targetKeys n k v sourceValue,
        StrMap.get k targetKeys = Some v -> Js.trim v = "" ->
        Emits (checkKey parse isCI l ns targetKeys n (k, sourceValue)) (S n)
              {| issues := [emptyIssue l ns k]; stdout := []; stderr := [] |}).
Proof.
  intros Hval Hl; split.
  - destruct (validate_returns parse isCI fs coverage log Hval) as (_ & _ & H).
    eexists; split; [apply H; exact Hl | split; reflexivity].
  - intros ns tk n k v sv; apply checkKey_blank.
Qed.

Lemma translated_counts_present_keys_witness :
  exists coverage log,
    validate literalParser false sampleFs emptyLog = Return coverage log
    /\ In "ko-KR" (discoverLocales sampleFs)
    /\ exists c,
         StrMap.get "ko-KR" coverage = Some c
         /\ translated c = list_sum (map (translatedKeys sampleFs "ko-KR") NAMESPACES)
         /\ total c = list_sum (map (sourceKeyCount sampleFs) NAMESPACES).
Proof.
  eexists; eexists.
  split; [vm_compute; reflexivity |].
  split; [vm_compute; auto |].
  refine (proj1 (translated_counts_present_keys literalParser false sampleFs
                   _ _ "ko-KR" _ _)).
  - vm_compute; reflexivity.
  - vm_compute; auto.
Defined.

(** C2 as the specification words it fails on a blank value: the Korean
    [game] catalog has the key [hero] with a value of two spaces;
    [translated] is 1, and no source key has a value that is present and not
    blank. *)
Lemma blank_value_counts_as_translated :
  exists coverage log,
    validate literalParser false sampleFs emptyLog = Return coverage log
    /\ option_map translated (StrMap.get "ko-KR" coverage) = Some 1
    /\ list_sum (map (nonBlankKeys sampleFs "ko-KR") NAMESPACES) = 0
    /\ StrMap.get "hero" (flatten (loadJSON sampleFs "ko-KR" "game") "") = Some "  "
    /\ Js.trim "  " = "".
Proof.
  eexists; eexists.
  split; [vm_compute; reflexivity |].
  repeat split; reflexivity.
Qed.

(** * A catalog whose value is falsy *)

(** C10. A target catalog that is valid JSON with a falsy value ([null],
    [false], [0] or the empty string) is handled as one that is missing or
    is not JSON: its turn of the namespace loop pushes the file-level error
    [File missing or invalid JSON] and nothing else, and checks no key; the
    turn, and the whole run, are the same as when the file is taken
    away. *)
Theorem falsy_catalog_like_missing
    (parse : Parser) (isCI : bool) (fs : FileSystem) (l ns : string) (v : json) :
  file fs l ns = Parsed v ->
  truthy v = false ->
  (forall sourceData c,
     Emits (checkNamespace parse isCI fs sourceData l c ns)
           {| total := total c + StrMap.size (sourceKeysOf sourceData ns);
              translated := translated c |}
           {| issues := [fileIssue l ns];
              stdout := if isCI then [fileAnnotation l ns] else [];
              stderr := [] |})
  /\ (forall sourceData c log,
        checkNamespace parse isCI fs sourceData l c ns log
        = checkNamespace parse isCI (withFile fs l ns Unreadable) sourceData l c ns log)
  /\ (forall log,
        main parse isCI fs log = main parse isCI (withFile fs l ns Unreadable) log)
  /\ Issue.message (fileIssue l ns) = "File missing or invalid JSON"
  /\ Forall (fun w => truthy w = false)
            [JNull; JBool false; JNumber (Num.ofNat 0); JString ""].
Proof.
  intros Hfile Hv.
  assert (Hbad : truthy (loadJSON fs l ns) = false).
  { unfold loadJSON; now rewrite Hfile. }
  pose proof (sameView_withFile fs l ns Hbad) as Hview.
  split; [intros sd c; now apply checkNamespace_unloadable |].
  split; [intros sd c log; now apply checkNamespace_ext |].
  split; [intros log; now apply main_ext |].
  split; [reflexivity | repeat constructor].
Qed.

Lemma falsy_catalog_like_missing_witness :
  file sampleFs "ko-KR" "pages" = Parsed JNull
  /\ truthy JNull = false
  /\ (forall log,
        main literalParser true sampleFs log
        = main literalParser true (withFile sampleFs "ko-KR" "pages" Unreadable) log).
Proof.
  split; [reflexivity |].
  split; [reflexivity |].
  apply (falsy_catalog_like_missing literalParser true sampleFs "ko-KR" "pages"
           JNull eq_refl eq_refl).
Defined.

(** * The CI signal *)


(** * Flattening *)

(** *** Strings *)

Lemma append_assoc (a b c : string) : (a +++ b) +++ c = a +++ (b +++ c).
Proof. induction a as [|x a IH]; simpl; auto; now rewrite IH. Qed.

Lemma append_nil_r (a : string) : a +++ "" = a.
Proof. induction a as [|x a IH]; simpl; auto; now rewrite IH. Qed.

Lemma append_inv_head (a b c : string) : a +++ b = a +++ c -> b = c.
Proof. induction a as [|x a IH]; simpl; auto; intros [= H]; auto. Qed.

(** Two dot-free segments, each followed by nothing or by a dot, that make
    the same text are the same segment. *)
Lemma plain_cancel (a b t t' : string) :
  hasDot a = false -> hasDot b = false ->
  (t = "" \/ exists r, t = "." +++ r) ->
  (t' = "" \/ exists r, t' = "." +++ r) ->
  a +++ t = b +++ t' -> a = b.
Proof.
  revert b; induction a as [|x a IH]; intros [|y b] Ha Hb Ht Ht' H; simpl in *; auto.
  - exfalso; destruct Ht as [->|[r ->]]; [discriminate |].
    simpl in H; inversion H; subst y; simpl in Hb; discriminate.
  - exfalso; destruct Ht' as [->|[r ->]]; [discriminate |].
    simpl in H; inversion H; subst x; simpl in Ha; discriminate.
  - inversion H; subst y; f_equal.
    apply orb_false_iff in Ha as [_ Ha], Hb as [_ Hb].
    now apply IH.
Qed.

(** *** Decimal indices *)

Lemma to_uint_nonnil n : Nat.to_uint n <> Decimal.Nil.
Proof.
  rewrite <- (DecimalNat.Unsigned.of_to n) at 1.
  rewrite DecimalNat.Unsigned.to_of.
  unfold Decimal.unorm; destruct (Decimal.nzhead (Nat.to_uint n)); discriminate.
Qed.

Lemma ofNat_inj n m : Js.ofNat n = Js.ofNat m -> n = m.
Proof.
  unfold Js.ofNat; intros H.
  apply DecimalNat.Unsigned.to_uint_inj.
  apply (f_equal NilZero.uint_of_string) in H.
  rewrite !NilZero.usu in H by apply to_uint_nonnil.
  now inversion H.
Qed.

Lemma digits_no_dot d : hasDot (NilEmpty.string_of_uint d) = false.
Proof. induction d; simpl; auto. Qed.

Lemma digits_truthy d :
  d <> Decimal.Nil -> Js.truthy (NilEmpty.string_of_uint d) = true.
Proof. destruct d; simpl; auto; congruence. Qed.

Lemma ofNat_plain n : plain (Js.ofNat n).
Proof.
  pose proof (to_uint_nonnil n) as H.
  assert (E : Js.ofNat n = NilEmpty.string_of_uint (Nat.to_uint n)).
  { unfold Js.ofNat, NilZero.string_of_uint.
    destruct (Nat.to_uint n); auto; congruence. }
  rewrite E; split; [now apply digits_truthy | apply digits_no_dot].
Qed.

(** *** Documents *)

(** Induction on a document, with the hypothesis for every item of an
    array and every value of an object. *)
Lemma json_ind2 (P : json -> Prop) :
  P JNull -> (forall b, P (JBool b)) -> (forall x, P (JNumber x)) ->
  (forall s, P (JString s)) ->
  (forall items, Forall P items -> P (JArray items)) ->
  (forall fields, Forall (fun kv => P (snd kv)) fields -> P (JObject fields)) ->
  forall v, P v.
Proof.
  intros Hnull Hbool Hnum Hstr Harr Hobj.
  fix IH 1; intros [| b | x | s | items | fields];
    [exact Hnull | apply Hbool | apply Hnum | apply Hstr | apply Harr | apply Hobj].
  - induction items as [|x items IHi]; constructor; [apply IH | exact IHi].
  - induction fields as [|[k x] fields IHf]; constructor; [apply IH | exact IHf].
Qed.

Lemma wellFormed_array items :
  wellFormed (JArray items) <-> Forall wellFormed items.
Proof.
  induction items as [|x items IH]; simpl in *; split; auto.
  - intros [Hx H]; constructor; auto; now apply IH.
  - intros H; inversion H; subst; split; auto; now apply IH.
Qed.

Lemma wellFormed_object fields :
  wellFormed (JObject fields)
  <-> NoDup (map fst fields) /\ Forall (fun kv => wellFormed (snd kv)) fields.
Proof.
  simpl; apply and_iff_compat_l.
  induction fields as [|[k x] fields IH]; simpl in *; split; auto.
  - intros [Hx H]; constructor; auto; now apply IH.
  - intros H; inversion H; subst; split; auto; now apply IH.
Qed.

Lemma plainKeys_array items :
  plainKeys (JArray items) <-> Forall plainKeys items.
Proof.
  induction items as [|x items IH]; simpl in *; split; auto.
  - intros [Hx H]; constructor; auto; now apply IH.
  - intros H; inversion H; subst; split; auto; now apply IH.
Qed.

Lemma plainKeys_object fields :
  plainKeys (JObject fields)
  <-> Forall (fun kv => plain (fst kv) /\ plainKeys (snd kv)) fields.
Proof.
  induction fields as [|[k x] fields IH]; simpl in *; split; auto.
  - intros (Hk & Hx & H); constructor; auto; now apply IH.
  - intros H; inversion H as [|? ? [Hk Hx] H']; subst.
    split; [exact Hk | split; [exact Hx | now apply IH]].
Qed.

(** *** Keys written below a path *)

Lemma keys_set_in {V} k k' (v : V) m :
  In k (StrMap.keys (StrMap.set k' v m)) <-> k = k' \/ In k (StrMap.keys m).
Proof.
  rewrite keys_set; destruct (StrMap.has k' m) eqn:E.
  - apply has_true_iff in E; split; auto; intros [->|H]; auto.
  - rewrite in_app_iff; simpl; intuition.
Qed.

Lemma keys_setAll_in {V} k (src dst : StrMap.t V) :
  In k (StrMap.keys (StrMap.setAll src dst))
  <-> In k (StrMap.keys src) \/ In k (StrMap.keys dst).
Proof.
  unfold StrMap.setAll; revert dst.
  induction src as [|[k' v] src IH]; intros dst; simpl; [tauto |].
  rewrite IH, keys_set_in; intuition.
Qed.

Lemma childPath_truthy prefix seg :
  Js.truthy prefix = true -> childPath prefix seg = prefix +++ "." +++ seg.
Proof. unfold childPath; now intros ->. Qed.

Lemma truthy_append a b : Js.truthy a = true -> Js.truthy (a +++ b) = true.
Proof. destruct a; simpl; [discriminate | auto]. Qed.

Lemma childPath_of_plain prefix seg :
  plain seg -> Js.truthy (childPath prefix seg) = true.
Proof.
  intros [H _]; unfold childPath.
  destruct (Js.truthy prefix) eqn:E; auto; now apply truthy_append.
Qed.

(** Under a path that is not empty, [flatten] only writes keys that extend
    the path by a dot and more. *)
Lemma keys_under :
  forall x path, Js.truthy path = true ->
    forall k, In k (StrMap.keys (flatten x path)) ->
      exists r, k = path +++ "." +++ r.
Proof.
  induction x as [| | | | items IH | fields IH] using json_ind2;
    intros path Hp k Hk; try (simpl in Hk; tauto).
  - rewrite flatten_array in Hk.
    assert (H : forall l i result,
               Forall (fun x => forall path, Js.truthy path = true ->
                          forall k, In k (StrMap.keys (flatten x path)) ->
                            exists r, k = path +++ "." +++ r) l ->
               (forall k, In k (StrMap.keys result) -> exists r, k = path +++ "." +++ r) ->
               forall k, In k (StrMap.keys (flattenItems path l i result)) ->
                 exists r, k = path +++ "." +++ r).
    { clear IH Hk k; induction l as [|x l IHl]; intros i result HF Hres k Hk;
        simpl in Hk; auto.
      inversion HF as [|? ? Hx HF']; subst.
      apply (IHl (S i) _ HF') in Hk; auto.
      intros k' Hk'; destruct x; auto.
      - apply keys_set_in in Hk' as [->|Hk']; auto.
        rewrite childPath_truthy by exact Hp; eauto.
      - apply keys_setAll_in in Hk' as [Hk'|Hk']; auto.
        rewrite childPath_truthy in Hk' by exact Hp.
        apply Hx in Hk' as [r ->]; [| now apply truthy_append].
        rewrite append_assoc; simpl; eauto.
      - apply keys_setAll_in in Hk' as [Hk'|Hk']; auto.
        rewrite childPath_truthy in Hk' by exact Hp.
        apply Hx in Hk' as [r ->]; [| now apply truthy_append].
        rewrite append_assoc; simpl; eauto. }
    apply (H items 0 StrMap.empty IH); auto; intros k' [].
  - rewrite flatten_object in Hk.
    assert (H : forall l result,
               Forall (fun kv => forall path, Js.truthy path = true ->
                          forall k, In k (StrMap.keys (flatten (snd kv) path)) ->
                            exists r, k = path +++ "." +++ r) l ->
               (forall k, In k (StrMap.keys result) -> exists r, k = path +++ "." +++ r) ->
               forall k, In k (StrMap.keys (flattenFields path l result)) ->
                 exists r, k = path +++ "." +++ r).
    { clear IH Hk k; induction l as [|[key x] l IHl]; intros result HF Hres k Hk;
        simpl in Hk; auto.
      inversion HF as [|? ? Hx HF']; subst; simpl in Hx.
      apply (IHl _ HF') in Hk; auto.
      intros k' Hk'; destruct x; auto.
      - apply keys_set_in in Hk' as [->|Hk']; auto.
        rewrite childPath_truthy by exact Hp; eauto.
      - apply keys_setAll_in in Hk' as [Hk'|Hk']; auto.
        rewrite childPath_truthy in Hk' by exact Hp.
        apply Hx in Hk' as [r ->]; [| now apply truthy_append].
        rewrite append_assoc; simpl; eauto.
      - apply keys_setAll_in in Hk' as [Hk'|Hk']; auto.
        rewrite childPath_truthy in Hk' by exact Hp.
        apply Hx in Hk' as [r ->]; [| now apply truthy_append].
        rewrite append_assoc; simpl; eauto. }
    apply (H fields StrMap.empty IH); auto; intros k' [].
Qed.

(** *** Siblings write apart *)

Lemma childPath_base prefix seg :
  childPath prefix seg
  = (if Js.truthy prefix then prefix +++ "." else "") +++ seg.
Proof.
  unfold childPath; destruct (Js.truthy prefix); simpl; auto.
  now rewrite append_assoc.
Qed.

(** No key path is at or below two children with different plain
    segments. *)
Lemma Under_apart prefix s s' k :
  plain s -> plain s' -> Under prefix s k -> Under prefix s' k -> s = s'.
Proof.
  intros [_ Hs] [_ Hs'] (t & -> & Ht) (t' & E & Ht').
  rewrite !childPath_base, !append_assoc in E.
  apply append_inv_head in E.
  now apply plain_cancel with t t'.
Qed.

Lemma Under_self prefix seg : Under prefix seg (childPath prefix seg).
Proof. exists ""; split; [now rewrite append_nil_r | now left]. Qed.

Lemma Under_keys prefix seg x k :
  plain seg ->
  In k (StrMap.keys (flatten x (childPath prefix seg))) ->
  Under prefix seg k.
Proof.
  intros Hseg Hk.
  apply keys_under in Hk as [r ->]; [| now apply childPath_of_plain].
  exists ("." +++ r); split; eauto.
Qed.

(** *** The loops append the entries of the leaves *)

Lemma entriesOf_string path s : entriesOf path (JString s) = [(path, s)].
Proof. reflexivity. Qed.

Lemma entriesOf_below prefix st x :
  map (entryOf prefix) (map (below st) (leaves x))
  = entriesOf (childPath prefix (segment st)) x.
Proof.
  unfold entriesOf; rewrite map_map; apply map_ext; now intros [pos s].
Qed.

Lemma leavesFields_entries prefix fields :
  map (entryOf prefix) (leavesFields fields) = entriesFields prefix fields.
Proof.
  induction fields as [|[k x] fields IH]; simpl; auto.
  rewrite map_app, IH; f_equal.
  apply (entriesOf_below prefix (Field k) x).
Qed.

Lemma leavesItems_entries prefix items :
  forall i,
    map (entryOf prefix) (leavesItems items i)
    = entriesFields prefix (indexed i items).
Proof.
  induction items as [|x items IH]; intros i; simpl; auto.
  rewrite map_app, IH; f_equal.
  apply (entriesOf_below prefix (Index i) x).
Qed.

Lemma flattenItems_indexed prefix items :
  forall i result,
    flattenItems prefix items i result
    = flattenFields prefix (indexed i items) result.
Proof.
  induction items as [|x items IH]; intros i result; simpl; auto.
Qed.

Lemma indexed_segments items :
  forall i s, In s (map fst (indexed i items)) -> exists j, i <= j /\ s = Js.ofNat j.
Proof.
  induction items as [|x items IH]; intros i s; simpl; [tauto |].
  intros [<-|H]; [exists i; auto |].
  apply IH in H as (j & Hj & ->); exists j; split; auto; lia.
Qed.

Lemma indexed_NoDup items : forall i, NoDup (map fst (indexed i items)).
Proof.
  induction items as [|x items IH]; intros i; simpl; constructor; auto.
  intros H; apply indexed_segments in H as (j & Hj & E).
  apply ofNat_inj in E; lia.
Qed.

(** The loop over children with distinct plain segments, started on a map
    whose keys lie below other segments, appends the entries of the leaves
    of the children, in order. *)
Lemma flattenFields_entries prefix fields :
  Forall (fun kv => plain (fst kv) /\ ChildOK (snd kv)) fields ->
  NoDup (map fst fields) ->
  forall result seen,
    NoDup (StrMap.keys result) ->
    (forall k, In k (StrMap.keys result) ->
               exists s, In s seen /\ Under prefix s k) ->
    (forall s, In s seen -> plain s /\ ~ In s (map fst fields)) ->
    flattenFields prefix fields result
    = result ++ entriesFields prefix fields.
Proof.
  induction fields as [|[k0 x] fields IH];
    intros HF Hnd result seen Hres Hunder Hseen; simpl.
  - now rewrite app_nil_r.
  - inversion HF as [|? ? [Hk0 Hx] HF']; subst; simpl in Hk0, Hx.
    inversion Hnd as [|? ? Hk0n Hnd']; subst.
    set (path := childPath prefix k0).
    (* a key of [result] is not at or below this child *)
    assert (Hfresh : forall k, In k (StrMap.keys result) ->
                               ~ Under prefix k0 k).
    { intros k Hk HU; destruct (Hunder k Hk) as (s & Hs & HUs).
      destruct (Hseen s Hs) as [Hps Hns].
      apply Hns; left; symmetry.
      now apply (Under_apart prefix s k0 k). }
    (* what this turn makes of [result] *)
    assert (Hstep :
      match x with
      | JString s => StrMap.set path s result
      | JArray _ | JObject _ => StrMap.setAll (flatten x path) result
      | _ => result
      end = result ++ entriesOf path x).
    { destruct x; try (unfold entriesOf; simpl; now rewrite app_nil_r).
      - rewrite entriesOf_string; apply set_new.
        intros Hin; apply (Hfresh _ Hin), Under_self.
      - rewrite <- (Hx path eq_refl); apply setAll_new.
        unfold StrMap.keys; rewrite map_app; apply NoDup_app; auto.
        + apply NoDup_keys_flatten.
        + intros k Hk Hk'; apply (Hfresh k Hk).
          now apply Under_keys with (JArray items).
      - rewrite <- (Hx path eq_refl); apply setAll_new.
        unfold StrMap.keys; rewrite map_app; apply NoDup_app; auto.
        + apply NoDup_keys_flatten.
        + intros k Hk Hk'; apply (Hfresh k Hk).
          now apply Under_keys with (JObject fields0). }
    fold path; rewrite Hstep.
    rewrite (IH HF' Hnd' (result ++ entriesOf path x) (k0 :: seen)).
    + now rewrite <- app_assoc.
    + rewrite <- Hstep; destruct x; auto using NoDup_keys_set, NoDup_keys_setAll.
    + intros k Hk; unfold StrMap.keys in Hk; rewrite map_app in Hk.
      apply in_app_or in Hk as [Hk|Hk].
      * destruct (Hunder k Hk) as (s & Hs & HU); exists s; split; auto; now right.
      * exists k0; split; [now left |].
        destruct x; try (unfold entriesOf in Hk; simpl in Hk; tauto).
        -- rewrite entriesOf_string in Hk; destruct Hk as [<-|[]]; apply Under_self.
        -- rewrite <- (Hx path eq_refl) in Hk; now apply Under_keys with (JArray items).
        -- rewrite <- (Hx path eq_refl) in Hk; now apply Under_keys with (JObject fields0).
    + intros s [<-|Hs]; [split; auto |].
      destruct (Hseen s Hs) as [Hp Hn]; split; auto.
      intros Hin; apply Hn; now right.
Qed.

(** A document whose objects have distinct, plain keys is flattened to the
    entries of its string leaves, in document order. *)
Lemma flatten_entries :
  forall x, wellFormed x -> plainKeys x -> ChildOK x.
Proof.
  induction x as [| | | | items IH | fields IH] using json_ind2;
    intros Hwf Hpk path Hc; try discriminate.
  - rewrite flatten_array, flattenItems_indexed.
    apply wellFormed_array in Hwf; apply plainKeys_array in Hpk.
    rewrite (flattenFields_entries path (indexed 0 items)) with (seen := []).
    + simpl; unfold entriesOf; symmetry; apply (leavesItems_entries path items 0).
    + clear Hc; generalize 0.
      induction items as [|x items IHi]; intros i; simpl; constructor.
      * inversion IH; inversion Hwf; inversion Hpk; subst.
        split; [apply ofNat_plain | auto].
      * inversion IH; inversion Hwf; inversion Hpk; subst; auto.
    + apply indexed_NoDup.
    + constructor.
    + intros k [].
    + intros s [].
  - rewrite flatten_object.
    apply wellFormed_object in Hwf as [Hnd Hwf]; apply plainKeys_object in Hpk.
    rewrite (flattenFields_entries path fields) with (seen := []); auto.
    + simpl; unfold entriesOf; symmetry; apply (leavesFields_entries path fields).
    + clear Hc Hnd.
      induction fields as [|[k x] fields IHf]; constructor.
      * inversion IH; inversion Hwf; inversion Hpk as [|? ? [Hk Hx] ?]; subst.
        simpl in *; split; auto.
      * inversion IH; inversion Hwf; inversion Hpk; subst; auto.
    + constructor.
    + intros k [].
    + intros s [].
Qed.

Lemma NoDup_map_inj_in {A B} (f : A -> B) (l : list A) a b :
  NoDup (map f l) -> In a l -> In b l -> f a = f b -> a = b.
Proof.
  induction l as [|x l IH]; simpl; [tauto |].
  intros Hnd Ha Hb E; inversion Hnd as [|? ? Hx Hnd']; subst.
  destruct Ha as [->|Ha], Hb as [->|Hb]; auto.
  - exfalso; apply Hx; rewrite E; now apply in_map.
  - exfalso; apply Hx; rewrite <- E; now apply in_map.
Qed.

(** C4. Flattening a document whose root is an object or an array and whose
    object keys are all non-empty and without a dot is injective: the
    result holds exactly one entry for each string leaf, in document
    order; the entry of a leaf is found under the key path of its
    position with the value of the leaf; and two leaves with the same key
    path are the same leaf, so that no value is lost or overwritten. *)
Theorem flatten_injective_on_plain_keys (obj : json) :
  wellFormed obj -> plainKeys obj -> isContainer obj = true ->
  flatten obj "" = map (fun leaf => (pathOf (fst leaf), snd leaf)) (leaves obj)
  /\ (forall pos s,
        In (pos, s) (leaves obj) ->
        StrMap.get (pathOf pos) (flatten obj "") = Some s)
  /\ (forall pos1 s1 pos2 s2,
        In (pos1, s1) (leaves obj) -> In (pos2, s2) (leaves obj) ->
        pathOf pos1 = pathOf pos2 -> pos1 = pos2 /\ s1 = s2)
  /\ StrMap.size (flatten obj "") = List.length (leaves obj)
  /\ NoDup (map fst (leaves obj)).
Proof.
  intros Hwf Hpk Hc.
  pose proof (flatten_entries obj Hwf Hpk "" Hc) as E.
  change (entriesOf "" obj)
    with (map (fun leaf => (pathOf (fst leaf), snd leaf)) (leaves obj)) in E.
  pose proof (NoDup_keys_flatten obj "") as Hnd.
  assert (Hnd' : NoDup (map (fun leaf => pathOf (fst leaf)) (leaves obj))).
  { rewrite E in Hnd; unfold StrMap.keys in Hnd; now rewrite map_map in Hnd. }
  assert (Hget : forall pos s, In (pos, s) (leaves obj) ->
                   StrMap.get (pathOf pos) (flatten obj "") = Some s).
  { intros pos s Hin; apply in_get; auto.
    rewrite E; apply (in_map (fun leaf => (pathOf (fst leaf), snd leaf)) _ _ Hin). }
  split; [exact E |].
  split; [exact Hget |].
  split; [| split].
  - intros pos1 s1 pos2 s2 H1 H2 Hp.
    assert (Heq : (pos1, s1) = (pos2, s2)).
    { apply (NoDup_map_inj_in (fun leaf => pathOf (fst leaf)) (leaves obj));
        auto. }
    now inversion Heq.
  - rewrite E; unfold StrMap.size; apply length_map.
  - apply (NoDup_map_inv pathOf).
    now rewrite map_map.
Qed.

Lemma plainDoc_regular :
  wellFormed plainDoc /\ plainKeys plainDoc /\ isContainer plainDoc = true.
Proof.
  unfold plainDoc; simpl; repeat split;
    try (apply distinctb_NoDup; reflexivity).
Qed.

Lemma flatten_injective_on_plain_keys_witness :
  wellFormed plainDoc /\ plainKeys plainDoc /\ isContainer plainDoc = true
  /\ flatten plainDoc ""
     = map (fun leaf => (pathOf (fst leaf), snd leaf)) (leaves plainDoc)
  /\ StrMap.size (flatten plainDoc "") = List.length (leaves plainDoc)
  /\ NoDup (map fst (leaves plainDoc)).
Proof.
  destruct plainDoc_regular as (Hwf & Hpk & Hc).
  destruct (flatten_injective_on_plain_keys plainDoc Hwf Hpk Hc)
    as (E & _ & _ & Hsize & Hnd).
  split; [exact Hwf |].
  split; [exact Hpk |].
  split; [exact Hc |].
  split; [exact E |].
  split; [exact Hsize | exact Hnd].
Defined.

(** C4 as the specification words it fails on a key with a dot: the leaves
    [x] at [a.b] and [y] at [a], [b] get the same key path, and the value
    [x] is overwritten. It fails on an empty key: below it the prefix is
    empty again, as at the root, and the leaf at the empty key, [a] meets
    the leaf at [a]. It also fails on a document that is a bare string,
    whose one leaf gets no key path. *)
Lemma flatten_collides_on_dotted_key :
  wellFormed dottedDoc
  /\ leaves dottedDoc = [([Field "a.b"], "x"); ([Field "a"; Field "b"], "y")]
  /\ pathOf [Field "a.b"] = pathOf [Field "a"; Field "b"]
  /\ flatten dottedDoc "" = [("a.b", "y")]
  /\ wellFormed emptyKeyDoc
  /\ leaves emptyKeyDoc = [([Field ""; Field "a"], "x"); ([Field "a"], "y")]
  /\ flatten emptyKeyDoc "" = [("a", "y")]
  /\ leaves (JString "x") = [([], "x")]
  /\ flatten (JString "x") "" = [].
Proof.
  repeat split; try reflexivity; apply distinctb_NoDup; reflexivity.
Qed.

(** * The coverage percentage *)


(** On counters up to 100 the percentage is an integer nearest to the exact
    quotient. *)
Lemma coveragePct_nearest t r :
  1 <= t <= 100 -> r <= t ->
  (Z.abs (2 * Z.of_nat t * Num.toZ (coveragePct {| total := t; translated := r |})
          - 200 * Z.of_nat r) <= Z.of_nat t)%Z.
Proof.
  intros Ht Hr.
  assert (Hall : forallb nearestOK (countersUpTo 100) = true)
    by (vm_compute; reflexivity).
  rewrite forallb_forall in Hall.
  specialize (Hall {| total := t; translated := r |}).
  unfold nearestOK in Hall; simpl total in Hall; simpl translated in Hall.
  apply Z.leb_le, Hall.
  unfold countersUpTo; apply in_flat_map; exists t; split.
  - apply in_seq; lia.
  - apply in_map_iff; exists r; split; auto; apply in_seq; lia.
Qed.

(** At a tie the exact quotient is rounded before the product, and the
    percentage can be the lower neighbour: 23 keys out of 40 are 57.5
    percent, reported as 57. *)
Lemma coveragePct_tie :
  coveragePct {| total := 40; translated := 23 |} = Num.ofNat 57.
Proof. vm_compute; reflexivity. Qed.

(** * Placeholders and tags *)

Lemma length_append (a b : string) :
  String.length (a +++ b) = String.length a + String.length b.
Proof. induction a as [|x a IH]; simpl; auto. Qed.

Lemma add_in x ph s : In ph (StrSet.add x s) <-> ph = x \/ In ph s.
Proof.
  unfold StrSet.add, StrSet.has.
  destruct (existsb (String.eqb x) s) eqn:E.
  - apply existsb_exists in E as (y & Hy & Exy); apply String.eqb_eq in Exy; subst y.
    split; auto; intros [->|H]; auto.
  - rewrite in_app_iff; simpl; intuition.
Qed.

(** Induction on a syntax tree, with the hypothesis for the nodes of every
    option and for the children of a tag. *)
Lemma element_ind2 (P : MessageFormatElement -> Prop) :
  (forall v, P (Literal v)) -> (forall v, P (Argument v)) ->
  (forall v, P (Number v)) -> (forall v, P (Date v)) -> (forall v, P (Time v)) ->
  (forall v options,
     Forall (fun o => Forall P (snd o)) options -> P (Select v options)) ->
  (forall v options,
     Forall (fun o => Forall P (snd o)) options -> P (Plural v options)) ->
  P Pound ->
  (forall v children, Forall P children -> P (Tag v children)) ->
  forall node, P node.
Proof.
  intros Hlit Harg Hnum Hdate Htime Hsel Hplu Hpound Htag.
  fix IH 1; intros [v | v | v | v | v | v options | v options | | v children];
    [apply Hlit | apply Harg | apply Hnum | apply Hdate | apply Htime
     | apply Hsel | apply Hplu | exact Hpound | apply Htag].
  - induction options as [|[c sub] options IHo]; constructor; [| exact IHo].
    simpl; induction sub as [|n sub IHs]; constructor; [apply IH | exact IHs].
  - induction options as [|[c sub] options IHo]; constructor; [| exact IHo].
    simpl; induction sub as [|n sub IHs]; constructor; [apply IH | exact IHs].
  - induction children as [|n children IHc]; constructor; [apply IH | exact IHc].
Qed.

(** The equations of [collectNode], with its loops written as
    [collectPlaceholders]. *)
Lemma collectNode_tag v children out :
  collectNode (Tag v children) out
  = collectPlaceholders children (StrSet.add (tagId v) out).
Proof. reflexivity. Qed.

Lemma collectNode_options v options out :
  collectNode (Select v options) out
  = fold_left (fun acc o => collectPlaceholders (snd o) acc) options
              (StrSet.add v out)
  /\ collectNode (Plural v options) out
     = fold_left (fun acc o => collectPlaceholders (snd o) acc) options
                 (StrSet.add v out).
Proof.
  simpl; generalize (StrSet.add v out) as acc.
  induction options as [|[c sub] options IH]; intros acc; simpl; auto.
Qed.

Lemma collectPlaceholders_cons node nodes out :
  collectPlaceholders (node :: nodes) out
  = collectPlaceholders nodes (collectNode node out).
Proof. reflexivity. Qed.

(** What is in the set stays in the set. *)
Lemma collectNode_keeps :
  forall node out ph, In ph out -> In ph (collectNode node out).
Proof.
  assert (Hnodes : forall nodes,
             Forall (fun n => forall out ph, In ph out -> In ph (collectNode n out)) nodes ->
             forall out ph, In ph out -> In ph (collectPlaceholders nodes out)).
  { induction 1 as [|n nodes Hn _ IH]; intros out ph Hin; auto.
    rewrite collectPlaceholders_cons; auto. }
  assert (Hopts : forall options : list (string * list MessageFormatElement),
             Forall (fun o => Forall (fun n => forall out ph, In ph out ->
                                          In ph (collectNode n out)) (snd o)) options ->
             forall out ph, In ph out ->
               In ph (fold_left (fun acc o => collectPlaceholders (snd o) acc)
                                options out)).
  { induction 1 as [|o options Ho _ IH]; intros out ph Hin; simpl; auto. }
  induction node as [v | v | v | v | v | v options IH | v options IH | | v children IH]
    using element_ind2; intros out ph Hin; auto;
    try (simpl; apply add_in; now right).
  - rewrite (proj1 (collectNode_options v options out)).
    apply Hopts; auto; apply add_in; now right.
  - rewrite (proj2 (collectNode_options v options out)).
    apply Hopts; auto; apply add_in; now right.
  - rewrite collectNode_tag; apply Hnodes; auto; apply add_in; now right.
Qed.

Lemma collectPlaceholders_keeps nodes :
  forall out ph, In ph out -> In ph (collectPlaceholders nodes out).
Proof.
  induction nodes as [|n nodes IH]; intros out ph Hin; auto.
  rewrite collectPlaceholders_cons; apply IH; now apply collectNode_keeps.
Qed.

(** What the walk adds does not depend on what the set held. *)
Lemma collectNode_adds :
  forall node out out' ph,
    (forall x, In x out -> In x out') ->
    In ph (collectNode node out) -> In ph (collectNode node out').
Proof.
  assert (Hnodes : forall nodes,
             Forall (fun n => forall out out' ph,
                       (forall x, In x out -> In x out') ->
                       In ph (collectNode n out) -> In ph (collectNode n out')) nodes ->
             forall out out' ph,
               (forall x, In x out -> In x out') ->
               In ph (collectPlaceholders nodes out) ->
               In ph (collectPlaceholders nodes out')).
  { induction 1 as [|n nodes Hn _ IH]; intros out out' ph Hsub Hin; auto.
    rewrite collectPlaceholders_cons in *.
    apply (IH (collectNode n out)); auto.
    intros x Hx; now apply (Hn out). }
  assert (Hopts : forall options : list (string * list MessageFormatElement),
             Forall (fun o => Forall (fun n => forall out out' ph,
                       (forall x, In x out -> In x out') ->
                       In ph (collectNode n out) -> In ph (collectNode n out'))
                                     (snd o)) options ->
             forall out out' ph,
               (forall x, In x out -> In x out') ->
               In ph (fold_left (fun acc o => collectPlaceholders (snd o) acc)
                                options out) ->
               In ph (fold_left (fun acc o => collectPlaceholders (snd o) acc)
                                options out')).
  { induction 1 as [|o options Ho _ IH]; intros out out' ph Hsub Hin; simpl in *; auto.
    apply (IH (collectPlaceholders (snd o) out)); auto.
    intros x Hx; now apply (Hnodes (snd o) Ho out). }
  assert (Hadd : forall v out out',
             (forall x, In x out -> In x out') ->
             forall x, In x (StrSet.add v out) -> In x (StrSet.add v out')).
  { intros v out out' Hsub x Hx; apply add_in in Hx; apply add_in.
    destruct Hx; auto. }
  induction node as [v | v | v | v | v | v options IH | v options IH | | v children IH]
    using element_ind2; intros out out' ph Hsub Hin; simpl in Hin |- *; auto;
    try (now apply (Hadd v out)).
  - change (In ph (collectNode (Select v options) out')).
    change (In ph (collectNode (Select v options) out)) in Hin.
    rewrite (proj1 (collectNode_options v options out)) in Hin.
    rewrite (proj1 (collectNode_options v options out')).
    apply (Hopts options IH (StrSet.add v out)); [now apply Hadd | exact Hin].
  - change (In ph (collectNode (Plural v options) out')).
    change (In ph (collectNode (Plural v options) out)) in Hin.
    rewrite (proj2 (collectNode_options v options out)) in Hin.
    rewrite (proj2 (collectNode_options v options out')).
    apply (Hopts options IH (StrSet.add v out)); [now apply Hadd | exact Hin].
  - change (In ph (collectNode (Tag v children) out')).
    change (In ph (collectNode (Tag v children) out)) in Hin.
    rewrite collectNode_tag in Hin; rewrite collectNode_tag.
    apply (Hnodes children IH (StrSet.add (tagId v) out));
      [now apply Hadd | exact Hin].
Qed.

Lemma collectPlaceholders_adds nodes :
  forall out out' ph,
    (forall x, In x out -> In x out') ->
    In ph (collectPlaceholders nodes out) ->
    In ph (collectPlaceholders nodes out').
Proof.
  induction nodes as [|n nodes IH]; intros out out' ph Hsub Hin; auto.
  rewrite collectPlaceholders_cons in *.
  apply (IH (collectNode n out)); auto.
  intros x Hx; now apply (collectNode_adds n out).
Qed.

(** The tag case of the walk: a tag node adds its identifier, which is not
    the name itself, and what its children add. *)
Lemma collectPlaceholders_tag v children rest out :
  In (tagId v) (collectPlaceholders (Tag v children :: rest) out)
  /\ tagId v <> v
  /\ (forall ph, In ph (collectPlaceholders children StrSet.empty) ->
                 In ph (collectPlaceholders (Tag v children :: rest) out)).
Proof.
  rewrite collectPlaceholders_cons, collectNode_tag; repeat split.
  - apply collectPlaceholders_keeps, collectPlaceholders_keeps.
    apply add_in; now left.
  - unfold tagId; intros H; apply (f_equal String.length) in H.
    simpl in H; rewrite length_append in H; simpl in H; lia.
  - intros ph Hph; apply collectPlaceholders_keeps.
    apply (collectPlaceholders_adds children StrSet.empty); auto.
    intros x [].
Qed.

(** The equations of [tagFree] and [argNames] on options. *)
Lemma tagFree_options v options :
  tagFree (Select v options)
  = forallb (fun o => forallb tagFree (snd o)) options
  /\ tagFree (Plural v options)
     = forallb (fun o => forallb tagFree (snd o)) options.
Proof.
  simpl.
  assert (H : forall sub,
             (fix eachNode (nodes : list MessageFormatElement) : bool :=
                match nodes with
                | [] => true
                | n :: more => tagFree n && eachNode more
                end) sub = forallb tagFree sub).
  { induction sub as [|n sub IH]; simpl; auto; now rewrite IH. }
  induction options as [|[c sub] options [IH _]]; simpl; auto.
  rewrite H, IH; auto.
Qed.

Lemma argNames_nodes nodes :
  (fix eachNode (nodes : list MessageFormatElement) : list string :=
     match nodes with
     | [] => []
     | n :: more => argNames n ++ eachNode more
     end) nodes = flat_map argNames nodes.
Proof. induction nodes as [|n nodes IH]; simpl; auto; now rewrite IH. Qed.

Lemma argNames_options v options :
  argNames (Select v options)
  = v :: flat_map (fun o => flat_map argNames (snd o)) options
  /\ argNames (Plural v options)
     = v :: flat_map (fun o => flat_map argNames (snd o)) options.
Proof.
  simpl.
  assert (H : (fix eachOption (opts : list (string * list MessageFormatElement))
                   : list string :=
                 match opts with
                 | [] => []
                 | (_, sub) :: rest =>
                     (fix eachNode (nodes : list MessageFormatElement)
                          : list string :=
                        match nodes with
                        | [] => []
                        | n :: more => argNames n ++ eachNode more
                        end) sub
                     ++ eachOption rest
                 end) options
              = flat_map (fun o => flat_map argNames (snd o)) options).
  { induction options as [|[c sub] options IH]; simpl; auto.
    now rewrite argNames_nodes, IH. }
  now rewrite H.
Qed.

(** On a tree without tag nodes the walk only adds names of argument,
    number, date, time, select and plural nodes. *)
Lemma collectNode_tagFree :
  forall node, tagFree node = true ->
    forall out ph, In ph (collectNode node out) ->
      In ph out \/ In ph (argNames node).
Proof.
  assert (Hnodes : forall nodes,
             Forall (fun n => tagFree n = true ->
                       forall out ph, In ph (collectNode n out) ->
                         In ph out \/ In ph (argNames n)) nodes ->
             forallb tagFree nodes = true ->
             forall out ph, In ph (collectPlaceholders nodes out) ->
               In ph out \/ In ph (flat_map argNames nodes)).
  { induction 1 as [|n nodes Hn _ IH]; intros Hfree out ph Hin; simpl; auto.
    simpl in Hfree; apply andb_true_iff in Hfree as [Hf Hfs].
    rewrite collectPlaceholders_cons in Hin.
    apply (IH Hfs) in Hin as [Hin|Hin].
    - apply (Hn Hf) in Hin as [Hin|Hin]; auto.
      right; apply in_or_app; now left.
    - right; apply in_or_app; now right. }
  assert (Hopts : forall options : list (string * list MessageFormatElement),
             Forall (fun o => Forall (fun n => tagFree n = true ->
                       forall out ph, In ph (collectNode n out) ->
                         In ph out \/ In ph (argNames n)) (snd o)) options ->
             forallb (fun o => forallb tagFree (snd o)) options = true ->
             forall out ph,
               In ph (fold_left (fun acc o => collectPlaceholders (snd o) acc)
                                options out) ->
               In ph out
               \/ In ph (flat_map (fun o => flat_map argNames (snd o)) options)).
  { induction 1 as [|o options Ho _ IH]; intros Hfree out ph Hin; simpl; auto.
    simpl in Hfree, Hin; apply andb_true_iff in Hfree as [Hf Hfs].
    apply (IH Hfs) in Hin as [Hin|Hin].
    - apply (Hnodes (snd o) Ho Hf) in Hin as [Hin|Hin]; auto.
      right; apply in_or_app; now left.
    - right; apply in_or_app; now right. }
  induction node as [v | v | v | v | v | v options IH | v options IH | | v children IH]
    using element_ind2; intros Hfree out ph Hin;
    try (simpl in Hin |- *; apply add_in in Hin as [->|Hin]; now auto);
    try (simpl in Hin; now auto);
    try discriminate.
  - rewrite (proj1 (tagFree_options v options)) in Hfree.
    rewrite (proj1 (collectNode_options v options out)) in Hin.
    rewrite (proj1 (argNames_options v options)).
    apply (Hopts options IH Hfree) in Hin as [Hin|Hin]; [| right; now right].
    apply add_in in Hin as [->|Hin]; auto; right; now left.
  - rewrite (proj2 (tagFree_options v options)) in Hfree.
    rewrite (proj2 (collectNode_options v options out)) in Hin.
    rewrite (proj2 (argNames_options v options)).
    apply (Hopts options IH Hfree) in Hin as [Hin|Hin]; [| right; now right].
    apply add_in in Hin as [->|Hin]; auto; right; now left.
Qed.

Lemma collectPlaceholders_tagFree nodes :
  forallb tagFree nodes = true ->
  forall out ph, In ph (collectPlaceholders nodes out) ->
    In ph out \/ In ph (flat_map argNames nodes).
Proof.
  induction nodes as [|n nodes IH]; intros Hfree out ph Hin; simpl; auto.
  simpl in Hfree; apply andb_true_iff in Hfree as [Hf Hfs].
  rewrite collectPlaceholders_cons in Hin.
  apply (IH Hfs) in Hin as [Hin|Hin].
  - apply (collectNode_tagFree n Hf) in Hin as [Hin|Hin]; auto.
    right; apply in_or_app; now left.
  - right; apply in_or_app; now right.
Qed.

(** With a parser that reads tags as literal text when [ignoreTag] is set,
    every identifier [extractPlaceholders] returns is the name of an
    argument, number, date, time, select or plural node: the tag case of
    the walk is never taken. *)
Lemma extractPlaceholders_without_tags (parse : Parser) :
  IgnoresTags parse ->
  forall message ph,
    In ph (extractPlaceholders parse message) ->
    exists nodes,
      parse message {| ignoreTag := true |} = inr nodes
      /\ In ph (flat_map argNames nodes).
Proof.
  intros Hparse message ph; unfold extractPlaceholders.
  destruct (parse message {| ignoreTag := true |}) as [e|nodes] eqn:E;
    [intros [] |].
  intros Hin; exists nodes; split; auto.
  apply (collectPlaceholders_tagFree nodes (Hparse message nodes E)) in Hin.
  destruct Hin as [[]|Hin]; auto.
Qed.

Lemma brandParser_ignores_tags : IgnoresTags brandParser.
Proof.
  intros message nodes; unfold brandParser.
  destruct (String.eqb message brandMessage); simpl; intros [= <-]; reflexivity.
Qed.

(** C5. The message of the contribution guide, with the tag [<brand/>].
    The walk records the identifier of a tag node, but [extractPlaceholders]
    asks the parser to ignore tags and gets the tag as literal text: it
    returns no identifier for the tag, and a translation that drops the tag
    passes with no issue and exit code 0. *)
Theorem tag_dropped_unnoticed :
  collectPlaceholders
    [Literal "Meet the people who manage "; Tag "brand" []; Literal " esports data"]
    StrSet.empty = [tagId "brand"]
  /\ brandParser brandMessage {| ignoreTag := false |}
     = inr [Literal "Meet the people who manage "; Tag "brand" [];
            Literal " esports data"]
  /\ extractPlaceholders brandParser brandMessage = []
  /\ main brandParser true brandFs emptyLog
     = Exited 0 (logOf (main brandParser true brandFs emptyLog))
  /\ issues (logOf (main brandParser true brandFs emptyLog)) = [].
Proof. repeat split; vm_compute; reflexivity. Qed.

(** * More on flattening: every document *)

Lemma set_set_same {V} k (v v0 : V) m :
  StrMap.set k v (StrMap.set k v0 m) = StrMap.set k v m.
Proof.
  induction m as [|[a w] m IH]; simpl.
  - now rewrite String.eqb_refl.
  - destruct (String.eqb k a) eqn:E; simpl; rewrite E; auto.
    now rewrite IH.
Qed.

(** Updating a key the map has commutes with setting another key. *)
Lemma set_comm {V} k k' (v v' : V) m :
  k <> k' -> In k (StrMap.keys m) ->
  StrMap.set k v (StrMap.set k' v' m) = StrMap.set k' v' (StrMap.set k v m).
Proof.
  intros Hne; induction m as [|[a w] m IH]; simpl; [tauto |].
  intros Hin.
  destruct (String.eqb k' a) eqn:E', (String.eqb k a) eqn:E; simpl;
    rewrite ?E, ?E'; auto.
  - apply String.eqb_eq in E, E'; congruence.
  - rewrite IH; auto.
    destruct Hin as [Ha|Hin]; auto.
    apply String.eqb_neq in E; congruence.
Qed.

Lemma setAll_set_comm {V} k (v : V) (src : StrMap.t V) :
  ~ In k (StrMap.keys src) ->
  forall m, In k (StrMap.keys m) ->
    StrMap.set k v (StrMap.setAll src m) = StrMap.setAll src (StrMap.set k v m).
Proof.
  unfold StrMap.setAll.
  induction src as [|[k' v'] src IH]; intros Hk m Hin; simpl; auto.
  simpl in Hk.
  rewrite IH; [| tauto | apply keys_set_in; now right].
  rewrite set_comm; auto.
Qed.

Lemma setAll_set {V} k (v : V) (src dst : StrMap.t V) :
  NoDup (StrMap.keys src) ->
  StrMap.setAll (StrMap.set k v src) dst
  = StrMap.set k v (StrMap.setAll src dst).
Proof.
  revert dst; induction src as [|[a w] src IH]; intros dst Hnd; simpl; auto.
  inversion Hnd as [|? ? Ha Hnd']; subst.
  destruct (String.eqb k a) eqn:E.
  - apply String.eqb_eq in E; subst a.
    change (StrMap.setAll ((k, v) :: src) dst)
      with (StrMap.setAll src (StrMap.set k v dst)).
    change (StrMap.setAll ((k, w) :: src) dst)
      with (StrMap.setAll src (StrMap.set k w dst)).
    rewrite setAll_set_comm; auto.
    + now rewrite set_set_same.
    + apply keys_set_in; now left.
  - change (StrMap.setAll ((a, w) :: StrMap.set k v src) dst)
      with (StrMap.setAll (StrMap.set k v src) (StrMap.set a w dst)).
    now rewrite IH.
Qed.

(** Setting the entries of a map built by sets is setting the same entries
    one by one. *)
Lemma setAll_setAll {V} (es : list (string * V)) :
  forall src dst,
    NoDup (StrMap.keys src) ->
    StrMap.setAll (StrMap.setAll es src) dst
    = StrMap.setAll es (StrMap.setAll src dst).
Proof.
  induction es as [|[k v] es IH]; intros src dst Hnd; auto.
  change (StrMap.setAll ((k, v) :: es) src)
    with (StrMap.setAll es (StrMap.set k v src)).
  rewrite IH by now apply NoDup_keys_set.
  now rewrite setAll_set.
Qed.

Lemma setAll_app {V} (es es' : list (string * V)) dst :
  StrMap.setAll (es ++ es') dst = StrMap.setAll es' (StrMap.setAll es dst).
Proof. unfold StrMap.setAll; apply fold_left_app. Qed.

Lemma flattenFields_inserts prefix fields :
  Forall (fun kv => forall path, isContainer (snd kv) = true ->
            flatten (snd kv) path
            = StrMap.setAll (entriesOf path (snd kv)) StrMap.empty) fields ->
  forall result,
    flattenFields prefix fields result
    = StrMap.setAll (entriesFields prefix fields) result.
Proof.
  induction 1 as [|[k x] fields Hx _ IH]; intros result; simpl; auto.
  rewrite IH, setAll_app; f_equal; simpl in Hx.
  destruct x; auto.
  - rewrite (Hx _ eq_refl), setAll_setAll; auto; constructor.
  - rewrite (Hx _ eq_refl), setAll_setAll; auto; constructor.
Qed.

Lemma flatten_inserts :
  forall x prefix, isContainer x = true ->
    flatten x prefix = StrMap.setAll (entriesOf prefix x) StrMap.empty.
Proof.
  induction x as [| | | | items IH | fields IH] using json_ind2;
    intros prefix Hc; try discriminate.
  - rewrite flatten_array, flattenItems_indexed, flattenFields_inserts.
    + unfold entriesOf; now rewrite <- (leavesItems_entries prefix items 0).
    + clear Hc; generalize 0; induction IH as [|x items Hx _ IHi]; intros i;
        simpl; constructor; auto.
  - rewrite flatten_object, flattenFields_inserts; auto.
    unfold entriesOf; now rewrite <- (leavesFields_entries prefix fields).
Qed.

Lemma set_entries_in {V} k v k' (v' : V) m :
  In (k, v) (StrMap.set k' v' m) -> (k, v) = (k', v') \/ In (k, v) m.
Proof.
  induction m as [|[a w] m IH]; simpl.
  - intros [H|[]]; auto.
  - destruct (String.eqb k' a) eqn:E; simpl.
    + apply String.eqb_eq in E; subst a.
      intros [H|H]; auto.
    + intros [H|H]; auto. apply IH in H; tauto.
Qed.

Lemma setAll_entries_in {V} k (v : V) es :
  forall m, In (k, v) (StrMap.setAll es m) -> In (k, v) es \/ In (k, v) m.
Proof.
  unfold StrMap.setAll.
  induction es as [|[k' v'] es IH]; intros m; simpl; auto.
  intros H; apply IH in H as [H|H]; auto.
  apply set_entries_in in H as [H|H]; auto.
Qed.

Lemma get_setAll_other {V} k (es : list (string * V)) :
  ~ In k (StrMap.keys es) ->
  forall m, StrMap.get k (StrMap.setAll es m) = StrMap.get k m.
Proof.
  unfold StrMap.setAll.
  induction es as [|[k' v'] es IH]; intros Hk m; simpl in *; auto.
  rewrite IH by tauto.
  apply get_set_other; intros ->; tauto.
Qed.

(** The value kept for a key is that of the last entry set for it. *)
Lemma get_setAll_last {V} k (v : V) es es' m :
  ~ In k (StrMap.keys es') ->
  StrMap.get k (StrMap.setAll (es ++ (k, v) :: es') m) = Some v.
Proof.
  intros Hk; rewrite setAll_app.
  change (StrMap.setAll ((k, v) :: es') (StrMap.setAll es m))
    with (StrMap.setAll es' (StrMap.set k v (StrMap.setAll es m))).
  rewrite get_setAll_other by exact Hk.
  apply get_set_same.
Qed.

(** X1. Flattening an array or an object, whatever its keys, is setting
    the entry of each string leaf into an empty map, in document order. *)
Theorem flatten_sets_leaves_in_order (obj : json) (prefix : string) :
  isContainer obj = true ->
  flatten obj prefix
  = StrMap.setAll (map (fun leaf => (pathFrom prefix (fst leaf), snd leaf))
                       (leaves obj))
                  StrMap.empty.
Proof. intros Hc; now apply flatten_inserts. Qed.

Lemma flatten_sets_leaves_in_order_witness :
  isContainer dottedDoc = true
  /\ flatten dottedDoc ""
     = StrMap.setAll (map (fun leaf => (pathFrom "" (fst leaf), snd leaf))
                          (leaves dottedDoc))
                     StrMap.empty.
Proof.
  split; [reflexivity |].
  apply (flatten_sets_leaves_in_order dottedDoc "" eq_refl).
Defined.

(** X2. The keys of a flattened array or object are exactly the key paths
    of its string leaves: no key is invented, no leaf path is dropped, and
    a number, boolean or [null] gives no key.  The value under a key is
    that of a leaf with this path, the last one in document order when
    several leaves share it. *)
Theorem flatten_keys_are_leaf_paths (obj : json) (prefix : string) :
  isContainer obj = true ->
  (forall k,
     StrMap.has k (flatten obj prefix) = true
     <-> exists pos s, In (pos, s) (leaves obj) /\ pathFrom prefix pos = k)
  /\ (forall k v,
        StrMap.get k (flatten obj prefix) = Some v ->
        exists pos, In (pos, v) (leaves obj) /\ pathFrom prefix pos = k)
  /\ (forall before pos s after,
        leaves obj = before ++ (pos, s) :: after ->
        (forall leaf, In leaf after ->
                      pathFrom prefix (fst leaf) <> pathFrom prefix pos) ->
        StrMap.get (pathFrom prefix pos) (flatten obj prefix) = Some s).
Proof.
  intros Hc; rewrite (flatten_inserts obj prefix Hc); unfold entriesOf.
  split; [| split].
  - intros k; rewrite has_true_iff, keys_setAll_in; unfold StrMap.keys.
    rewrite map_map; simpl; split.
    + intros [H|[]]; apply in_map_iff in H as ([pos s] & <- & Hin); eauto.
    + intros (pos & s & Hin & <-); left.
      apply (in_map (fun leaf => fst (entryOf prefix leaf)) _ _ Hin).
  - intros k v H; apply get_in, setAll_entries_in in H as [H|[]].
    apply in_map_iff in H as ([pos s] & E & Hin); inversion E; subst; eauto.
  - intros before pos s after E Hafter; rewrite E, map_app; simpl.
    apply (get_setAll_last (pathFrom prefix pos) s).
    unfold StrMap.keys; rewrite map_map; intros H.
    apply in_map_iff in H as (leaf & Hk & Hin).
    now apply (Hafter leaf Hin).
Qed.

Lemma flatten_keys_are_leaf_paths_witness :
  isContainer dottedDoc = true
  /\ leaves dottedDoc = [([Field "a.b"], "x")] ++ ([Field "a"; Field "b"], "y") :: []
  /\ StrMap.get (pathFrom "" [Field "a"; Field "b"]) (flatten dottedDoc "") = Some "y".
Proof.
  split; [reflexivity |].
  split; [reflexivity |].
  apply (proj2 (proj2 (flatten_keys_are_leaf_paths dottedDoc "" eq_refl))
           [([Field "a.b"], "x")] [Field "a"; Field "b"] "y" [] eq_refl).
  intros leaf [].
Defined.

(** * More on placeholders *)

Lemma placeholderNames_nodes nodes :
  (fix eachNode (nodes : list MessageFormatElement) : list string :=
     match nodes with
     | [] => []
     | n :: more => placeholderNames n ++ eachNode more
     end) nodes = flat_map placeholderNames nodes.
Proof. induction nodes as [|n nodes IH]; simpl; auto; now rewrite IH. Qed.

Lemma placeholderNames_tag v children :
  placeholderNames (Tag v children)
  = tagId v :: flat_map placeholderNames children.
Proof. simpl; now rewrite placeholderNames_nodes. Qed.

Lemma placeholderNames_options v options :
  placeholderNames (Select v options)
  = v :: flat_map (fun o => flat_map placeholderNames (snd o)) options
  /\ placeholderNames (Plural v options)
     = v :: flat_map (fun o => flat_map placeholderNames (snd o)) options.
Proof.
  simpl.
  assert (H : (fix eachOption (opts : list (string * list MessageFormatElement))
                   : list string :=
                 match opts with
                 | [] => []
                 | (_, sub) :: rest =>
                     (fix eachNode (nodes : list MessageFormatElement)
                          : list string :=
                        match nodes with
                        | [] => []
                        | n :: more => placeholderNames n ++ eachNode more
                        end) sub
                     ++ eachOption rest
                 end) options
              = flat_map (fun o => flat_map placeholderNames (snd o)) options).
  { induction options as [|[c sub] options IH]; simpl; auto.
    now rewrite placeholderNames_nodes, IH. }
  now rewrite H.
Qed.

(** What the walk leaves in the set: what was there and the identifiers of
    the tree. *)
Lemma collectNode_in :
  forall node out ph,
    In ph (collectNode node out) <-> In ph out \/ In ph (placeholderNames node).
Proof.
  assert (Hnodes : forall nodes,
             Forall (fun n => forall out ph,
                       In ph (collectNode n out)
                       <-> In ph out \/ In ph (placeholderNames n)) nodes ->
             forall out ph,
               In ph (collectPlaceholders nodes out)
               <-> In ph out \/ In ph (flat_map placeholderNames nodes)).
  { induction 1 as [|n nodes Hn _ IH]; intros out ph; [simpl; tauto |].
    rewrite collectPlaceholders_cons, IH, Hn; simpl; rewrite in_app_iff; tauto. }
  assert (Hopts : forall options : list (string * list MessageFormatElement),
             Forall (fun o => Forall (fun n => forall out ph,
                       In ph (collectNode n out)
                       <-> In ph out \/ In ph (placeholderNames n)) (snd o))
                    options ->
             forall out ph,
               In ph (fold_left (fun acc o => collectPlaceholders (snd o) acc)
                                options out)
               <-> In ph out
                   \/ In ph (flat_map (fun o => flat_map placeholderNames (snd o))
                                      options)).
  { induction 1 as [|o options Ho _ IH]; intros out ph; simpl; [tauto |].
    rewrite IH, (Hnodes (snd o) Ho), in_app_iff; tauto. }
  induction node as [v | v | v | v | v | v options IH | v options IH | | v children IH]
    using element_ind2; intros out ph;
    try (simpl; rewrite add_in; intuition congruence);
    try (simpl; tauto).
  - rewrite (proj1 (collectNode_options v options out)).
    rewrite (proj1 (placeholderNames_options v options)).
    rewrite (Hopts options IH), add_in; simpl; intuition congruence.
  - rewrite (proj2 (collectNode_options v options out)).
    rewrite (proj2 (placeholderNames_options v options)).
    rewrite (Hopts options IH), add_in; simpl; intuition congruence.
  - rewrite collectNode_tag, placeholderNames_tag.
    rewrite (Hnodes children IH), add_in; simpl; intuition congruence.
Qed.

Lemma collectPlaceholders_in nodes :
  forall out ph,
    In ph (collectPlaceholders nodes out)
    <-> In ph out \/ In ph (flat_map placeholderNames nodes).
Proof.
  induction nodes as [|n nodes IH]; intros out ph; [simpl; tauto |].
  rewrite collectPlaceholders_cons, IH, collectNode_in; simpl.
  rewrite in_app_iff; tauto.
Qed.

Lemma add_NoDup x s : NoDup s -> NoDup (StrSet.add x s).
Proof.
  intros H; unfold StrSet.add, StrSet.has.
  destruct (existsb (String.eqb x) s) eqn:E; auto.
  apply NoDup_app; auto.
  - repeat constructor; simpl; tauto.
  - intros y Hy [Hxy|[]]; subst y.
    assert (existsb (String.eqb x) s = true); [| congruence].
    apply existsb_exists; exists x; split; auto; apply String.eqb_refl.
Qed.

(** The set holds each identifier once. *)
Lemma collectNode_NoDup :
  forall node out, NoDup out -> NoDup (collectNode node out).
Proof.
  assert (Hnodes : forall nodes,
             Forall (fun n => forall out, NoDup out -> NoDup (collectNode n out)) nodes ->
             forall out, NoDup out -> NoDup (collectPlaceholders nodes out)).
  { induction 1 as [|n nodes Hn _ IH]; intros out Hnd; auto.
    rewrite collectPlaceholders_cons; auto. }
  assert (Hopts : forall options : list (string * list MessageFormatElement),
             Forall (fun o => Forall (fun n => forall out, NoDup out ->
                                          NoDup (collectNode n out)) (snd o)) options ->
             forall out, NoDup out ->
               NoDup (fold_left (fun acc o => collectPlaceholders (snd o) acc)
                                options out)).
  { induction 1 as [|o options Ho _ IH]; intros out Hnd; simpl; auto. }
  induction node as [v | v | v | v | v | v options IH | v options IH | | v children IH]
    using element_ind2; intros out Hnd; auto;
    try (simpl; now apply add_NoDup).
  - rewrite (proj1 (collectNode_options v options out)).
    apply Hopts; auto using add_NoDup.
  - rewrite (proj2 (collectNode_options v options out)).
    apply Hopts; auto using add_NoDup.
  - rewrite collectNode_tag; apply Hnodes; auto using add_NoDup.
Qed.

Lemma collectPlaceholders_NoDup nodes :
  forall out, NoDup out -> NoDup (collectPlaceholders nodes out).
Proof.
  induction nodes as [|n nodes IH]; intros out Hnd; auto.
  rewrite collectPlaceholders_cons; apply IH; now apply collectNode_NoDup.
Qed.

(** X3. The set [collectPlaceholders] fills from the empty set holds exactly
    the identifiers the tree refers to, at any depth (names of argument,
    number, date, time, select and plural nodes, and tag identifiers), and
    each of them once, however often and in however many cases it
    occurs; literal text and [#] add nothing. *)
Theorem collectPlaceholders_exact (nodes : list MessageFormatElement) :
  (forall ph,
     In ph (collectPlaceholders nodes StrSet.empty)
     <-> In ph (flat_map placeholderNames nodes))
  /\ NoDup (collectPlaceholders nodes StrSet.empty).
Proof.
  split.
  - intros ph; rewrite collectPlaceholders_in; simpl; tauto.
  - apply collectPlaceholders_NoDup; constructor.
Qed.




(** * The issues of one key *)

Lemma Runs_bind_issues {A B} (c : M A) (f : A -> M B)
    (L1 L2 : list Issue.t) (R1 : A -> Prop) (R2 : B -> Prop) :
  Runs c (fun d => issues d = L1) R1 ->
  (forall a, R1 a -> Runs (f a) (fun d => issues d = L2) R2) ->
  Runs (bind c f) (fun d => issues d = L1 ++ L2) R2.
Proof.
  intros (a & d & Hc & Hd & Ha) Hf.
  destruct (Hf a Ha) as (b & d' & Hfa & Hd' & Hb).
  exists b, (appendLog d d'); split; [now apply Emits_bind with a |].
  split; auto; simpl; now rewrite Hd, Hd'.
Qed.

Lemma Runs_forEach_issues {A} (xs : list A) (body : A -> M unit)
    (f : A -> list Issue.t) :
  (forall x, In x xs -> Runs (body x) (fun d => issues d = f x) (fun _ => True)) ->
  Runs (forEach xs body) (fun d => issues d = List.concat (map f xs))
       (fun _ => True).
Proof.
  induction xs as [|x xs IH]; intros Hb; simpl.
  - exists tt, emptyLog; split; [apply Emits_ret | auto].
  - apply Runs_bind_issues with (R1 := fun _ => True).
    + apply Hb; now left.
    + intros _ _; apply IH; intros y Hy; apply Hb; now right.
Qed.

Lemma Runs_forEach_filter {A} (xs : list A) (body : A -> M unit)
    (p : Issue.t -> bool) (f : A -> list Issue.t) :
  (forall x, In x xs ->
     Runs (body x) (fun d => filter p (issues d) = f x) (fun _ => True)) ->
  Runs (forEach xs body) (fun d => filter p (issues d) = List.concat (map f xs))
       (fun _ => True).
Proof.
  induction xs as [|x xs IH]; intros Hb; simpl.
  - exists tt, emptyLog; split; [apply Emits_ret | auto].
  - apply Runs_bind_filter with (R1 := fun _ => True).
    + apply Hb; now left.
    + intros _ _; apply IH; intros y Hy; apply Hb; now right.
Qed.

Lemma concat_map_guard {A B} (p : A -> bool) (g : A -> B) (xs : list A) :
  List.concat (map (fun x => if p x then [g x] else []) xs) = map g (filter p xs).
Proof.
  induction xs as [|x xs IH]; simpl; auto.
  destruct (p x); simpl; now rewrite IH.
Qed.

Lemma push_annotated isCI i level path message :
  Runs (push i ;; ghAnnotate isCI level path message)
       (fun d => issues d = [i]) (fun _ => True).
Proof.
  change [i] with ([i] ++ []).
  apply Runs_bind_issues with (R1 := fun _ => True).
  - exists tt; eexists; split; [apply Emits_push | auto].
  - intros _ _; unfold ghAnnotate, when; destruct isCI.
    + exists tt; eexists; split; [apply Emits_consoleLog | auto].
    + exists tt, emptyLog; split; [apply Emits_ret | auto].
Qed.

(** The two loops push one issue for each placeholder found on one side
    only. *)
Lemma comparePlaceholders_issues isCI l ns k srcPH tgtPH :
  Runs (comparePlaceholders isCI l ns k srcPH tgtPH)
       (fun d => issues d = placeholderIssues l ns k srcPH tgtPH)
       (fun _ => True).
Proof.
  unfold comparePlaceholders, placeholderIssues.
  apply Runs_bind_issues with (R1 := fun _ => True).
  - rewrite <- concat_map_guard.
    apply Runs_forEach_issues; intros ph _.
    destruct (negb (StrSet.has ph tgtPH)); simpl.
    + apply push_annotated.
    + exists tt, emptyLog; split; [apply Emits_ret | auto].
  - intros _ _; rewrite <- concat_map_guard.
    apply Runs_forEach_issues; intros ph _.
    destruct (negb (StrSet.has ph srcPH)); simpl.
    + apply push_annotated.
    + exists tt, emptyLog; split; [apply Emits_ret | auto].
Qed.

Lemma has_in x s : StrSet.has x s = true <-> In x s.
Proof.
  unfold StrSet.has; rewrite existsb_exists; split.
  - intros (y & Hy & E); apply String.eqb_eq in E; now subst.
  - intros H; exists x; split; auto; apply String.eqb_refl.
Qed.

Lemma filter_nil_iff {A} (p : A -> bool) (l : list A) :
  filter p l = [] <-> forall x, In x l -> p x = false.
Proof.
  induction l as [|x l IH]; simpl; [tauto |].
  destruct (p x) eqn:E; split.
  - discriminate.
  - intros H; rewrite (H x) in E; [discriminate | now left].
  - intros H y [<-|Hy]; auto; now apply IH.
  - intros H; apply IH; auto.
Qed.

Lemma placeholderIssues_nil l ns k srcPH tgtPH :
  placeholderIssues l ns k srcPH tgtPH = []
  <-> forall ph, In ph srcPH <-> In ph tgtPH.
Proof.
  unfold placeholderIssues; split.
  - intros H; apply app_eq_nil in H as [H1 H2].
    apply map_eq_nil in H1, H2.
    rewrite filter_nil_iff in H1, H2.
    intros ph; split; intros Hin.
    + apply H1 in Hin; apply negb_false_iff in Hin; now apply has_in.
    + apply H2 in Hin; apply negb_false_iff in Hin; now apply has_in.
  - intros H.
    assert (H1 : filter (fun ph => negb (StrSet.has ph tgtPH)) srcPH = []).
    { apply filter_nil_iff; intros ph Hin; apply negb_false_iff, has_in.
      now apply H. }
    assert (H2 : filter (fun ph => negb (StrSet.has ph srcPH)) tgtPH = []).
    { apply filter_nil_iff; intros ph Hin; apply negb_false_iff, has_in.
      now apply H. }
    now rewrite H1, H2.
Qed.

(** X5. The placeholder check of a key pushes one error for each
    placeholder of the source that the target lacks and then one for each
    placeholder of the target that the source lacks, all of them errors; it
    pushes nothing exactly when the two sets have the same members. *)
Theorem placeholder_check_passes_iff_same_sets
    (isCI : bool) (l ns k : string) (srcPH tgtPH : StrSet.t) :
  exists d,
    Emits (comparePlaceholders isCI l ns k srcPH tgtPH) tt d
    /\ issues d = placeholderIssues l ns k srcPH tgtPH
    /\ (issues d = [] <-> forall ph, In ph srcPH <-> In ph tgtPH)
    /\ Forall (fun i => Issue.type i = Error) (issues d).
Proof.
  destruct (comparePlaceholders_issues isCI l ns k srcPH tgtPH)
    as ([] & d & Hd & Hi & _).
  exists d; split; [exact Hd |].
  split; [exact Hi |].
  split; [rewrite Hi; apply placeholderIssues_nil |].
  rewrite Hi; unfold placeholderIssues.
  apply Forall_app; split; apply Forall_forall; intros i Hin;
    apply in_map_iff in Hin as (ph & <- & _); reflexivity.
Qed.

Section KeyIssues.

Variable parse : Parser.
Variable isCI : bool.
Variable fs : FileSystem.

(** A turn of the key loop pushes the issues of its case and no other. *)
Lemma checkKey_issues l ns targetKeys n entry :
Runs (checkKey parse isCI l ns targetKeys n entry)
     (fun d => issues d = keyIssues parse l ns targetKeys entry)
     (fun _ => True).
Proof.
assert (Hret : forall (c : M unit) L m,
           Runs c (fun d => issues d = L) (fun _ => True) ->
           Runs (c ;; ret m) (fun d => issues d = L) (fun _ : nat => True)).
{ intros c L m Hc; rewrite <- (app_nil_r L).
  apply Runs_bind_issues with (R1 := fun _ => True); auto.
  intros _ _; exists m, emptyLog; split; [apply Emits_ret | auto]. }
assert (Hpush : forall i m,
           Runs (push i ;; ret m) (fun d => issues d = [i])
                (fun _ : nat => True)).
{ intros i m; apply Hret.
  exists tt; eexists; split; [apply Emits_push | auto]. }
unfold checkKey, keyIssues; cbv zeta.
destruct (StrMap.get (fst entry) targetKeys) as [tv|]; [| apply Hpush].
destruct (Js.eqb (Js.trim tv) ""); [apply Hpush |].
destruct (validateICU parse tv) as [e|].
- destruct (Js.truthy e).
  + change [invalidIssue l ns (fst entry) e]
      with ([invalidIssue l ns (fst entry) e] ++ []).
    apply Runs_bind_issues with (R1 := fun _ => True).
    * exists tt; eexists; split; [apply Emits_push | auto].
    * intros _ _; rewrite <- (app_nil_r []).
      apply Runs_bind_issues with (R1 := fun _ => True).
      -- unfold ghAnnotate, when; destruct isCI.
         ++ exists tt; eexists; split; [apply Emits_consoleLog | auto].
         ++ exists tt, emptyLog; split; [apply Emits_ret | auto].
      -- intros _ _; eexists; exists emptyLog; split; [apply Emits_ret | auto].
  + apply Hret, comparePlaceholders_issues.
- apply Hret, comparePlaceholders_issues.
Qed.

Lemma keyIssues_about l ns targetKeys k v :
Forall (About l ns k) (keyIssues parse l ns targetKeys (k, v)).
Proof.
destruct (checkKey_runs parse isCI l ns targetKeys 0 k v)
  as (a & d & Hd & HA & _).
destruct (checkKey_issues l ns targetKeys 0 (k, v)) as (a' & d' & Hd' & Hi & _).
destruct (Emits_unique _ _ _ _ _ Hd Hd') as [_ ->].
rewrite <- Hi; exact HA.
Qed.

Lemma filter_all {A} (p : A -> bool) (l : list A) :
Forall (fun x => p x = true) l -> filter p l = l.
Proof.
induction 1 as [|x l Hx _ IH]; simpl; auto; now rewrite Hx, IH.
Qed.

Lemma entryEqb_eq a b : entryEqb a b = true <-> a = b.
Proof.
destruct a as [k v], b as [k' v']; unfold entryEqb; simpl.
rewrite andb_true_iff, !String.eqb_eq; split.
- intros [-> ->]; reflexivity.
- intros [= -> ->]; auto.
Qed.

Lemma NoDup_entries {V} (m : StrMap.t V) : NoDup (StrMap.keys m) -> NoDup m.
Proof. unfold StrMap.keys; apply NoDup_map_inv. Qed.

(** The extra keys of a target catalog are not source keys. *)
Lemma extraLoop_runs l ns (sourceKeys : StrMap.t string) keys :
Runs (forEach keys (fun key =>
        when (negb (StrMap.has key sourceKeys))
          (push (Issue.make Error l ns key "Extra key not in source (en-US)") ;;
           ghAnnotate isCI Error (catalogPath l ns) ("Extra key: " +++ key))))
     (AllIssues (fun i => ~ In (Issue.key i) (StrMap.keys sourceKeys)))
     (fun _ => True).
Proof.
apply Runs_forEach; auto with runs; intros x _.
apply Runs_when; auto with runs; intros Hx.
apply negb_true_iff in Hx.
apply Runs_bind with (R1 := fun _ => True); auto with runs.
- apply Runs_push; repeat constructor; simpl.
  intros H; apply has_true_iff in H; congruence.
- intros _ _; apply ghAnnotate_runs.
Qed.

(** In a catalog that loads, the issues about a source key are those of its
  own turn of the key loop. *)
Lemma checkNamespace_key sourceData l c ns k v :
truthy (loadJSON fs l ns) = true ->
In (k, v) (sourceKeysOf sourceData ns) ->
NoDup (StrMap.keys (sourceKeysOf sourceData ns)) ->
Runs (checkNamespace parse isCI fs sourceData l c ns)
     (fun d => filter (aboutb l ns k) (issues d)
               = keyIssues parse l ns (flatten (loadJSON fs l ns) "") (k, v))
     (fun _ => True).
Proof.
intros Hload Hin Hnd.
set (L := keyIssues parse l ns (flatten (loadJSON fs l ns) "") (k, v)).
unfold checkNamespace; rewrite Hload; simpl negb; cbv iota.
cbv zeta.
change L with ([] ++ L).
apply Runs_bind_filter with (R1 := fun _ => True).
- eapply Runs_select_none; [apply extraLoop_runs |].
  intros i Hi; apply aboutb_false; intros (_ & _ & Hk).
  apply Hi; rewrite Hk; unfold StrMap.keys.
  apply in_map_iff; exists (k, v); auto.
- intros _ _.
  rewrite <- (app_nil_r L).
  apply Runs_bind_filter with (R1 := fun _ => True).
  + rewrite <- (concat_map_single entryEqb (k, v) L
                  (sourceKeysOf sourceData ns)
                  entryEqb_eq (NoDup_entries _ Hnd) Hin).
    apply Runs_foldM_filter with (I := fun _ => True); auto.
    intros n [k' v'] Hin' _.
    destruct (entryEqb (k', v') (k, v)) eqn:E.
    * apply entryEqb_eq in E; inversion E; subst k' v'.
      destruct (checkKey_issues l ns (flatten (loadJSON fs l ns) "") n (k, v))
        as (a & d & Hd & Hi & _).
      exists a, d; split; [exact Hd | split; auto].
      rewrite Hi; apply filter_all.
      eapply Forall_impl; [| apply keyIssues_about].
      intros i Hi'; now apply aboutb_true.
    * assert (Hk : k' <> k).
      { intros ->.
        apply (in_get _ _ _ Hnd) in Hin, Hin'.
        rewrite Hin in Hin'; inversion Hin'; subst v'.
        assert (entryEqb (k, v) (k, v) = true) by now apply entryEqb_eq.
        congruence. }
      eapply Runs_select_none; [apply checkKey_runs |].
      intros i (_ & _ & Hi); apply aboutb_false; intros (_ & _ & H).
      congruence.
  + intros n _; eexists; exists emptyLog; split; [apply Emits_ret | auto].
Qed.

(** The key loop only appends issues about source keys. *)
Lemma keyLoop_source_keys l ns targetKeys (sourceKeys : StrMap.t string) n :
Runs (foldM (checkKey parse isCI l ns targetKeys) n sourceKeys)
     (AllIssues (fun i => In (Issue.key i) (StrMap.keys sourceKeys)))
     (fun _ => True).
Proof.
apply Runs_foldM with (I := fun _ => True); auto with runs.
intros acc [k v] Hin _.
eapply Runs_weaken; [apply checkKey_runs | | auto].
unfold AllIssues; intros d Hd; eapply Forall_impl; [| exact Hd].
intros i (_ & _ & ->); unfold StrMap.keys.
apply in_map_iff; exists (k, v); auto.
Qed.

(** In a catalog that loads, a key that the source lacks gets the extra-key
  error and no other issue. *)
Lemma checkNamespace_extra_key sourceData l c ns k :
truthy (loadJSON fs l ns) = true ->
In k (StrMap.keys (flatten (loadJSON fs l ns) "")) ->
StrMap.has k (sourceKeysOf sourceData ns) = false ->
Runs (checkNamespace parse isCI fs sourceData l c ns)
     (fun d => filter (aboutb l ns k) (issues d) = [extraIssue l ns k])
     (fun _ => True).
Proof.
intros Hload Hin Hextra.
unfold checkNamespace; rewrite Hload; simpl negb; cbv iota.
cbv zeta.
change [extraIssue l ns k] with ([extraIssue l ns k] ++ []).
apply Runs_bind_filter with (R1 := fun _ => True).
- rewrite <- (concat_map_single String.eqb k [extraIssue l ns k]
                (StrMap.keys (flatten (loadJSON fs l ns) ""))
                String.eqb_eq (NoDup_keys_flatten _ _) Hin).
  apply Runs_forEach_filter; intros k' _.
  destruct (String.eqb k' k) eqn:E.
  + apply String.eqb_eq in E; subst k'.
    rewrite Hextra; simpl.
    change [extraIssue l ns k] with ([extraIssue l ns k] ++ []).
    apply Runs_bind_filter with (R1 := fun _ => True).
    * exists tt; eexists; split; [apply Emits_push | split; auto].
      simpl; unfold aboutb; simpl; now rewrite !String.eqb_refl.
    * intros _ _; eapply Runs_select_none; [apply ghAnnotate_runs |].
      intros i Hi; exact Hi.
  + apply String.eqb_neq in E.
    eapply Runs_select_none
      with (P := fun i => Issue.key i = k').
    * apply Runs_when; auto with runs; intros _.
      apply Runs_bind with (R1 := fun _ => True); auto with runs.
      -- apply Runs_push; repeat constructor.
      -- intros _ _; apply ghAnnotate_runs.
    * intros i Hi; apply aboutb_false; intros (_ & _ & H); congruence.
- intros _ _.
  rewrite <- (app_nil_r []).
  apply Runs_bind_filter with (R1 := fun _ => True).
  + eapply Runs_select_none; [apply keyLoop_source_keys |].
    intros i Hi; apply aboutb_false; intros (_ & _ & Hk).
    cbv beta in Hi; rewrite Hk in Hi; apply has_true_iff in Hi; congruence.
  + intros n _; eexists; exists emptyLog; split; [apply Emits_ret | auto].
Qed.

Lemma main_about_issues l ns k (L : list Issue.t) :
sourceLoads fs NAMESPACES ->
NoDup (map name (entries fs)) ->
In l (discoverLocales fs) -> In ns NAMESPACES ->
(forall sourceData c,
   holdsSource fs sourceData ->
   Runs (checkNamespace parse isCI fs sourceData l c ns)
        (fun d => filter (aboutb l ns k) (issues d) = L) (fun _ => True)) ->
exists code log,
  main parse isCI fs emptyLog = Exited code log
  /\ filter (aboutb l ns k) (issues log) = L.
Proof.
intros Hok Hnd Hl Hns HL.
apply main_catalog_issues with (l := l) (ns := ns); auto.
intros i Hi; apply aboutb_true in Hi as (H1 & H2 & _); now split.
Qed.

End KeyIssues.

Lemma heroFs_sourceLoads : sourceLoads heroFs NAMESPACES.
Proof.
  intros ns H; simpl in H.
  repeat (destruct H as [<-|H]; [reflexivity |]); destruct H.
Qed.

Lemma main_code_of_error parse isCI fs code log (p : Issue.t -> bool) i :
  sourceLoads fs NAMESPACES -> discoverLocales fs <> [] ->
  main parse isCI fs emptyLog = Exited code log ->
  In i (filter p (issues log)) -> Issue.type i = Error -> code = 1%Z.
Proof.
  intros Hok Hsome Hmain Hin Hty.
  destruct (main_when_targets parse isCI fs Hok Hsome) as (log' & Hmain').
  rewrite Hmain in Hmain'; inversion Hmain'; subst log'.
  apply finalCode_error; exists i; split; auto.
  apply filter_In in Hin; tauto.
Qed.

Lemma main_key_issues parse isCI fs l ns k v :
  truthy (loadJSON fs l ns) = true ->
  sourceLoads fs NAMESPACES ->
  NoDup (map name (entries fs)) ->
  In l (discoverLocales fs) -> In ns NAMESPACES ->
  StrMap.get k (flatten (loadJSON fs SOURCE_LOCALE ns) "") = Some v ->
  exists code log,
    main parse isCI fs emptyLog = Exited code log
    /\ filter (aboutb l ns k) (issues log)
       = keyIssues parse l ns (flatten (loadJSON fs l ns) "") (k, v).
Proof.
  intros Hload Hok Hnd Hl Hns Hk.
  apply main_about_issues; auto.
  intros sd c Hsd; apply checkNamespace_key; auto; rewrite (Hsd ns Hns).
  - now apply get_in.
  - apply NoDup_keys_flatten.
Qed.

(** X6. In a whole run, the issues about a source key in a target catalog
    that loads are those of the key's own check, in the order that check
    pushes them: no other key, namespace or locale adds an issue about it,
    and the source phase and the extra-key loop add none. *)
Theorem source_key_issues_are_its_own
    (parse : Parser) (isCI : bool) (fs : FileSystem) (l ns k v : string) :
  truthy (loadJSON fs l ns) = true ->
  sourceLoads fs NAMESPACES ->
  NoDup (map name (entries fs)) ->
  In l (discoverLocales fs) -> In ns NAMESPACES ->
  StrMap.get k (flatten (loadJSON fs SOURCE_LOCALE ns) "") = Some v ->
  exists code log,
    main parse isCI fs emptyLog = Exited code log
    /\ filter (aboutb l ns k) (issues log)
       = keyIssues parse l ns (flatten (loadJSON fs l ns) "") (k, v).
Proof. apply main_key_issues. Qed.

Lemma source_key_issues_are_its_own_witness :
  exists code log,
    main heroParser false heroFs emptyLog = Exited code log
    /\ filter (aboutb "fr-FR" "game" "win") (issues log)
       = keyIssues heroParser "fr-FR" "game"
           (flatten (loadJSON heroFs "fr-FR" "game") "") ("win", "{hero} wins").
Proof.
  apply (source_key_issues_are_its_own heroParser false heroFs
           "fr-FR" "game" "win" "{hero} wins").
  - reflexivity.
  - exact heroFs_sourceLoads.
  - apply distinctb_NoDup; reflexivity.
  - vm_compute; auto.
  - vm_compute; auto.
  - reflexivity.
Defined.

(** X7. A translation that is blank after trimming, or that the parser
    rejects with a non-empty error text, gets exactly one issue in a whole
    run: the warning [Empty value], or the error [Invalid ICU:] with the
    parser's text, and then the run exits with code 1.  Its placeholders
    are not compared with the source's. *)
Theorem bad_translation_one_issue
    (parse : Parser) (isCI : bool) (fs : FileSystem) (l ns k v tv : string) :
  truthy (loadJSON fs l ns) = true ->
  sourceLoads fs NAMESPACES ->
  NoDup (map name (entries fs)) ->
  In l (discoverLocales fs) -> In ns NAMESPACES ->
  StrMap.get k (flatten (loadJSON fs SOURCE_LOCALE ns) "") = Some v ->
  StrMap.get k (flatten (loadJSON fs l ns) "") = Some tv ->
  exists code log,
    main parse isCI fs emptyLog = Exited code log
    /\ (Js.trim tv = "" ->
        filter (aboutb l ns k) (issues log) = [emptyIssue l ns k]
        /\ Issue.type (emptyIssue l ns k) = Warning)
    /\ (forall err,
          Js.trim tv <> "" ->
          parse tv {| ignoreTag := true |} = inl err -> err <> "" ->
          filter (aboutb l ns k) (issues log) = [invalidIssue l ns k err]
          /\ Issue.type (invalidIssue l ns k err) = Error
          /\ code = 1%Z).
Proof.
  intros Hload Hok Hnd Hl Hns Hk Ht.
  destruct (main_key_issues parse isCI fs l ns k v Hload Hok Hnd Hl Hns Hk)
    as (code & log & Hmain & Hsel).
  exists code, log; split; [exact Hmain |].
  unfold keyIssues in Hsel; simpl fst in Hsel; rewrite Ht in Hsel.
  split.
  - intros Hblank; rewrite Hblank in Hsel; split; [exact Hsel | reflexivity].
  - intros err Hnb Hparse Herr.
    assert (E : Js.eqb (Js.trim tv) "" = false).
    { apply String.eqb_neq; exact Hnb. }
    rewrite E in Hsel.
    unfold validateICU in Hsel; rewrite Hparse in Hsel.
    assert (Htr : Js.truthy err = true).
    { destruct err; [congruence | reflexivity]. }
    rewrite Htr in Hsel; split; [exact Hsel | split; [reflexivity |]].
    apply (main_code_of_error parse isCI fs code log (aboutb l ns k)
             (invalidIssue l ns k err)); auto.
    + intros H; rewrite H in Hl; destruct Hl.
    + rewrite Hsel; now left.
Qed.

Lemma bad_translation_one_issue_witness :
  exists code log,
    main heroParser true heroFs emptyLog = Exited code log
    /\ (Js.trim "{{hero}}" = "" ->
        filter (aboutb "fr-FR" "game" "pick") (issues log)
        = [emptyIssue "fr-FR" "game" "pick"]
        /\ Issue.type (emptyIssue "fr-FR" "game" "pick") = Warning)
    /\ (forall err,
          Js.trim "{{hero}}" <> "" ->
          heroParser "{{hero}}" {| ignoreTag := true |} = inl err -> err <> "" ->
          filter (aboutb "fr-FR" "game" "pick") (issues log)
          = [invalidIssue "fr-FR" "game" "pick" err]
          /\ Issue.type (invalidIssue "fr-FR" "game" "pick" err) = Error
          /\ code = 1%Z).
Proof.
  apply (bad_translation_one_issue heroParser true heroFs
           "fr-FR" "game" "pick" "{hero} wins" "{{hero}}").
  - reflexivity.
  - exact heroFs_sourceLoads.
  - apply distinctb_NoDup; reflexivity.
  - vm_compute; auto.
  - vm_compute; auto.
  - reflexivity.
  - reflexivity.
Defined.

(** X8. A translation that is not blank and that the parser accepts gets, in
    a whole run, one error for each placeholder found on one side only and
    nothing else; it gets no issue at all exactly when it has the same
    placeholders as the source message. *)
Theorem good_translation_silent_iff_same_placeholders
    (parse : Parser) (isCI : bool) (fs : FileSystem) (l ns k v tv : string)
    (nodes : list MessageFormatElement) :
  truthy (loadJSON fs l ns) = true ->
  sourceLoads fs NAMESPACES ->
  NoDup (map name (entries fs)) ->
  In l (discoverLocales fs) -> In ns NAMESPACES ->
  StrMap.get k (flatten (loadJSON fs SOURCE_LOCALE ns) "") = Some v ->
  StrMap.get k (flatten (loadJSON fs l ns) "") = Some tv ->
  Js.trim tv <> "" ->
  parse tv {| ignoreTag := true |} = inr nodes ->
  exists code log,
    main parse isCI fs emptyLog = Exited code log
    /\ filter (aboutb l ns k) (issues log)
       = placeholderIssues l ns k (extractPlaceholders parse v)
           (collectPlaceholders nodes StrSet.empty)
    /\ (filter (aboutb l ns k) (issues log) = []
        <-> forall ph, In ph (extractPlaceholders parse v)
                       <-> In ph (flat_map placeholderNames nodes)).
Proof.
  intros Hload Hok Hnd Hl Hns Hk Ht Hnb Hparse.
  destruct (main_key_issues parse isCI fs l ns k v Hload Hok Hnd Hl Hns Hk)
    as (code & log & Hmain & Hsel).
  exists code, log; split; [exact Hmain |].
  unfold keyIssues in Hsel; simpl fst in Hsel; simpl snd in Hsel.
  rewrite Ht in Hsel.
  assert (E : Js.eqb (Js.trim tv) "" = false).
  { apply String.eqb_neq; exact Hnb. }
  rewrite E in Hsel.
  assert (Hx : extractPlaceholders parse tv = collectPlaceholders nodes StrSet.empty).
  { unfold extractPlaceholders; now rewrite Hparse. }
  unfold validateICU in Hsel; rewrite Hparse, Hx in Hsel.
  split; [exact Hsel |].
  rewrite Hsel, placeholderIssues_nil.
  split; intros H ph; rewrite (H ph).
  - rewrite collectPlaceholders_in; simpl; tauto.
  - rewrite collectPlaceholders_in; simpl; tauto.
Qed.

Lemma good_translation_silent_iff_same_placeholders_witness :
  exists code log,
    main heroParser false heroFs emptyLog = Exited code log
    /\ filter (aboutb "fr-FR" "game" "win") (issues log)
       = placeholderIssues "fr-FR" "game" "win"
           (extractPlaceholders heroParser "{hero} wins")
           (collectPlaceholders [Literal "victoire"] StrSet.empty)
    /\ (filter (aboutb "fr-FR" "game" "win") (issues log) = []
        <-> forall ph, In ph (extractPlaceholders heroParser "{hero} wins")
                       <-> In ph (flat_map placeholderNames [Literal "victoire"])).
Proof.
  apply (good_translation_silent_iff_same_placeholders heroParser false heroFs
           "fr-FR" "game" "win" "{hero} wins" "victoire" [Literal "victoire"]).
  - reflexivity.
  - exact heroFs_sourceLoads.
  - apply distinctb_NoDup; reflexivity.
  - vm_compute; auto.
  - vm_compute; auto.
  - reflexivity.
  - reflexivity.
  - vm_compute; discriminate.
  - reflexivity.
Defined.

(** X9. A key of a target catalog that the source namespace lacks gets, in
    a whole run, exactly one issue: the error [Extra key not in source
    (en-US)]; the run exits with code 1. *)
Theorem extra_key_one_error
    (parse : Parser) (isCI : bool) (fs : FileSystem) (l ns k : string) :
  truthy (loadJSON fs l ns) = true ->
  sourceLoads fs NAMESPACES ->
  NoDup (map name (entries fs)) ->
  In l (discoverLocales fs) -> In ns NAMESPACES ->
  In k (StrMap.keys (flatten (loadJSON fs l ns) "")) ->
  ~ In k (StrMap.keys (flatten (loadJSON fs SOURCE_LOCALE ns) "")) ->
  exists code log,
    main parse isCI fs emptyLog = Exited code log
    /\ filter (aboutb l ns k) (issues log) = [extraIssue l ns k]
    /\ Issue.type (extraIssue l ns k) = Error
    /\ code = 1%Z.
Proof.
  intros Hload Hok Hnd Hl Hns Hk Hnk.
  destruct (main_about_issues parse isCI fs l ns k [extraIssue l ns k])
    as (code & log & Hmain & Hsel); auto.
  - intros sd c Hsd; apply checkNamespace_extra_key; auto.
    rewrite (Hsd ns Hns).
    destruct (StrMap.has k (flatten (loadJSON fs SOURCE_LOCALE ns) "")) eqn:E; auto.
    apply has_true_iff in E; tauto.
  - exists code, log; split; [exact Hmain |].
    split; [exact Hsel |]; split; [reflexivity |].
    apply (main_code_of_error parse isCI fs code log (aboutb l ns k)
             (extraIssue l ns k)); auto.
    + intros H; rewrite H in Hl; destruct Hl.
    + rewrite Hsel; now left.
Qed.

Lemma extra_key_one_error_witness :
  exists code log,
    main heroParser true heroFs emptyLog = Exited code log
    /\ filter (aboutb "fr-FR" "game" "bonus") (issues log)
       = [extraIssue "fr-FR" "game" "bonus"]
    /\ Issue.type (extraIssue "fr-FR" "game" "bonus") = Error
    /\ code = 1%Z.
Proof.
  apply (extra_key_one_error heroParser true heroFs "fr-FR" "game" "bonus").
  - reflexivity.
  - exact heroFs_sourceLoads.
  - apply distinctb_NoDup; reflexivity.
  - vm_compute; auto.
  - vm_compute; auto.
  - vm_compute; auto.
  - vm_compute; intuition discriminate.
Defined.

(** * The target locales *)











(** * The coverage table *)

Lemma validate_coverage parse isCI fs coverage log :
  validate parse isCI fs emptyLog = Return coverage log ->
  forall l,
    (In l (discoverLocales fs) ->
     StrMap.get l coverage
     = Some {| total := list_sum (map (sourceKeyCount fs) NAMESPACES);
               translated := list_sum (map (translatedKeys fs l) NAMESPACES) |})
    /\ (~ In l (discoverLocales fs) -> StrMap.get l coverage = None).
Proof.
  intros Hval.
  destruct (validate_returns parse isCI fs coverage log Hval) as (Hok & Hne & _).
  destruct (source_phase parse isCI fs Hok) as (sd & d & Hd & _ & Hsd).
  destruct (checkLocales_runs parse isCI fs sd (discoverLocales fs) StrMap.empty)
    as (cov & d' & Hd' & _ & Hcov).
  rewrite (validate_targets parse isCI fs sd d cov d' Hd Hne Hd') in Hval.
  inversion Hval; subst.
  intros l; destruct (Hcov l) as [H1 H2]; split.
  - intros Hl; rewrite H1; auto; now rewrite countersOf_holdsSource.
  - intros Hl; rewrite H2; auto.
Qed.

Lemma list_sum_le {A} (f g : A -> nat) (l : list A) :
  (forall x, In x l -> f x <= g x) ->
  list_sum (map f l) <= list_sum (map g l).
Proof.
  induction l as [|x l IH]; intros H; simpl; auto.
  assert (f x <= g x) by (apply H; now left).
  assert (list_sum (map f l) <= list_sum (map g l))
    by (apply IH; intros y Hy; apply H; now right).
  lia.
Qed.

Lemma translatedKeys_le fs l ns : translatedKeys fs l ns <= sourceKeyCount fs ns.
Proof.
  unfold translatedKeys, sourceKeyCount, present, StrMap.size.
  destruct (truthy (loadJSON fs l ns)); [apply filter_length_le | lia].
Qed.

(** X11. When the run reaches the report, the coverage table has a row for
    each target locale and for nothing else, every row has the same
    [total], the number of source keys of the five namespaces, and in every
    row [translated] is at most [total]. *)
Theorem coverage_rows_bounded
    (parse : Parser) (isCI : bool) (fs : FileSystem)
    (coverage : StrMap.t Coverage) (log : Log) :
  validate parse isCI fs emptyLog = Return coverage log ->
  (forall l, In l (StrMap.keys coverage) <-> In l (discoverLocales fs))
  /\ forall l c, StrMap.get l coverage = Some c ->
       total c = list_sum (map (sourceKeyCount fs) NAMESPACES)
       /\ translated c <= total c.
Proof.
  intros Hval; split.
  - intros l; destruct (validate_coverage parse isCI fs coverage log Hval l)
      as [H1 H2].
    destruct (in_dec string_dec l (discoverLocales fs)) as [Hl|Hl].
    + split; auto; intros _.
      apply has_true_iff; unfold StrMap.has; now rewrite (H1 Hl).
    + split; [| tauto]; intros Hin.
      apply H2 in Hl; apply get_none_iff in Hl; tauto.
  - intros l c Hc.
    destruct (validate_coverage parse isCI fs coverage log Hval l) as [H1 H2].
    destruct (in_dec string_dec l (discoverLocales fs)) as [Hl|Hl].
    + rewrite (H1 Hl) in Hc; injection Hc as <-.
      split; [reflexivity |].
      apply (list_sum_le (translatedKeys fs l) (sourceKeyCount fs) NAMESPACES).
      intros ns _; apply translatedKeys_le.
    + rewrite (H2 Hl) in Hc; discriminate.
Qed.

Lemma coverage_rows_bounded_witness :
  exists coverage log,
    validate heroParser false heroFs emptyLog = Return coverage log
    /\ (forall l, In l (StrMap.keys coverage) <-> In l (discoverLocales heroFs))
    /\ forall l c, StrMap.get l coverage = Some c ->
         total c = list_sum (map (sourceKeyCount heroFs) NAMESPACES)
         /\ translated c <= total c.
Proof.
  eexists; eexists; split; [vm_compute; reflexivity |].
  eapply (coverage_rows_bounded heroParser false heroFs).
  vm_compute; reflexivity.
Defined.

(** * Annotations *)

Section Annotations.

Variable parse : Parser.
Variable isCI : bool.
Variable fs : FileSystem.

Lemma Closed_Annotated : Closed (Annotated isCI).
Proof.
unfold Annotated; split.
- split; auto; destruct isCI; simpl; auto.
- intros a b [Ha1 Ha2] [Hb1 Hb2]; simpl; rewrite Ha1, Hb1; split; auto.
  destruct isCI.
  + rewrite filter_app; now apply Forall2_app.
  + now rewrite Ha2, Hb2.
Qed.

Lemma Runs_both {A} (c : M A) Q1 Q2 (R1 R2 : A -> Prop) :
Runs c Q1 R1 -> Runs c Q2 R2 ->
Runs c (fun d => Q1 d /\ Q2 d) (fun a => R1 a /\ R2 a).
Proof.
intros (a & d & Hd & HQ & HR) (a' & d' & Hd' & HQ' & HR').
destruct (Emits_unique c a d a' d' Hd Hd') as [<- <-].
exists a, d; auto.
Qed.

Lemma error_annotated l ns k m text :
Runs (push (Issue.make Error l ns k m) ;;
      ghAnnotate isCI Error (catalogPath l ns) text)
     (Annotated isCI) (fun _ => True).
Proof.
unfold ghAnnotate, when; destruct isCI.
- exists tt; eexists; split.
  + apply Emits_bind with tt; [apply Emits_push | apply Emits_consoleLog].
  + split; auto; split; simpl; auto.
    constructor; [| constructor]; now exists text.
- exists tt; eexists; split.
  + apply Emits_bind with tt; [apply Emits_push | apply Emits_ret].
  + split; auto; split; simpl; auto.
Qed.

Lemma warning_not_annotated l ns k m :
Runs (push (Issue.make Warning l ns k m)) (Annotated isCI) (fun _ => True).
Proof.
apply Runs_push; split; simpl; auto; destruct isCI; simpl; auto.
Qed.

Lemma comparePlaceholders_annotated l ns k srcPH tgtPH :
Runs (comparePlaceholders isCI l ns k srcPH tgtPH) (Annotated isCI)
     (fun _ => True).
Proof.
unfold comparePlaceholders.
apply Runs_bind with (R1 := fun _ => True); [apply Closed_Annotated | |].
- apply Runs_forEach; [apply Closed_Annotated |]; intros ph _.
  apply Runs_when; [apply Closed_Annotated |]; intros _; apply error_annotated.
- intros _ _.
  apply Runs_forEach; [apply Closed_Annotated |]; intros ph _.
  apply Runs_when; [apply Closed_Annotated |]; intros _; apply error_annotated.
Qed.

Lemma then_ret_annotated {A} (c : M unit) (a : A) :
Runs c (Annotated isCI) (fun _ => True) ->
Runs (c ;; ret a) (Annotated isCI) (fun _ => True).
Proof.
intros H.
apply Runs_bind with (R1 := fun _ => True); [apply Closed_Annotated | auto |].
intros _ _; apply Runs_ret; [apply Closed_Annotated | auto].
Qed.

Lemma bind_assoc {A B C} (c : M A) (f : A -> M B) (g : B -> M C) log :
bind c (fun a => bind (f a) g) log = bind (bind c f) g log.
Proof. unfold bind; destruct (c log); auto. Qed.

Lemma Runs_ext {A} (c c' : M A) Q R :
(forall log, c log = c' log) -> Runs c' Q R -> Runs c Q R.
Proof.
intros H (a & d & Hd & HQ); exists a, d; split; auto.
intros log; rewrite H; apply Hd.
Qed.

Lemma checkKey_annotated l ns targetKeys n entry :
Runs (checkKey parse isCI l ns targetKeys n entry) (Annotated isCI)
     (fun _ => True).
Proof.
unfold checkKey; cbv zeta.
destruct (StrMap.get (fst entry) targetKeys) as [tv|];
  [| apply then_ret_annotated, warning_not_annotated].
destruct (Js.eqb (Js.trim tv) "");
  [apply then_ret_annotated, warning_not_annotated |].
assert (Hc : Runs (comparePlaceholders isCI l ns (fst entry)
                     (extractPlaceholders parse (snd entry))
                     (extractPlaceholders parse tv) ;; ret (S n))
                  (Annotated isCI) (fun _ => True)).
{ apply then_ret_annotated, comparePlaceholders_annotated. }
destruct (validateICU parse tv) as [e|]; auto.
destruct (Js.truthy e); auto.
eapply Runs_ext; [intros log; apply bind_assoc |].
apply then_ret_annotated, error_annotated.
Qed.

Lemma checkNamespace_annotated sourceData l c ns :
Runs (checkNamespace parse isCI fs sourceData l c ns) (Annotated isCI)
     (fun _ => True).
Proof.
unfold checkNamespace; cbv zeta.
destruct (truthy (loadJSON fs l ns)); simpl negb; cbv iota.
- apply Runs_bind with (R1 := fun _ => True); [apply Closed_Annotated | |].
  + apply Runs_forEach; [apply Closed_Annotated |]; intros k _.
    apply Runs_when; [apply Closed_Annotated |]; intros _; apply error_annotated.
  + intros _ _.
    apply Runs_bind with (R1 := fun _ => True); [apply Closed_Annotated | |].
    * apply Runs_foldM with (I := fun _ => True); auto;
        [apply Closed_Annotated |].
      intros n entry _ _; apply checkKey_annotated.
    * intros n _; apply Runs_ret; [apply Closed_Annotated | auto].
- eapply Runs_ext; [intros log; apply bind_assoc |].
  apply then_ret_annotated, error_annotated.
Qed.

Lemma checkLocales_annotated sourceData locales :
Runs (checkLocales parse isCI fs sourceData locales) (Annotated isCI)
     (fun _ => True).
Proof.
unfold checkLocales.
apply Runs_foldM with (I := fun _ => True); auto; [apply Closed_Annotated |].
intros cov l _ _.
apply Runs_bind with (R1 := fun _ => True); [apply Closed_Annotated | |].
- unfold checkLocale.
  apply Runs_foldM with (I := fun _ => True); auto; [apply Closed_Annotated |].
  intros c ns _ _; apply checkNamespace_annotated.
- intros c _; apply Runs_ret; [apply Closed_Annotated | auto].
Qed.

Lemma filter_ext_Forall {A} (p q : A -> bool) (l : list A) :
Forall (fun x => p x = q x) l -> filter p l = filter q l.
Proof.
induction 1 as [|x l Hx _ IH]; simpl; auto; now rewrite Hx, IH.
Qed.

Lemma validate_annotated coverage log :
validate parse isCI fs emptyLog = Return coverage log ->
stderr log = []
/\ if isCI then Forall2 annotates (stdout log) (filter isTargetError (issues log))
   else stdout log = [].
Proof.
intros Hval.
destruct (validate_returns parse isCI fs coverage log Hval) as (Hok & Hne & _).
destruct (source_phase parse isCI fs Hok) as (sd & d & Hd & [HA [Ho He]] & _).
destruct (Runs_both _ _ _ _ _
            (checkLocales_runs parse isCI fs sd (discoverLocales fs) StrMap.empty)
            (checkLocales_annotated sd (discoverLocales fs)))
  as (cov & d' & Hd' & [HL [He' Ho']] & _).
rewrite (validate_targets parse isCI fs sd d cov d' Hd Hne Hd') in Hval.
inversion Hval; subst; simpl.
rewrite He, He', Ho; split; auto; simpl.
destruct isCI; auto.
rewrite filter_app.
assert (H1 : filter isTargetError (issues d) = []).
{ apply filter_none; eapply Forall_impl; [| exact HA].
  intros i [Hi _]; unfold isTargetError; rewrite Hi.
  apply andb_false_iff; right; reflexivity. }
assert (H2 : filter isTargetError (issues d') = filter (isType Error) (issues d')).
{ apply filter_ext_Forall; eapply Forall_impl; [| exact HL].
  intros i Hi; unfold isTargetError.
  destruct (String.eqb (Issue.locale i) SOURCE_LOCALE) eqn:E.
  - apply String.eqb_eq in E; cbv beta in Hi; rewrite E in Hi.
    apply discoverLocales_in in Hi as [Hi _]; congruence.
  - apply andb_true_r. }
now rewrite H1, H2.
Qed.

End Annotations.

(** X12. When the run reaches the report, nothing has been written to the
    error stream; outside CI nothing has been printed at all; and in CI the
    lines printed are, in order, one [::error] annotation for each error
    issue of a target locale, naming the catalog file of that issue.
    Warnings and the errors of the source locale are never annotated. *)
Theorem annotations_match_target_errors
    (parse : Parser) (isCI : bool) (fs : FileSystem)
    (coverage : StrMap.t Coverage) (log : Log) :
  validate parse isCI fs emptyLog = Return coverage log ->
  stderr log = []
  /\ (isCI = false -> stdout log = [])
  /\ (isCI = true ->
      Forall2 annotates (stdout log) (filter isTargetError (issues log))
      /\ List.length (stdout log)
         = List.length (filter isTargetError (issues log))).
Proof.
  intros Hval.
  destruct (validate_annotated parse isCI fs coverage log Hval) as [He Ho].
  split; auto; split; intros ->; auto.
  split; auto; eapply Forall2_length; eauto.
Qed.

Lemma annotations_match_target_errors_witness :
  exists coverage log,
    validate heroParser true heroFs emptyLog = Return coverage log
    /\ stderr log = []
    /\ (true = false -> stdout log = [])
    /\ (true = true ->
        Forall2 annotates (stdout log) (filter isTargetError (issues log))
        /\ List.length (stdout log)
           = List.length (filter isTargetError (issues log))).
Proof.
  eexists; eexists; split; [vm_compute; reflexivity |].
  eapply (annotations_match_target_errors heroParser true heroFs).
  vm_compute; reflexivity.
Defined.

(** * The issue list of a run *)

Lemma Runs_foldM_issues {A B} (body : B -> A -> M B)
    (f : A -> list Issue.t) (I : B -> Prop) (xs : list A) :
  (forall acc x, In x xs -> I acc ->
     Runs (body acc x) (fun d => issues d = f x) I) ->
  forall acc, I acc ->
    Runs (foldM body acc xs) (fun d => issues d = List.concat (map f xs)) I.
Proof.
  induction xs as [|x xs IH]; intros Hb acc Hacc; simpl.
  - exists acc, emptyLog; split; [apply Emits_ret | auto].
  - apply Runs_bind_issues with (R1 := I).
    + apply Hb; auto; now left.
    + intros a Ha; apply IH; auto.
      intros acc' y Hy; apply Hb; now right.
Qed.

Lemma Runs_ret_issues {A} (c : M unit) (a : A) L :
  Runs c (fun d => issues d = L) (fun _ => True) ->
  Runs (c ;; ret a) (fun d => issues d = L) (fun _ => True).
Proof.
  intros Hc; rewrite <- (app_nil_r L).
  apply Runs_bind_issues with (R1 := fun _ => True); auto.
  intros _ _; exists a, emptyLog; split; [apply Emits_ret | auto].
Qed.

Section IssueList.

Variable parse : Parser.
Variable isCI : bool.
Variable fs : FileSystem.

Lemma loadSource_issues sourceData ns :
truthy (loadJSON fs SOURCE_LOCALE ns) = true ->
Runs (loadSource parse isCI fs sourceData ns)
     (fun d => issues d
               = List.concat (map (sourceIssuesOf parse ns)
                                  (flatten (loadJSON fs SOURCE_LOCALE ns) "")))
     (fun _ => True).
Proof.
intros Hload; unfold loadSource; rewrite Hload; simpl negb; cbv iota.
cbv zeta.
apply Runs_ret_issues, Runs_forEach_issues; intros kv _.
unfold sourceIssuesOf; destruct (validateICU parse (snd kv)) as [e|].
- destruct (Js.truthy e); simpl.
  + exists tt; eexists; split; [apply Emits_push | auto].
  + exists tt, emptyLog; split; [apply Emits_ret | auto].
- exists tt, emptyLog; split; [apply Emits_ret | auto].
Qed.

Lemma sourceLoop_issues :
sourceLoads fs NAMESPACES ->
Runs (foldM (loadSource parse isCI fs) StrMap.empty NAMESPACES)
     (fun d => issues d = sourceIssues parse fs) (fun _ => True).
Proof.
intros Hok; unfold sourceIssues.
apply Runs_foldM_issues with (I := fun _ => True); auto.
intros sd ns Hns _; apply loadSource_issues, Hok, Hns.
Qed.

Lemma extraLoop_issues l ns (sourceKeys : StrMap.t string) keys :
Runs (forEach keys (fun key =>
        when (negb (StrMap.has key sourceKeys))
          (push (Issue.make Error l ns key "Extra key not in source (en-US)") ;;
           ghAnnotate isCI Error (catalogPath l ns) ("Extra key: " +++ key))))
     (fun d => issues d
               = map (extraIssue l ns)
                     (filter (fun k => negb (StrMap.has k sourceKeys)) keys))
     (fun _ => True).
Proof.
rewrite <- concat_map_guard.
apply Runs_forEach_issues; intros k _.
destruct (negb (StrMap.has k sourceKeys)); simpl.
- apply push_annotated.
- exists tt, emptyLog; split; [apply Emits_ret | auto].
Qed.




Lemma main_no_targets :
sourceLoads fs NAMESPACES -> discoverLocales fs = [] ->
exists log,
  main parse isCI fs emptyLog = Exited 0 log
  /\ issues log = sourceIssues parse fs
  /\ stdout log = [yellow isCI "No target locales found."]
  /\ stderr log = [].
Proof.
intros Hok Hnone.
destruct (source_phase parse isCI fs Hok) as (sd & d & Hd & [_ [Ho He]] & _).
destruct (sourceLoop_issues Hok) as (sd' & d0 & Hd0 & Hi & _).
destruct (Emits_unique _ _ _ _ _ Hd Hd0) as [<- <-].
eexists; split.
- apply main_exited, (validate_no_targets parse isCI fs sd d Hd Hnone).
- simpl; rewrite Hi, Ho, He, app_nil_r; auto.
Qed.

End IssueList.



(** X14. With the source locale loaded and no target locale, the run prints
    the one line [No target locales found.], skips the report and exits
    with code 0, whatever the source catalogs hold: the errors of source
    messages that the parser rejects are in the issue list but are neither
    printed nor reflected in the exit code. *)
Theorem no_target_locales_exits_zero
    (parse : Parser) (isCI : bool) (fs : FileSystem) :
  sourceLoads fs NAMESPACES -> discoverLocales fs = [] ->
  exists log,
    main parse isCI fs emptyLog = Exited 0 log
    /\ issues log = sourceIssues parse fs
    /\ stdout log = [yellow isCI "No target locales found."]
    /\ stderr log = [].
Proof. apply main_no_targets. Qed.

Lemma lonelyFs_sourceLoads : sourceLoads lonelyFs NAMESPACES.
Proof.
  intros ns H; simpl in H.
  repeat (destruct H as [<-|H]; [reflexivity |]); destruct H.
Qed.

Lemma no_target_locales_exits_zero_witness :
  exists log,
    main heroParser false lonelyFs emptyLog = Exited 0 log
    /\ issues log = sourceIssues heroParser lonelyFs
    /\ stdout log = [yellow false "No target locales found."]
    /\ stderr log = [].
Proof.
  apply (no_target_locales_exits_zero heroParser false lonelyFs).
  - exact lonelyFs_sourceLoads.
  - reflexivity.
Defined.

(** * Catalogs that are not objects *)

Lemma checkNamespace_loaded_issues parse isCI fs sourceData l c ns :
  truthy (loadJSON fs l ns) = true ->
  Runs (checkNamespace parse isCI fs sourceData l c ns)
       (fun d => issues d
                 = extraIssues l ns (sourceKeysOf sourceData ns)
                     (flatten (loadJSON fs l ns) "")
                   ++ List.concat (map (keyIssues parse l ns
                                          (flatten (loadJSON fs l ns) ""))
                                       (sourceKeysOf sourceData ns)))
       (fun _ => True).
Proof.
  intros E; unfold checkNamespace; cbv zeta; rewrite E.
  simpl negb; cbv iota.
  apply Runs_bind_issues with (R1 := fun _ => True);
    [apply extraLoop_issues |].
  intros _ _.
  rewrite <- (app_nil_r (List.concat _)).
  apply Runs_bind_issues with (R1 := fun _ => True).
  - apply Runs_foldM_issues with (I := fun _ => True); auto.
    intros n entry _ _; apply checkKey_issues.
  - intros n _; eexists; exists emptyLog; split; [apply Emits_ret | auto].
Qed.

Lemma flatten_not_container obj prefix :
  isContainer obj = false -> flatten obj prefix = StrMap.empty.
Proof. destruct obj; simpl; auto; discriminate. Qed.

Lemma keyIssues_empty parse l ns (m : StrMap.t string) :
  List.concat (map (keyIssues parse l ns StrMap.empty) m)
  = map (missingIssue l ns) (StrMap.keys m).
Proof.
  induction m as [|[k v] m IH]; simpl; auto.
  now rewrite IH.
Qed.

(** X15. A target catalog that holds valid JSON which is truthy but is
    neither an object nor an array (a string, a non-zero number, [true])
    is not reported as a file error: its turn of the namespace loop pushes
    one [Missing translation] warning for each source key of the namespace,
    in order, and nothing else, prints nothing, adds the source keys to
    [total] and leaves [translated] as it was. *)
Theorem non_object_catalog_all_missing
    (parse : Parser) (isCI : bool) (fs : FileSystem)
    (sourceData : StrMap.t (StrMap.t string)) (l : string) (c : Coverage)
    (ns : string) :
  truthy (loadJSON fs l ns) = true ->
  isContainer (loadJSON fs l ns) = false ->
  exists d,
    Emits (checkNamespace parse isCI fs sourceData l c ns)
          {| total := total c + StrMap.size (sourceKeysOf sourceData ns);
             translated := translated c |} d
    /\ issues d = map (missingIssue l ns) (StrMap.keys (sourceKeysOf sourceData ns))
    /\ stdout d = [] /\ stderr d = [].
Proof.
  intros Ht Hc.
  pose proof (flatten_not_container _ "" Hc) as Hflat.
  destruct (Runs_both _ _ _ _ _
              (checkNamespace_runs parse isCI fs sourceData l c ns)
              (Runs_both _ _ _ _ _
                 (checkNamespace_loaded_issues parse isCI fs sourceData l c ns Ht)
                 (checkNamespace_annotated parse isCI fs sourceData l c ns)))
    as (c' & d & Hd & (_ & Hi & He & Ho) & (Htot & Htr) & _).
  assert (Hi' : issues d
                = map (missingIssue l ns) (StrMap.keys (sourceKeysOf sourceData ns))).
  { rewrite Hi, Hflat; unfold extraIssues; simpl; apply keyIssues_empty. }
  assert (Hc' : c' = {| total := total c + StrMap.size (sourceKeysOf sourceData ns);
                        translated := translated c |}).
  { destruct c' as [t r]; simpl in *; f_equal; auto.
    rewrite Htr; unfold translatedIn; rewrite Ht, Hflat.
    unfold present.
    assert (H0 : filter (fun kv : string * string =>
                           StrMap.has (fst kv) (StrMap.empty : StrMap.t string))
                        (sourceKeysOf sourceData ns) = []).
    { apply filter_nil_iff; intros; reflexivity. }
    rewrite H0; simpl; lia. }
  exists d; subst c'; split; [exact Hd |].
  split; [exact Hi' |]; split; auto.
  destruct isCI; auto.
  assert (Hf : filter (isType Error) (issues d) = []).
  { rewrite Hi'; apply filter_nil_iff; intros i Hin.
    apply in_map_iff in Hin as (k & <- & _); reflexivity. }
  rewrite Hf in Ho; inversion Ho; reflexivity.
Qed.

Lemma non_object_catalog_all_missing_witness :
  exists d,
    Emits (checkNamespace heroParser true scalarFs
             (StrMap.set "game" (flatten (loadJSON scalarFs SOURCE_LOCALE "game") "")
                         StrMap.empty)
             "de-DE" {| total := 0; translated := 0 |} "game")
          {| total := 0 + StrMap.size
                            (sourceKeysOf
                               (StrMap.set "game"
                                  (flatten (loadJSON scalarFs SOURCE_LOCALE "game") "")
                                  StrMap.empty) "game");
             translated := 0 |} d
    /\ issues d
       = map (missingIssue "de-DE" "game")
             (StrMap.keys
                (sourceKeysOf
                   (StrMap.set "game"
                      (flatten (loadJSON scalarFs SOURCE_LOCALE "game") "")
                      StrMap.empty) "game"))
    /\ stdout d = [] /\ stderr d = [].
Proof.
  apply (non_object_catalog_all_missing heroParser true scalarFs
           (StrMap.set "game" (flatten (loadJSON scalarFs SOURCE_LOCALE "game") "")
                       StrMap.empty)
           "de-DE" {| total := 0; translated := 0 |} "game").
  - reflexivity.
  - reflexivity.
Defined.

(** * The closing line of the report *)

Lemma ofNat_head n :
  exists d r, Js.ofNat n = String d r /\ d <> "A"%char.
Proof.
  pose proof (to_uint_nonnil n) as H.
  unfold Js.ofNat, NilZero.string_of_uint.
  destruct (Nat.to_uint n); try congruence; simpl;
    eexists; eexists; (split; [reflexivity | discriminate]).
Qed.

Section ReportLines.

Variable isCI : bool.

Lemma Closed_NotPassed : Closed (NotPassed isCI).
Proof.
unfold NotPassed; split; [constructor |].
intros a b Ha Hb; simpl; apply Forall_app; now split.
Qed.

Lemma Runs_line s :
s <> passedLine isCI -> Runs (consoleLog s) (NotPassed isCI) (fun _ => True).
Proof. intros H; apply Runs_consoleLog; repeat constructor; exact H. Qed.

Lemma Runs_bind_ends {A B} (c : M A) (f : A -> M B) t :
Runs c (NotPassed isCI) (fun _ => True) ->
(forall a, Runs (f a) (Ends isCI t) (fun _ => True)) ->
Runs (bind c f) (Ends isCI t) (fun _ => True).
Proof.
intros (a & d & Hc & Hd & _) Hf.
destruct (Hf a) as (b & d' & Hfa & (pre & Hpre & Hne) & _).
exists b, (appendLog d d'); split; [now apply Emits_bind with a |].
split; auto; exists (stdout d ++ pre); simpl.
rewrite Hpre, app_assoc; split; auto.
apply Forall_app; now split.
Qed.

Lemma numbered_differs (color : string -> string) n rest :
(color = red isCI \/ color = yellow isCI) ->
bold isCI (color (NL +++ "  " +++ Js.ofNat n +++ rest)) <> passedLine isCI.
Proof.
destruct (ofNat_head n) as (d & r & -> & Hd).
intros [-> | ->]; unfold passedLine, bold, red, yellow, green, paint;
  destruct isCI; simpl; congruence.
Qed.

Lemma report_ends coverage all :
Runs (report isCI coverage all)
     (Ends isCI (if List.length (filter (isType Error) all) =? 0
                 then [passedLine isCI] else []))
     (fun _ => True).
Proof.
assert (Hpaint : forall code s,
           In code ["31"; "33"; "2"] ->
           paint isCI code (" " +++ s) <> passedLine isCI).
{ intros code s Hc; unfold passedLine, green, bold, paint.
  destruct isCI; simpl; [discriminate |].
  destruct Hc as [<-|[<-|[<-|[]]]]; simpl; discriminate. }
unfold report; cbv zeta.
apply Runs_bind_ends.
{ apply Runs_line; unfold passedLine, green, bold, paint.
  destruct isCI; simpl; discriminate. }
intros _; apply Runs_bind_ends.
{ apply Runs_line; unfold passedLine, green, bold, paint.
  destruct isCI; simpl; discriminate. }
intros _; apply Runs_bind_ends.
{ apply Runs_line; unfold passedLine, green, bold, paint.
  destruct isCI; simpl; discriminate. }
intros _; apply Runs_bind_ends.
{ apply Runs_forEach; [apply Closed_NotPassed |]; intros row _.
  apply Runs_line; unfold coverageRow, passedLine, green, bold, paint.
  destruct isCI; simpl; discriminate. }
intros _; apply Runs_bind_ends.
{ apply Runs_when; [apply Closed_NotPassed |]; intros _.
  apply Runs_bind with (R1 := fun _ => True); [apply Closed_NotPassed | |].
  - apply Runs_line, numbered_differs; now left.
  - intros _ _.
    apply Runs_forEach; [apply Closed_NotPassed |]; intros issue _.
    apply Runs_bind with (R1 := fun _ => True); [apply Closed_NotPassed | |].
    + apply Runs_line, Hpaint; simpl; auto.
    + intros _ _; apply Runs_line; unfold passedLine, green, bold, paint.
      destruct isCI; simpl; discriminate. }
intros _; apply Runs_bind_ends.
{ apply Runs_when; [apply Closed_NotPassed |]; intros _; cbv zeta.
  apply Runs_bind with (R1 := fun _ => True); [apply Closed_NotPassed | |].
  - apply Runs_line, numbered_differs; now right.
  - intros _ _.
    apply Runs_bind with (R1 := fun _ => True); [apply Closed_NotPassed | |].
    + apply Runs_when; [apply Closed_NotPassed |]; intros _.
      apply Runs_bind with (R1 := fun _ => True); [apply Closed_NotPassed | |].
      * apply Runs_line, Hpaint; simpl; auto.
      * intros _ _.
        apply Runs_bind with (R1 := fun _ => True); [apply Closed_NotPassed | |].
        -- apply Runs_forEach; [apply Closed_NotPassed |]; intros w _.
           apply Runs_line, Hpaint; simpl; auto.
        -- intros _ _.
           apply Runs_when; [apply Closed_NotPassed |]; intros _.
           apply Runs_line, Hpaint; simpl; auto.
    + intros _ _.
      apply Runs_when; [apply Closed_NotPassed |]; intros _.
      apply Runs_line, Hpaint; simpl; auto. }
intros _.
destruct (List.length (filter (isType Error) all) =? 0); simpl.
- exists tt; eexists; split; [apply Emits_consoleLog |].
  split; auto; exists []; split; auto.
- exists tt, emptyLog; split; [apply Emits_ret |].
  split; auto; exists []; split; auto.
Qed.

End ReportLines.

Lemma main_with_report parse isCI fs coverage d d' :
  validate parse isCI fs emptyLog = Return coverage d ->
  Emits (report isCI coverage (issues d)) tt d' ->
  main parse isCI fs emptyLog = Exited (finalCode (issues d)) (appendLog d d').
Proof.
  intros Hval Hrep; unfold main, bind; rewrite Hval.
  unfold getIssues; rewrite (Hrep d); reflexivity.
Qed.

Lemma annotation_not_passed line i : annotates line i -> line <> passedLine true.
Proof. intros (m & ->); unfold passedLine; simpl; discriminate. Qed.

Lemma annotations_not_passed lines errors :
  Forall2 annotates lines errors ->
  Forall (fun s => s <> passedLine true) lines.
Proof.
  induction 1 as [|line i lines errors Hl _ IH]; constructor; auto.
  now apply annotation_not_passed with i.
Qed.

(** X16. In a run that reaches the report, the line [All checks passed.] is
    printed exactly when the exit code is 0, and it is then the last line
    printed; no coverage row, issue line, heading or annotation can be
    mistaken for it. *)
Theorem passed_line_iff_exit_zero
    (parse : Parser) (isCI : bool) (fs : FileSystem) :
  sourceLoads fs NAMESPACES -> discoverLocales fs <> [] ->
  exists code log,
    main parse isCI fs emptyLog = Exited code log
    /\ (In (passedLine isCI) (stdout log) <-> code = 0%Z)
    /\ (code = 0%Z -> last (stdout log) "" = passedLine isCI).
Proof.
  intros Hok Hne.
  destruct (source_phase parse isCI fs Hok) as (sd & d & Hd & [_ [Ho _]] & _).
  destruct (checkLocales_annotated parse isCI fs sd (discoverLocales fs))
    as (cov & d' & Hd' & [_ Ho'] & _).
  pose proof (validate_targets parse isCI fs sd d cov d' Hd Hne Hd') as Hval.
  destruct (report_ends isCI cov (issues (appendLog d d')))
    as ([] & d'' & Hd'' & (pre & Hpre & Hnp) & _).
  exists (finalCode (issues (appendLog d d'))), (appendLog (appendLog d d') d'').
  split; [now apply main_with_report with cov |].
  assert (Hnp' : Forall (fun s => s <> passedLine isCI) (stdout d')).
  { destruct isCI; [| rewrite Ho'; constructor].
    eapply annotations_not_passed; exact Ho'. }
  set (all := issues (appendLog d d')) in *.
  change (stdout (appendLog (appendLog d d') d''))
    with ((stdout d ++ stdout d') ++ stdout d'').
  rewrite Ho, Hpre; simpl app.
  unfold finalCode.
  destruct (List.length (filter (isType Error) all)) as [|n]; simpl.
  - split; [| intros _; rewrite app_assoc; apply last_last].
    split; auto; intros _.
    rewrite !in_app_iff; right; right; now left.
  - split; [| discriminate].
    split; [| discriminate].
    rewrite app_nil_r, in_app_iff; intros [H|H]; exfalso.
    + rewrite Forall_forall in Hnp'; now apply (Hnp' _ H).
    + rewrite Forall_forall in Hnp; now apply (Hnp _ H).
Qed.


Lemma scalarFs_sourceLoads : sourceLoads scalarFs NAMESPACES.
Proof.
  intros ns H; simpl in H.
  repeat (destruct H as [<-|H]; [reflexivity |]); destruct H.
Qed.

Lemma passed_line_iff_exit_zero_witness :
  exists code log,
    main heroParser true scalarFs emptyLog = Exited code log
    /\ (In (passedLine true) (stdout log) <-> code = 0%Z)
    /\ (code = 0%Z -> last (stdout log) "" = passedLine true).
Proof.
  apply (passed_line_iff_exit_zero heroParser true scalarFs).
  - exact scalarFs_sourceLoads.
  - vm_compute; discriminate.
Defined.

(** * What the issues name *)






(** * The rows of the coverage table *)




